(** * d-CGP expression: chromosome bounds, active set, evaluation, mutation

    A shallow embedding of [include/dcgp/expression.hpp] (class
    [dcgp::expression<T>]) and the verification of its documented behaviour.

    Conventions of the embedding:
    - a C++ [unsigned] is a [Z] in [0, 2^32); every arithmetic operation of
      the source on [unsigned] operands is written with its wrap-around
      ([⊕], [⊖], [⊗]);
    - a [std::vector] is a [list]; [operator[]] outside the vector is
      undefined behaviour in C++ and is the outcome [Undefined] here;
    - a member function is a function from the object before the call to an
      [outcome]: normal completion with the object after the call, a thrown
      exception together with the object as the throw leaves it, undefined
      behaviour, a failed [assert], or exhausted fuel (for the loops of
      the source that are not counted loops over a known range: the
      [do ... while] loops of [update_active] and of the mutations, and
      the stride loop over the function genes in the constructor);
    - the random engine [m_e] and [std::uniform_int_distribution] are library
      code: they are the interface [RandomEngine];
    - the kernels ([dcgp::kernel<T>], not part of this header) are functions
      from argument vectors to values. *)

From Stdlib Require Import Floats.
From stdpp Require Import base numbers option list list_numbers sorting gmap strings.

Local Open Scope Z_scope.

(** ** Unsigned 32-bit arithmetic *)

Definition modulus : Z := 2 ^ 32.
Definition wrap (z : Z) : Z := z mod modulus.
Definition uadd (a b : Z) : Z := wrap (a + b).
Definition usub (a b : Z) : Z := wrap (a - b).
Definition umul (a b : Z) : Z := wrap (a * b).

Infix "⊕" := uadd (at level 50, left associativity).
Infix "⊖" := usub (at level 50, left associativity).
Infix "⊗" := umul (at level 40, left associativity).

Definition is_unsigned (z : Z) : Prop := 0 ≤ z < modulus.

(** ** Outcomes of a call *)

Inductive exn : Type :=
| invalid_argument (what : string).

Inductive outcome (X A : Type) : Type :=
| Normal (a : A)
| Thrown (x : X)
| Undefined
| Aborted
| OutOfFuel.
Arguments Normal {X A} a.
Arguments Thrown {X A} x.
Arguments Undefined {X A}.
Arguments Aborted {X A}.
Arguments OutOfFuel {X A}.

Global Instance outcome_ret {X} : MRet (outcome X) := λ A a, Normal a.
Global Instance outcome_bind {X} : MBind (outcome X) := λ A B f m,
  match m with
  | Normal a => f a
  | Thrown x => Thrown x
  | Undefined => Undefined
  | Aborted => Aborted
  | OutOfFuel => OutOfFuel
  end.

(** ** Vectors *)

Definition size {A} (v : list A) : Z := Z.of_nat (length v).

Definition at_index {A} (v : list A) (i : Z) : option A :=
  if bool_decide (0 ≤ i) then v !! Z.to_nat i else None.

(** [v[i]] read. *)
Definition subscript {X A} (v : list A) (i : Z) : outcome X A :=
  match at_index v i with
  | Some a => Normal a
  | None => Undefined
  end.

(** [v[i] = a]. *)
Definition assign {X A} (v : list A) (i : Z) (a : A) : outcome X (list A) :=
  if bool_decide (0 ≤ i < size v) then Normal (<[Z.to_nat i := a]> v)
  else Undefined.

(** [for (auto i : l) body(i)] over a state [S]. *)
Fixpoint for_each {X S} (l : list Z) (body : Z → S → outcome X S) (s : S)
  : outcome X S :=
  match l with
  | [] => Normal s
  | i :: l' => s' ← body i s; for_each l' body s'
  end.

(** [std::sort] on a vector of unsigned followed by
    [erase(std::unique(begin, end), end)]. *)
Definition sort (l : list Z) : list Z := merge_sort Z.le l.

Fixpoint unique (l : list Z) : list Z :=
  match l with
  | [] => []
  | a :: l' =>
      match l' with
      | [] => [a]
      | b :: _ => if bool_decide (a = b) then unique l' else a :: unique l'
      end
  end.

(** ** The random source *)

(** [uniform_int a b g] is [std::uniform_int_distribution<unsigned>(a, b)(g)]:
    the drawn value and the engine after the draw. The distribution requires
    [a ≤ b] and then returns a value of the closed interval. *)
Class RandomEngine (E : Type) : Type := {
  uniform_int : Z → Z → E → Z * E;
  uniform_int_range : ∀ a b g, a ≤ b → a ≤ (uniform_int a b g).1 ≤ b
}.

Definition draw {X} `{RandomEngine E} (a b : Z) (g : E) : outcome X (Z * E) :=
  if bool_decide (a ≤ b) then Normal (uniform_int a b g) else Undefined.

(** A scripted engine: the raw values it will deliver, mapped into the
    requested interval; an exhausted script delivers the lower end. *)
Definition scripted_uniform (a b : Z) (g : list Z) : Z * list Z :=
  match g with
  | [] => (a, [])
  | v :: g' => (a + v mod (b - a + 1), g')
  end.

Program Instance scripted_engine : RandomEngine (list Z) := {
  uniform_int := scripted_uniform
}.
Next Obligation.
  intros a b [|v g] Hab; simpl; [lia|].
  pose proof (Z.mod_pos_bound v (b - a + 1)). lia.
Qed.

(** ** The expression object *)

Section Expression.
Context {E : Type} `{!RandomEngine E} {U : Type} `{!Inhabited U}.

Definition kernel : Type := list U → U.

Record expression : Type := mk_expression {
  m_n : Z;
  m_m : Z;
  m_r : Z;
  m_c : Z;
  m_l : Z;
  m_arity : Z;
  m_f : list kernel;
  m_lb : list Z;
  m_ub : list Z;
  m_active_nodes : list Z;
  m_active_genes : list Z;
  m_x : list Z;
  m_e : E
}.

Definition set_x (e : expression) (x : list Z) : expression :=
  mk_expression (m_n e) (m_m e) (m_r e) (m_c e) (m_l e) (m_arity e) (m_f e)
    (m_lb e) (m_ub e) (m_active_nodes e) (m_active_genes e) x (m_e e).
Definition set_e (e : expression) (g : E) : expression :=
  mk_expression (m_n e) (m_m e) (m_r e) (m_c e) (m_l e) (m_arity e) (m_f e)
    (m_lb e) (m_ub e) (m_active_nodes e) (m_active_genes e) (m_x e) g.
Definition set_active (e : expression) (nodes genes : list Z) : expression :=
  mk_expression (m_n e) (m_m e) (m_r e) (m_c e) (m_l e) (m_arity e) (m_f e)
    (m_lb e) (m_ub e) nodes genes (m_x e) (m_e e).

Definition get (e : expression) : list Z := m_x e.
Definition get_lb (e : expression) : list Z := m_lb e.
Definition get_ub (e : expression) : list Z := m_ub e.
Definition get_active_genes (e : expression) : list Z := m_active_genes e.
Definition get_active_nodes (e : expression) : list Z := m_active_nodes e.

(** *** [update_active] *)

(** One pass of [for (auto node_id : current)]: the connection genes of an
    internal node go to [next], an input node is pushed on the active
    nodes.  The inner loop is [for (auto i = 1u; i <= m_arity; ++i)]: its
    test holds for every [unsigned i] when [m_arity] is the largest
    unsigned value, and the loop does not end then. *)
Definition scan_node {X} (n arity : Z) (x : list Z) (node_id : Z)
    (st : list Z * list Z) : outcome X (list Z * list Z) :=
  let '(nodes, next) := st in
  if bool_decide (n ≤ node_id) then
    next' ← for_each (seqZ 1 arity)
             (λ i nx, g ← subscript x ((node_id ⊖ n) ⊗ (arity ⊕ 1) ⊕ i);
                      Normal (nx ++ [g])) next;
    if bool_decide (arity = modulus - 1) then OutOfFuel
    else Normal (nodes, next')
  else Normal (nodes ++ [node_id], next).

(** The [do { ... } while (current.size() > 0)] loop. *)
Fixpoint active_loop {X} (fuel : nat) (n arity : Z) (x : list Z)
    (current nodes : list Z) : outcome X (list Z) :=
  match fuel with
  | O => OutOfFuel
  | S fuel' =>
      '(nodes', next) ← for_each current (scan_node n arity x)
                          (nodes ++ current, []);
      let current' := unique (sort next) in
      if bool_decide (0 < size current') then
        active_loop fuel' n arity x current' nodes'
      else Normal nodes'
  end.

(** The gene indices of the active internal nodes, then the output genes;
    [for (auto j = 0u; j <= m_arity; ++j)] does not end either when
    [m_arity] is the largest unsigned value. *)
Definition node_genes {X} (n arity : Z) (node : Z) (genes : list Z)
    : outcome X (list Z) :=
  if bool_decide (n ≤ node) then
    if bool_decide (arity = modulus - 1) then OutOfFuel
    else
      let idx := (node ⊖ n) ⊗ (arity ⊕ 1) in
      Normal (genes ++ ((λ j, idx ⊕ j) <$> seqZ 0 (arity + 1)))
  else Normal genes.

Definition update_active {X} (fuel : nat) (e : expression)
    : outcome X expression :=
  if bool_decide (size (m_x e) = size (m_lb e)) then
    current ← for_each (seqZ 0 (m_m e))
                (λ i cur, g ← subscript (m_x e)
                                ((m_arity e ⊕ 1) ⊗ m_r e ⊗ m_c e ⊕ i);
                          assign cur i g)
                (replicate (Z.to_nat (m_m e)) 0);
    nodes ← active_loop fuel (m_n e) (m_arity e) (m_x e) current [];
    let active_nodes := unique (sort nodes) in
    genes ← for_each active_nodes (node_genes (m_n e) (m_arity e)) [];
    let genes' := genes ++ ((λ i, m_r e ⊗ m_c e ⊗ (m_arity e ⊕ 1) ⊕ i)
                              <$> seqZ 0 (m_m e)) in
    Normal (set_active e active_nodes genes')
  else Aborted.

(** *** [is_valid], [set] *)

(** The bounds loop of [is_valid]: the first gene outside its bounds
    returns [false]. *)
Fixpoint within_bounds {X} (lb ub x : list Z) (i : Z) (todo : list Z)
    : outcome X bool :=
  match todo with
  | [] => Normal true
  | xi :: todo' =>
      u ← subscript ub i;
      if bool_decide (u < xi) then Normal false
      else
        l ← subscript lb i;
        if bool_decide (xi < l) then Normal false
        else within_bounds lb ub x (i + 1) todo'
  end.

Definition is_valid {X} (e : expression) (x : list Z) : outcome X bool :=
  if bool_decide (size x ≠ size (m_lb e)) then Normal false
  else within_bounds (m_lb e) (m_ub e) x 0 x.

Local Abbreviation method A := (outcome (exn * expression) A).

Definition set (fuel : nat) (x : list Z) (e : expression)
    : method expression :=
  ok ← is_valid e x;
  if negb ok then
    Thrown (invalid_argument "Chromosome is incompatible", e)
  else update_active fuel (set_x e x).

(** *** Mutation *)

(** [do { new_value = uniform(lb, ub)(m_e); } while (new_value == current)]. *)
Fixpoint resample {X} (fuel : nat) (lo hi current : Z) (g : E)
    : outcome X (Z * E) :=
  match fuel with
  | O => OutOfFuel
  | S fuel' =>
      '(new_value, g') ← draw lo hi g;
      if bool_decide (new_value = current) then
        resample fuel' lo hi current g'
      else Normal (new_value, g')
  end.

(** The body shared by the mutation operators once the index is known to
    be inside the chromosome: [Some] object when the gene was resampled,
    [None] when its bounds leave a single value. *)
Definition mutate_gene {X} (fuel : nat) (idx : Z) (e : expression)
    : outcome X (option expression) :=
  l ← subscript (m_lb e) idx;
  u ← subscript (m_ub e) idx;
  if bool_decide (l < u) then
    current ← subscript (m_x e) idx;
    '(new_value, g) ← resample fuel l u current (m_e e);
    x' ← assign (m_x e) idx new_value;
    Normal (Some (set_e (set_x e x') g))
  else Normal None.

Definition out_of_bounds : exn :=
  invalid_argument "idx of gene to be mutated is out of bounds".

(** [mutate(unsigned idx)]. *)
Definition mutate (fuel : nat) (idx : Z) (e : expression)
    : method expression :=
  if bool_decide (size (m_x e) ≤ idx) then Thrown (out_of_bounds, e)
  else
    r ← mutate_gene fuel idx e;
    match r with
    | Some e' => update_active fuel e'
    | None => Normal e
    end.

(** The loop of [mutate(std::vector<unsigned> idxs)], with its [flag]. *)
Fixpoint mutate_each (fuel : nat) (idxs : list Z) (flag : bool)
    (e : expression) : method (bool * expression) :=
  match idxs with
  | [] => Normal (flag, e)
  | idx :: idxs' =>
      if bool_decide (size (m_x e) ≤ idx) then Thrown (out_of_bounds, e)
      else
        r ← mutate_gene fuel idx e;
        match r with
        | Some e' => mutate_each fuel idxs' true e'
        | None => mutate_each fuel idxs' flag e
        end
  end.

Definition mutate_many (fuel : nat) (idxs : list Z) (e : expression)
    : method expression :=
  '(flag, e') ← mutate_each fuel idxs false e;
  if flag : bool then update_active fuel e' else Normal e'.

(** [mutate_active(unsigned N)]; [count] is the number of iterations left. *)
Fixpoint mutate_active_loop (fuel : nat) (count : nat) (e : expression)
    : method expression :=
  match count with
  | O => Normal e
  | S count' =>
      '(k, g) ← draw 0 (wrap (size (m_active_genes e) - 1)) (m_e e);
      let e1 := set_e e g in
      idx ← subscript (m_active_genes e1) k;
      e2 ← mutate fuel idx e1;
      mutate_active_loop fuel count' e2
  end.

Definition mutate_active (fuel : nat) (N : Z) (e : expression)
    : method expression :=
  mutate_active_loop fuel (Z.to_nat N) e.

Definition mutate_active_fgene (fuel : nat) (e : expression)
    : method expression :=
  if bool_decide (m_m e < size (m_active_genes e)) then
    '(k, g) ← draw 0 (wrap (size (m_active_genes e) - 1 - m_m e)) (m_e e);
    let e1 := set_e e g in
    a ← subscript (m_active_genes e1) k;
    mutate fuel (a ⊖ a mod (m_arity e1 ⊕ 1)) e1
  else Normal e.

Definition mutate_active_cgene (fuel : nat) (e : expression)
    : method expression :=
  if bool_decide (m_m e < size (m_active_genes e)) then
    '(k, g) ← draw 0 (wrap (size (m_active_genes e) - 1 - m_m e)) (m_e e);
    let e1 := set_e e g in
    a ← subscript (m_active_genes e1) k;
    '(j, g') ← draw 1 (m_arity e1) (m_e e1);
    let e2 := set_e e1 g' in
    mutate fuel (a ⊖ a mod (m_arity e2 ⊕ 1) ⊕ j) e2
  else Normal e.

(** The loop of [mutate_random(unsigned N)], with its [flag]; [count] is the
    number of iterations left. *)
Fixpoint mutate_random_loop (fuel : nat) (count : nat) (flag : bool)
    (e : expression) : method (bool * expression) :=
  match count with
  | O => Normal (flag, e)
  | S count' =>
      '(idx, g) ← draw 0 (wrap (size (m_lb e) - 1)) (m_e e);
      let e1 := set_e e g in
      r ← mutate_gene fuel idx e1;
      match r with
      | Some e' => mutate_random_loop fuel count' true e'
      | None => mutate_random_loop fuel count' flag e1
      end
  end.

Definition mutate_random (fuel : nat) (N : Z) (e : expression)
    : method expression :=
  '(flag, e') ← mutate_random_loop fuel (Z.to_nat N) false e;
  if flag : bool then update_active fuel e' else Normal e'.

(** [mutate_ogene()]: with one output the position is the last one and
    nothing is drawn for it. *)
Definition mutate_ogene (fuel : nat) (e : expression) : method expression :=
  if bool_decide (1 < m_m e) then
    '(k, g) ← draw (wrap (size (m_active_genes e) - m_m e))
                   (wrap (size (m_active_genes e) - 1)) (m_e e);
    let e1 := set_e e g in
    idx ← subscript (m_active_genes e1) k;
    mutate fuel idx e1
  else
    idx ← subscript (m_active_genes e) (wrap (size (m_active_genes e) - 1));
    mutate fuel idx e.

(** *** Evaluation: [operator()] *)

(** [node[k]] on a [std::map]: a missing key is inserted with a
    value-initialised value. *)
Definition map_subscript (node : gmap Z U) (k : Z) : U * gmap Z U :=
  match node !! k with
  | Some u => (u, node)
  | None => (inhabitant, <[k := inhabitant]> node)
  end.

(** [function_in[j] = node[m_x[idx + j + 1]]]. *)
Definition gather_input {X} (x : list Z) (idx j : Z)
    (st : list U * gmap Z U) : outcome X (list U * gmap Z U) :=
  let '(function_in, node) := st in
  g ← subscript x (idx ⊕ j ⊕ 1);
  let '(u, node') := map_subscript node g in
  function_in' ← assign function_in j u;
  Normal (function_in', node').

(** The body of [for (auto i : m_active_nodes)], on the two locals it
    updates: the argument vector [function_in] and the map [node]. *)
Definition eval_node {X} (e : expression) (inp : list U) (i : Z)
    (st : list U * gmap Z U) : outcome X (list U * gmap Z U) :=
  let '(function_in, node) := st in
  if bool_decide (i < m_n e) then
    v ← subscript inp i;
    Normal (function_in, <[i := v]> node)
  else
    let idx := (i ⊖ m_n e) ⊗ (m_arity e ⊕ 1) in
    '(function_in', node') ← for_each (seqZ 0 (m_arity e))
                               (gather_input (m_x e) idx) (function_in, node);
    fi ← subscript (m_x e) idx;
    k ← subscript (m_f e) fi;
    Normal (function_in', <[i := k function_in']> node').

Definition eval_nodes {X} (e : expression) (inp : list U)
    (nodes : list Z) (st : list U * gmap Z U)
    : outcome X (list U * gmap Z U) :=
  for_each nodes (eval_node e inp) st.

(** [retval[i] = node[m_x[(m_r * m_c) * (m_arity + 1) + i]]]. *)
Definition read_output {X} (e : expression) (i : Z)
    (st : list U * gmap Z U) : outcome X (list U * gmap Z U) :=
  let '(retval, node) := st in
  g ← subscript (m_x e) (m_r e ⊗ m_c e ⊗ (m_arity e ⊕ 1) ⊕ i);
  let '(u, node') := map_subscript node g in
  retval' ← assign retval i u;
  Normal (retval', node').

(** [std::vector<U> v(len)]: [len] value-initialised elements. *)
Definition value_initialised (len : Z) : list U :=
  replicate (Z.to_nat len) inhabitant.

Definition call (e : expression) (inp : list U) : outcome exn (list U) :=
  if bool_decide (size inp ≠ m_n e) then
    Thrown (invalid_argument "Input size is incompatible")
  else
    let retval := value_initialised (m_m e) in
    let function_in := value_initialised (m_arity e) in
    '(_, node) ← eval_nodes e inp (m_active_nodes e) (function_in, ∅);
    '(retval', _) ← for_each (seqZ 0 (m_m e)) (read_output e) (retval, node);
    Normal retval'.

(** *** Construction *)

(** [for (auto i = 0u; i < bound; i += step) m_ub[i] = fmax]. *)
Fixpoint function_gene_bounds {X} (fuel : nat) (i bound step fmax : Z)
    (ub : list Z) : outcome X (list Z) :=
  if bool_decide (i < bound) then
    match fuel with
    | O => OutOfFuel
    | S fuel' =>
        ub' ← assign ub i fmax;
        function_gene_bounds fuel' (i ⊕ step) bound step fmax ub'
    end
  else Normal ub.

Definition output_gene_bounds {X} (n r c l : Z) (i : Z)
    (st : list Z * list Z) : outcome X (list Z * list Z) :=
  let '(lb, ub) := st in
  ub' ← assign ub i (n ⊕ r ⊗ c ⊖ 1);
  if bool_decide (l ≤ c) then
    lb' ← assign lb i (n ⊕ r ⊗ (c ⊖ l));
    Normal (lb', ub')
  else Normal (lb, ub').

Definition connection_gene_bounds {X} (n r l arity : Z) (i j k : Z)
    (st : list Z * list Z) : outcome X (list Z * list Z) :=
  let '(lb, ub) := st in
  let idx := (i ⊗ r ⊕ j) ⊗ (arity ⊕ 1) ⊕ k ⊕ 1 in
  ub' ← assign ub idx (n ⊕ i ⊗ r ⊖ 1);
  if bool_decide (l ≤ i) then
    lb' ← assign lb idx (n ⊕ r ⊗ (i ⊖ l));
    Normal (lb', ub')
  else Normal (lb, ub').

(** The three bound loops of the constructor, on the zero-initialised
    vectors; [fsize] is [f.size()]. *)
Definition gene_bounds {X} (fuel : nat) (n m r c l arity fsize : Z)
    : outcome X (list Z * list Z) :=
  let len := (arity ⊕ 1) ⊗ r ⊗ c ⊕ m in
  let zeros := replicate (Z.to_nat len) 0 in
  ub1 ← function_gene_bounds fuel 0 ((arity ⊕ 1) ⊗ r ⊗ c) (arity ⊕ 1)
          (wrap (fsize - 1)) zeros;
  st2 ← for_each (seqZ ((arity ⊕ 1) ⊗ r ⊗ c)
                        (size ub1 - (arity ⊕ 1) ⊗ r ⊗ c))
          (output_gene_bounds n r c l) (zeros, ub1);
  for_each (seqZ 0 c) (λ i,
    for_each (seqZ 0 r) (λ j,
      for_each (seqZ 0 arity) (λ k,
        connection_gene_bounds n r l arity i j k))) st2.

(** [m_x[i] = uniform(m_lb[i], m_ub[i])(m_e)]. *)
Definition random_gene {X} (lb ub : list Z) (i : Z) (st : list Z * E)
    : outcome X (list Z * E) :=
  let '(x, g) := st in
  l ← subscript lb i;
  u ← subscript ub i;
  '(v, g') ← draw l u g;
  x' ← assign x i v;
  Normal (x', g').

Definition construct (fuel : nat) (n m r c l arity : Z) (f : list kernel)
    (seed : E) : outcome exn expression :=
  let len := (arity ⊕ 1) ⊗ r ⊗ c ⊕ m in
  if bool_decide (n = 0) then
    Thrown (invalid_argument "Number of inputs is 0")
  else if bool_decide (m = 0) then
    Thrown (invalid_argument "Number of outputs is 0")
  else if bool_decide (c = 0) then
    Thrown (invalid_argument "Number of columns is 0")
  else if bool_decide (r = 0) then
    Thrown (invalid_argument "Number of rows is 0")
  else if bool_decide (l = 0) then
    Thrown (invalid_argument "Number of level-backs is 0")
  else if bool_decide (arity < 2) then
    Thrown (invalid_argument "Basis functions arity must be at least 2")
  else if bool_decide (size f = 0) then
    Thrown (invalid_argument "Number of basis functions is 0")
  else
    '(lb, ub) ← gene_bounds fuel n m r c l arity (size f);
    '(x, g) ← for_each (seqZ 0 len) (random_gene lb ub)
                (replicate (Z.to_nat len) 0, seed);
    update_active fuel
      (mk_expression n m r c l arity f lb ub [] [] x g).

End Expression.

(** ** The instances of the documented scenarios *)

(** Double-precision values; a value-initialised [double] is [0.0]. *)
Global Instance float_inhabited : Inhabited float := populate 0%float.

(** The basis function "add": the sum of its arguments. *)
Definition add_kernel : @kernel float := λ args,
  match args with
  | [] => 0%float
  | a :: rest => foldl PrimFloat.add a rest
  end.

(** [n = 2, m = 1, r = 1, c = 1, l = 1, arity = 2] with the single basis
    function "add": one internal node (id 2, genes 0..2) and one output gene
    (index 3). Its bounds are [0 0 0 2] and [0 1 1 2]. *)
Definition scenario (x nodes genes : list Z) (script : list Z)
  : @expression (list Z) float :=
  mk_expression 2 1 1 1 1 2 [add_kernel] [0; 0; 0; 2] [0; 1; 1; 2]
    nodes genes x script.

(** The same grid with [l = 2]: the output gene may also select an input;
    its bounds are [0 0 0 0] and [0 1 1 2]. *)
Definition scenario_l2 (x nodes genes : list Z) (script : list Z)
  : @expression (list Z) float :=
  mk_expression 2 1 1 1 2 2 [add_kernel] [0; 0; 0; 0] [0; 1; 1; 2]
    nodes genes x script.

(** The first grid with a function set of two entries: the function gene
    of its node has the bounds [[0, 1]]. *)
Definition scenario_two (x nodes genes : list Z) (script : list Z)
  : @expression (list Z) float :=
  mk_expression 2 1 1 1 1 2 [add_kernel; add_kernel] [0; 0; 0; 2] [1; 1; 1; 2]
    nodes genes x script.

(** ** Streaming of vectors ([io.hpp])

    An output stream is the text written to it so far.  What
    [stream(os, x)] does for an element is decided by the overload its type
    selects; the vector overload takes it as [stream]. *)

Definition PAGMO_MAX_OUTPUT_LENGTH : Z := 5.

(** Arithmetic on [std::size_t]. *)
Definition wrap64 (z : Z) : Z := z mod 2 ^ 64.

(** [stream_impl(std::ostream &, const bool &)]. *)
Definition stream_impl_bool (os : string) (b : bool) : string :=
  if b then os +:+ "true" else os +:+ "false".

(** [stream_impl(std::ostream &, const std::vector<T> &)]. *)
Definition stream_impl_vector {X T} (stream : string → T → outcome X string)
    (os : string) (v : list T) : outcome X string :=
  let len := size v in
  if bool_decide (len ≤ PAGMO_MAX_OUTPUT_LENGTH) then
    os1 ← for_each (seqZ 0 (size v))
            (λ i os, x ← subscript v i;
                     os' ← stream os x;
                     if bool_decide (i ≠ wrap64 (size v - 1))
                     then Normal (os' +:+ ", ") else Normal os')
            (os +:+ "[");
    Normal (os1 +:+ "]")
  else
    os1 ← for_each (seqZ 0 PAGMO_MAX_OUTPUT_LENGTH)
            (λ i os, x ← subscript v i;
                     os' ← stream os x;
                     Normal (os' +:+ ", "))
            (os +:+ "[");
    Normal (os1 +:+ "... ]").

(** ** Vocabulary of the specification *)


(** The sanity checks of the constructor. *)
Definition valid_topology (n m r c l arity fsize : Z) : Prop :=
  1 ≤ n ∧ 1 ≤ m ∧ 1 ≤ r ∧ 1 ≤ c ∧ 1 ≤ l ∧ 2 ≤ arity ∧ 1 ≤ fsize.

(** The parameters are values of type [unsigned]. *)
Definition unsigned_topology (n m r c l arity : Z) : Prop :=
  is_unsigned n ∧ is_unsigned m ∧ is_unsigned r ∧ is_unsigned c ∧
  is_unsigned l ∧ is_unsigned arity.

(** Every node id and every gene index is representable: none of the
    [unsigned] computations of the class wraps around. *)
Definition fits (n m r c arity : Z) : Prop :=
  n + r * c ≤ modulus ∧ (arity + 1) * r * c + m < modulus.

(** The bounds in closed form, gene by gene. *)
Record bounds_spec (n m r c l arity fsize : Z) (lb ub : list Z) : Prop := {
  bs_size_lb : size lb = (arity + 1) * r * c + m;
  bs_size_ub : size ub = (arity + 1) * r * c + m;
  bs_function : ∀ p, 0 ≤ p < r * c →
    at_index lb (p * (arity + 1)) = Some 0 ∧
    at_index ub (p * (arity + 1)) = Some (wrap (fsize - 1));
  bs_connection : ∀ i j k, 0 ≤ i < c → 0 ≤ j < r → 0 ≤ k < arity →
    at_index lb ((i * r + j) * (arity + 1) + k + 1)
      = Some (if bool_decide (l ≤ i) then n + r * (i - l) else 0) ∧
    at_index ub ((i * r + j) * (arity + 1) + k + 1) = Some (n + i * r - 1);
  bs_output : ∀ q, 0 ≤ q < m →
    at_index lb ((arity + 1) * r * c + q)
      = Some (if bool_decide (l ≤ c) then n + r * (c - l) else 0) ∧
    at_index ub ((arity + 1) * r * c + q) = Some (n + r * c - 1)
}.

(** Every gene lies between its two bounds. *)
Definition genes_within (lb ub x : list Z) : Prop :=
  size x = size lb ∧
  ∀ g xi, at_index x g = Some xi →
    ∃ lo hi, at_index lb g = Some lo ∧ at_index ub g = Some hi ∧ lo ≤ xi ≤ hi.

(** Backward reachability in the graph a chromosome encodes: [edge] is
    "the internal node [u] has a connection gene that holds [v]". *)
Definition edge (n arity : Z) (x : list Z) (u v : Z) : Prop :=
  n ≤ u ∧ ∃ i, 1 ≤ i ≤ arity ∧ at_index x ((u - n) * (arity + 1) + i) = Some v.

Inductive reach_from (n arity : Z) (x : list Z) (S : list Z) : Z → Prop :=
| reach_here v : v ∈ S → reach_from n arity x S v
| reach_step u v :
    reach_from n arity x S u → edge n arity x u v → reach_from n arity x S v.

(** The targets of the [m] output genes. *)
Definition output_targets (m r c arity : Z) (x : list Z) : list Z :=
  omap (λ q, at_index x ((arity + 1) * r * c + q)) (seqZ 0 m).

Definition reachable (n m r c arity : Z) (x : list Z) : Z → Prop :=
  reach_from n arity x (output_targets m r c arity x).

(** The gene indices [update_active] lists: the block of every active
    internal node, in node order, then the output genes. *)
Definition gene_block (n arity v : Z) : list Z :=
  (λ j, (v - n) * (arity + 1) + j) <$> seqZ 0 (arity + 1).

Definition internal_genes (n arity : Z) (nodes : list Z) : list Z :=
  nodes ≫= (λ v, if bool_decide (n ≤ v) then gene_block n arity v else []).

Definition output_genes (m r c arity : Z) : list Z :=
  (λ q, (arity + 1) * r * c + q) <$> seqZ 0 m.

(** The rejection loop of a mutation accepts its [(k+1)]-th draw: the first
    [k] draws of the engine [g] return the current value, the next one does
    not. *)
Fixpoint accepts `{RandomEngine E} (k : nat) (lo hi current : Z) (g : E)
  : Prop :=
  match k with
  | O => (uniform_int lo hi g).1 ≠ current
  | S k' => (uniform_int lo hi g).1 = current ∧
            accepts k' lo hi current (uniform_int lo hi g).2
  end.

Section Consistency.
Context {E : Type} `{!RandomEngine E} {U : Type} `{!Inhabited U}.
Implicit Type e : @expression E U.

(** The bounds are the ones the constructor builds. *)
Definition built_bounds e : Prop :=
  ∃ fuel, gene_bounds (X := exn) fuel (m_n e) (m_m e) (m_r e) (m_c e)
            (m_l e) (m_arity e) (size (m_f e)) = Normal (m_lb e, m_ub e).

(** The instance of a topology that passed the constructor's checks and
    whose sizes are representable. *)
Record well_formed e : Prop := {
  wf_unsigned : unsigned_topology (m_n e) (m_m e) (m_r e) (m_c e) (m_l e)
                  (m_arity e);
  wf_valid : valid_topology (m_n e) (m_m e) (m_r e) (m_c e) (m_l e)
               (m_arity e) (size (m_f e));
  wf_fits : fits (m_n e) (m_m e) (m_r e) (m_c e) (m_arity e);
  wf_bounds : built_bounds e
}.

(** The chromosome [x] satisfies the bounds of [e]. *)
Definition satisfies_bounds e (x : list Z) : Prop :=
  is_valid (X := exn) e x = Normal true.

(** The active sets are the ones of the current chromosome: recomputing
    them changes nothing. *)
Definition active_current e : Prop :=
  ∃ fuel, update_active (X := exn) fuel e = Normal e.

(** The consistent state of the facade. *)
Record consistent e : Prop := {
  cs_wf : well_formed e;
  cs_valid : satisfies_bounds e (m_x e);
  cs_active : active_current e
}.

(** What one call left unchanged. *)
Definition same_observable e e' : Prop :=
  m_x e' = m_x e ∧ m_active_nodes e' = m_active_nodes e ∧
  m_active_genes e' = m_active_genes e.

(** The call [run], made on the instance [e0], mutates gene [idx]: with
    [lo], [hi] and [cur] the bounds and the value of the gene in [e0], when
    [lo < hi] every instance the call returns holds at [idx] a value other
    than [cur] within [[lo, hi]], holds every other gene as [e0] did and is
    consistent, and the call does return as soon as the engine of [e0]
    delivers a value other than [cur] (fuel beyond the rejected draws and
    the passes of the active-set loop); when [lo = hi] the call returns
    [e0] itself. *)
Definition resamples_gene (fuel : nat) (idx : Z) e0
    (run : outcome (exn * @expression E U) (@expression E U)) : Prop :=
  ∃ lo hi cur,
    at_index (get_lb e0) idx = Some lo ∧ at_index (get_ub e0) idx = Some hi ∧
    at_index (get e0) idx = Some cur ∧
    (lo < hi →
       (∀ e', run = Normal e' →
          ∃ t, at_index (get e') idx = Some t ∧ t ≠ cur ∧ lo ≤ t ≤ hi ∧
               (∀ j, j ≠ idx → at_index (get e') j = at_index (get e0) j) ∧
               consistent e') ∧
       (∀ k : nat, accepts k lo hi cur (m_e e0) → (k < fuel)%nat →
          (Z.to_nat (m_r e0 * m_c e0) < fuel)%nat →
          ∃ e', run = Normal e')) ∧
    (lo = hi → run = Normal e0).

(** The members no setter and no mutator writes: the topology, the
    kernels and the two bound vectors. *)
Definition same_topology e e' : Prop :=
  m_n e' = m_n e ∧ m_m e' = m_m e ∧ m_r e' = m_r e ∧ m_c e' = m_c e ∧
  m_l e' = m_l e ∧ m_arity e' = m_arity e ∧ m_f e' = m_f e ∧
  m_lb e' = m_lb e ∧ m_ub e' = m_ub e.

(** The state inside a batch of mutations: the chromosome is within the
    bounds, the active vectors may be those of an earlier chromosome. *)
Definition within_state e : Prop :=
  well_formed e ∧ genes_within (m_lb e) (m_ub e) (m_x e).

(** A run of [count] iterations of [mutate_active]: each iteration draws a
    position in the active genes of the state it starts from, mutates the
    gene found there with [mutate(idx)], and hands a consistent state, with
    its active sets recomputed, to the next iteration. *)
Inductive mutation_steps (fuel : nat) : nat → expression → expression → Prop :=
| steps_done e : mutation_steps fuel 0 e e
| steps_next count e k g idx e1 e' :
    uniform_int 0 (size (m_active_genes e) - 1) (m_e e) = (k, g) →
    0 ≤ k ≤ size (m_active_genes e) - 1 →
    at_index (m_active_genes e) k = Some idx →
    mutate fuel idx (set_e e g) = Normal e1 →
    consistent e1 →
    mutation_steps fuel count e1 e' →
    mutation_steps fuel (S count) e e'.
End Consistency.

(** The value of a node for the inputs [inp]: an input node has the value
    of its input; an internal node has the value of the kernel its function
    gene selects, on the values of the nodes its connection genes hold. *)
Section Denotation.
Context {E : Type} `{!RandomEngine E} {U : Type} `{!Inhabited U}.

Inductive node_value (e : @expression E U) (inp : list U) : Z → U → Prop :=
| value_input v u :
    v < m_n e → at_index inp v = Some u → node_value e inp v u
| value_internal v fi k args vals :
    m_n e ≤ v →
    at_index (m_x e) ((v - m_n e) * (m_arity e + 1)) = Some fi →
    at_index (m_f e) fi = Some k →
    Forall2 (λ i t, at_index (m_x e) ((v - m_n e) * (m_arity e + 1) + i)
                    = Some t) (seqZ 1 (m_arity e)) args →
    Forall2 (node_value e inp) args vals →
    node_value e inp v (k vals).
End Denotation.

(** ** Basic facts *)

Lemma modulus_eq : modulus = 4294967296.
Proof. reflexivity. Qed.

Lemma wrap_small z : 0 ≤ z < modulus → wrap z = z.
Proof. intros. unfold wrap. by apply Z.mod_small. Qed.

Lemma wrap_range z : 0 ≤ wrap z < modulus.
Proof. unfold wrap. apply Z.mod_pos_bound. reflexivity. Qed.

Lemma uadd_small a b : 0 ≤ a + b < modulus → a ⊕ b = a + b.
Proof. apply wrap_small. Qed.
Lemma usub_small a b : 0 ≤ a - b < modulus → a ⊖ b = a - b.
Proof. apply wrap_small. Qed.
Lemma umul_small a b : 0 ≤ a * b < modulus → a ⊗ b = a * b.
Proof. apply wrap_small. Qed.

Lemma size_nonneg {A} (v : list A) : 0 ≤ size v.
Proof. unfold size. lia. Qed.

Lemma size_app {A} (v w : list A) : size (v ++ w) = size v + size w.
Proof. unfold size. rewrite length_app. lia. Qed.

Lemma at_index_lookup {A} (v : list A) i :
  0 ≤ i → at_index v i = v !! Z.to_nat i.
Proof. intros. unfold at_index. by rewrite bool_decide_eq_true_2. Qed.

Lemma at_index_Some_range {A} (v : list A) i a :
  at_index v i = Some a → 0 ≤ i < size v.
Proof.
  unfold at_index, size. case_bool_decide; [|done].
  intros Hl%lookup_lt_Some. lia.
Qed.

Lemma at_index_is_Some {A} (v : list A) i :
  0 ≤ i < size v → is_Some (at_index v i).
Proof.
  intros [? ?]. rewrite at_index_lookup by done.
  apply lookup_lt_is_Some. unfold size in *. lia.
Qed.

Lemma at_index_elem_of {A} (v : list A) i a : at_index v i = Some a → a ∈ v.
Proof.
  unfold at_index. case_bool_decide; [|done]. apply list_elem_of_lookup_2.
Qed.

Lemma elem_of_at_index {A} (v : list A) a :
  a ∈ v → ∃ i, at_index v i = Some a.
Proof.
  intros [k Hk]%list_elem_of_lookup_1. exists (Z.of_nat k).
  rewrite at_index_lookup by lia. by rewrite Nat2Z.id.
Qed.

Lemma subscript_Normal {X A} (v : list A) i a :
  at_index v i = Some a → subscript (X := X) v i = Normal a.
Proof. intros H. unfold subscript. by rewrite H. Qed.

Lemma subscript_Normal_inv {X A} (v : list A) i a :
  subscript (X := X) v i = Normal a → at_index v i = Some a.
Proof. unfold subscript. destruct (at_index v i); naive_solver. Qed.

Lemma assign_Normal {X A} (v : list A) i a :
  0 ≤ i < size v → assign (X := X) v i a = Normal (<[Z.to_nat i := a]> v).
Proof. intros. unfold assign. by rewrite bool_decide_eq_true_2. Qed.

(** Filling a vector from the front: the entry after the part already
    written. *)
Lemma assign_fill {X A} (pre v0 : list A) (j : Z) (a : A) :
  size pre = j → j < size v0 →
  assign (X := X) (pre ++ drop (Z.to_nat j) v0) j a
  = Normal ((pre ++ [a]) ++ drop (Z.to_nat (j + 1)) v0).
Proof.
  intros Hpre Hj. unfold size in *.
  destruct (lookup_lt_is_Some_2 v0 (Z.to_nat j)) as [b Hb]; [lia|].
  rewrite (drop_S _ _ _ Hb).
  rewrite assign_Normal
    by (unfold size; rewrite length_app; simpl; lia).
  f_equal. rewrite insert_app_r_alt by lia.
  replace (Z.to_nat j - length pre)%nat with 0%nat by lia. simpl.
  rewrite <- app_assoc. simpl.
  by replace (Z.to_nat (j + 1)) with (S (Z.to_nat j)) by lia.
Qed.

Lemma size_insert {A} (v : list A) k a : size (<[k := a]> v) = size v.
Proof. unfold size. by rewrite length_insert. Qed.

Lemma at_index_insert {A} (v : list A) i j a :
  0 ≤ i < size v → 0 ≤ j →
  at_index (<[Z.to_nat i := a]> v) j
    = if bool_decide (j = i) then Some a else at_index v j.
Proof.
  intros [? Hi] ?. rewrite !at_index_lookup by done.
  case_bool_decide as Hji.
  - subst. apply list_lookup_insert_eq. unfold size in Hi. lia.
  - apply list_lookup_insert_ne. lia.
Qed.

Lemma at_index_insert_eq {A} (v : list A) i a :
  0 ≤ i < size v → at_index (<[Z.to_nat i := a]> v) i = Some a.
Proof.
  intros. rewrite at_index_insert by lia. by rewrite bool_decide_eq_true_2.
Qed.

Lemma at_index_insert_ne {A} (v : list A) i j a :
  0 ≤ i → 0 ≤ j → j ≠ i →
  at_index (<[Z.to_nat i := a]> v) j = at_index v j.
Proof.
  intros. rewrite !at_index_lookup by done.
  apply list_lookup_insert_ne. lia.
Qed.

Lemma outcome_bind_Normal {X A B} (m : outcome X A) (f : A → outcome X B) b :
  m ≫= f = Normal b ↔ ∃ a, m = Normal a ∧ f a = Normal b.
Proof. destruct m; simpl; naive_solver. Qed.

(** ** Loops *)

Lemma for_each_app {X S} (l1 l2 : list Z) (body : Z → S → outcome X S) s :
  for_each (l1 ++ l2) body s = s' ← for_each l1 body s; for_each l2 body s'.
Proof.
  revert s. induction l1 as [|i l1 IH]; intros s; simpl; [done|].
  destruct (body i s); simpl; auto.
Qed.

(** A loop over an index range keeps an invariant that every iteration
    re-establishes for the next index. *)
Lemma for_range_invariant {X S} (I : Z → S → Prop) (a len : Z)
    (body : Z → S → outcome X S) (s : S) :
  0 ≤ len →
  I a s →
  (∀ i t, a ≤ i < a + len → I i t → ∃ t', body i t = Normal t' ∧ I (i + 1) t') →
  ∃ s', for_each (seqZ a len) body s = Normal s' ∧ I (a + len) s'.
Proof.
  intros Hlen. remember (Z.to_nat len) as k eqn:Hk.
  revert a len s Hlen Hk. induction k as [|k IH]; intros a len s Hlen Hk Ha Hstep.
  - assert (len = 0) as -> by lia. rewrite seqZ_nil by lia. simpl.
    exists s. by rewrite Z.add_0_r.
  - rewrite seqZ_cons by lia. simpl.
    destruct (Hstep a s) as (t & Hb & Ht); [lia|done|]. rewrite Hb. simpl.
    destruct (IH (Z.succ a) (Z.pred len) t) as (s' & Hs' & HI); [lia|lia| | |].
    + by replace (Z.succ a) with (a + 1) by lia.
    + intros i u Hi Hu. apply Hstep; [lia|done].
    + exists s'. split; [done|].
      by replace (a + len) with (Z.succ a + Z.pred len) by lia.
Qed.

(** A loop over a list keeps an invariant on the processed prefix. *)
Lemma for_each_invariant {X S} (I : list Z → S → Prop) (l : list Z)
    (body : Z → S → outcome X S) (s : S) :
  I [] s →
  (∀ done i rest t, l = done ++ i :: rest → I done t →
     ∃ t', body i t = Normal t' ∧ I (done ++ [i]) t') →
  ∃ s', for_each l body s = Normal s' ∧ I l s'.
Proof.
  intros H0 Hstep.
  cut (∀ todo done t, l = done ++ todo → I done t →
         ∃ s', for_each todo body t = Normal s' ∧ I l s').
  { intros Hcut. by apply (Hcut l [] s). }
  induction todo as [|i todo IH]; intros done t Hl Ht; simpl.
  - exists t. split; [done|]. by rewrite Hl, app_nil_r.
  - destruct (Hstep done i todo t Hl Ht) as (t' & Hb & Ht'). rewrite Hb. simpl.
    apply (IH (done ++ [i])); [|done]. by rewrite <- app_assoc.
Qed.

(** ** Sorting and removing duplicates *)

Lemma elem_of_unique (l : list Z) a : a ∈ unique l ↔ a ∈ l.
Proof.
  induction l as [|b l IH]; [done|]. simpl unique.
  destruct l as [|c l]; [done|].
  case_bool_decide as Hbc.
  - subst c. rewrite IH. rewrite !elem_of_cons. naive_solver.
  - rewrite elem_of_cons, IH. rewrite !elem_of_cons. naive_solver.
Qed.

Lemma elem_of_sort (l : list Z) a : a ∈ sort l ↔ a ∈ l.
Proof. unfold sort. by rewrite merge_sort_Permutation. Qed.

Lemma elem_of_unique_sort (l : list Z) a : a ∈ unique (sort l) ↔ a ∈ l.
Proof. by rewrite elem_of_unique, elem_of_sort. Qed.

Lemma unique_head_le (l : list Z) a b :
  Sorted Z.le (a :: l) → b ∈ unique (a :: l) → a ≤ b.
Proof.
  intros Hs Hb. rewrite elem_of_unique in Hb.
  apply Sorted_StronglySorted in Hs; [|apply _].
  apply StronglySorted_inv in Hs as [_ Hall].
  apply elem_of_cons in Hb as [->|Hb]; [lia|].
  rewrite Forall_forall in Hall. by apply Hall.
Qed.

(** On a sorted vector, [unique] leaves a strictly increasing one. *)
Lemma unique_sorted_lt (l : list Z) :
  Sorted Z.le l → StronglySorted Z.lt (unique l).
Proof.
  induction l as [|a l IH]; intros Hs; [constructor|].
  simpl unique. destruct l as [|b l]; [repeat constructor|].
  pose proof (Sorted_inv Hs) as [Hs' Hhd].
  case_bool_decide as Hab; [by apply IH|].
  constructor; [by apply IH|].
  apply Forall_forall. intros d Hd.
  assert (a ≤ b) by (by inversion Hhd).
  pose proof (unique_head_le _ _ _ Hs' Hd). lia.
Qed.

Lemma unique_sort_sorted (l : list Z) : StronglySorted Z.lt (unique (sort l)).
Proof. apply unique_sorted_lt. unfold sort. apply Sorted_merge_sort. apply _. Qed.

Lemma StronglySorted_lt_NoDup (l : list Z) : StronglySorted Z.lt l → NoDup l.
Proof.
  induction 1 as [|a l Hs IH Hall]; constructor; [|done].
  intros Ha. rewrite Forall_forall in Hall. specialize (Hall _ Ha). lia.
Qed.

(** A strictly increasing vector is determined by its elements. *)
Lemma StronglySorted_lt_ext (l1 l2 : list Z) :
  StronglySorted Z.lt l1 → StronglySorted Z.lt l2 →
  (∀ a, a ∈ l1 ↔ a ∈ l2) → l1 = l2.
Proof.
  intros H1 H2 Hiff. apply (StronglySorted_unique_strong Z.lt); try done.
  - intros a b _ _ Hab Hba. lia.
  - apply NoDup_Permutation; auto using StronglySorted_lt_NoDup.
Qed.

(** ** The bounds the constructor builds *)

Lemma mixed_radix_inj (w a b a' b' : Z) :
  0 ≤ b < w → 0 ≤ b' < w → a * w + b = a' * w + b' → a = a' ∧ b = b'.
Proof. intros. assert (a = a') by nia. subst. lia. Qed.

Lemma grid_node_range (r c i j : Z) :
  0 ≤ i < c → 0 ≤ j < r → 0 ≤ i * r + j < r * c.
Proof. intros. nia. Qed.

Lemma grid_gene_range (w P p k : Z) :
  0 ≤ p < P → 0 ≤ k < w → 0 ≤ p * w + k < w * P.
Proof. intros. nia. Qed.

Lemma grid_column_le (r c i : Z) : 1 ≤ r → 0 ≤ i < c → 0 ≤ i * r ≤ r * c - r.
Proof. intros. nia. Qed.

Lemma mul_lt_grid (w k P : Z) : 0 < w → k * w < w * P ↔ k < P.
Proof. intros. nia. Qed.

Lemma mul_ne_grid (w p k : Z) : 0 < w → p ≠ k → p * w ≠ k * w.
Proof. intros. nia. Qed.

Lemma mul_ge_self (w r : Z) : 0 ≤ w → 1 ≤ r → w ≤ w * r.
Proof. intros. nia. Qed.

Lemma grid_column_le' (r c d : Z) : 1 ≤ r → 0 ≤ d < c → 0 ≤ r * d ≤ r * c - r.
Proof. intros. nia. Qed.

Section GeneBounds.
Context {X : Type}.
Variables n m r c l arity fsize : Z.
Hypothesis Hunsigned : unsigned_topology n m r c l arity.
Hypothesis Hvalid : valid_topology n m r c l arity fsize.
Hypothesis Hfits : fits n m r c arity.

Let w := arity + 1.
Let B := w * (r * c).
Let L := B + m.

Lemma topology_facts :
  1 ≤ n ∧ 1 ≤ m ∧ 1 ≤ r ∧ 1 ≤ c ∧ 1 ≤ l ∧ 2 ≤ arity ∧ 3 ≤ w ∧
  1 ≤ r * c ∧ r ≤ r * c ∧ n + r * c ≤ modulus ∧ L < modulus ∧
  r * c ≤ B ∧ l < modulus ∧ w * r < modulus ∧ w * r * c = B ∧ c < modulus.
Proof.
  unfold valid_topology, fits, unsigned_topology, is_unsigned in *.
  subst L B w.
  assert (1 ≤ r * c) by nia. assert (r ≤ r * c) by nia.
  assert ((arity + 1) * r * c = (arity + 1) * (r * c)) as Heq by ring.
  assert (r * c ≤ (arity + 1) * (r * c)) by nia.
  assert ((arity + 1) * r ≤ (arity + 1) * (r * c)) by nia.
  rewrite Heq in *. repeat split; try lia.
Qed.

Local Ltac facts :=
  pose proof topology_facts as
    (?&?&?&?&?&?&?&?&?&?&?&?&?&?&?&?); rewrite ?modulus_eq in *.

Lemma width_small : arity ⊕ 1 = w.
Proof. facts. apply uadd_small. rewrite modulus_eq. subst w. lia. Qed.

Lemma nodes_small : r ⊗ c = r * c.
Proof. facts. apply umul_small. rewrite modulus_eq. lia. Qed.

Lemma genes_small : (arity ⊕ 1) ⊗ r ⊗ c = B.
Proof.
  facts. rewrite width_small. assert (w ⊗ r = w * r) as ->.
  { apply umul_small. rewrite modulus_eq. lia. }
  rewrite umul_small by (rewrite modulus_eq; lia). lia.
Qed.

Lemma genes_small' : r ⊗ c ⊗ (arity ⊕ 1) = B.
Proof.
  facts. rewrite width_small, nodes_small.
  assert (r * c * w = B) as Heq by (subst B; ring).
  rewrite umul_small by (rewrite modulus_eq; lia). done.
Qed.

Lemma length_small : (arity ⊕ 1) ⊗ r ⊗ c ⊕ m = L.
Proof.
  facts. rewrite genes_small. apply uadd_small. rewrite modulus_eq.
  subst L. lia.
Qed.

Lemma gene_index_range i j k :
  0 ≤ i < c → 0 ≤ j < r → 0 ≤ k < arity →
  0 ≤ (i * r + j) * w + k + 1 < B.
Proof.
  intros Hi Hj Hk. pose proof (grid_node_range r c i j Hi Hj) as Hp.
  pose proof (grid_gene_range w (r * c) (i * r + j) (k + 1) Hp) as Hg.
  subst B w. lia.
Qed.

Lemma gene_index_small i j k :
  0 ≤ i < c → 0 ≤ j < r → 0 ≤ k < arity →
  (i ⊗ r ⊕ j) ⊗ (arity ⊕ 1) ⊕ k ⊕ 1 = (i * r + j) * w + k + 1.
Proof.
  intros Hi Hj Hk. facts. rewrite width_small.
  pose proof (grid_node_range r c i j Hi Hj) as Hp.
  pose proof (grid_gene_range w (r * c) (i * r + j) (k + 1) Hp) as Hg.
  pose proof (grid_gene_range w (r * c) (i * r + j) 0 Hp) as Hg0.
  pose proof (grid_column_le r c i) as Hc.
  assert (i ⊗ r = i * r) as ->
    by (apply umul_small; rewrite modulus_eq; lia).
  assert (i * r ⊕ j = i * r + j) as ->
    by (apply uadd_small; rewrite modulus_eq; lia).
  assert ((i * r + j) ⊗ w = (i * r + j) * w) as ->
    by (apply umul_small; rewrite modulus_eq; subst B w; lia).
  assert ((i * r + j) * w ⊕ k = (i * r + j) * w + k) as ->
    by (apply uadd_small; rewrite modulus_eq; subst B w; lia).
  apply uadd_small. rewrite modulus_eq. subst B w. lia.
Qed.

Lemma connection_ub_small i : 0 ≤ i < c → n ⊕ i ⊗ r ⊖ 1 = n + i * r - 1.
Proof.
  intros Hi. facts. pose proof (grid_column_le r c i) as Hc.
  assert (i ⊗ r = i * r) as ->
    by (apply umul_small; rewrite modulus_eq; lia).
  assert (n ⊕ i * r = n + i * r) as ->
    by (apply uadd_small; rewrite modulus_eq; lia).
  apply usub_small. rewrite modulus_eq. lia.
Qed.

Lemma connection_lb_small i :
  0 ≤ i < c → l ≤ i → n ⊕ r ⊗ (i ⊖ l) = n + r * (i - l).
Proof.
  intros Hi Hl. facts.
  pose proof (grid_column_le' r c (i - l)).
  assert (i ⊖ l = i - l) as ->
    by (apply usub_small; rewrite modulus_eq; lia).
  assert (r ⊗ (i - l) = r * (i - l)) as ->
    by (apply umul_small; rewrite modulus_eq; lia).
  apply uadd_small. rewrite modulus_eq. lia.
Qed.

Lemma output_ub_small : n ⊕ r ⊗ c ⊖ 1 = n + r * c - 1.
Proof.
  facts. rewrite nodes_small. unfold uadd, usub.
  destruct (decide (n + r * c = modulus)) as [Heq|Hne].
  - rewrite Heq. reflexivity.
  - rewrite modulus_eq in Hne.
    rewrite (wrap_small (n + r * c)) by (rewrite modulus_eq; lia).
    apply wrap_small. rewrite modulus_eq. lia.
Qed.

Lemma output_lb_small : l ≤ c → n ⊕ r ⊗ (c ⊖ l) = n + r * (c - l).
Proof.
  intros Hl. facts.
  pose proof (grid_column_le' r c (c - l)).
  assert (c ⊖ l = c - l) as ->
    by (apply usub_small; rewrite modulus_eq; lia).
  assert (r ⊗ (c - l) = r * (c - l)) as ->
    by (apply umul_small; rewrite modulus_eq; lia).
  apply uadd_small. rewrite modulus_eq. lia.
Qed.

(** The function-gene loop, started at the [k]-th node. *)
Lemma function_gene_bounds_spec (fuel : nat) (k fmax : Z) (ub : list Z) :
  0 ≤ k ≤ r * c → (Z.to_nat (r * c - k) ≤ fuel)%nat → size ub = L →
  ∃ ub', function_gene_bounds (X := X) fuel (k * w) B w fmax ub = Normal ub' ∧
    size ub' = L ∧
    (∀ p, k ≤ p < r * c → at_index ub' (p * w) = Some fmax) ∧
    (∀ g, 0 ≤ g → (∀ p, k ≤ p < r * c → g ≠ p * w) →
       at_index ub' g = at_index ub g).
Proof.
  facts. revert k ub. induction fuel as [|fuel IH]; intros k ub Hk Hfuel Hsize.
  - assert (k = r * c) as -> by lia. simpl.
    rewrite bool_decide_eq_false_2 by (subst B; lia).
    exists ub. split; [done|]. split; [done|]. split; [intros; lia|done].
  - simpl. pose proof (mul_lt_grid w k (r * c)) as Hiff.
    case_bool_decide as Hlt.
    + assert (k < r * c) as Hk' by (apply Hiff; [lia|done]).
      assert (0 ≤ k * w < B) as Hrange.
      { pose proof (grid_gene_range w (r * c) k 0). subst B. lia. }
      rewrite assign_Normal by (rewrite Hsize; subst L; lia). simpl.
      assert (k * w ⊕ w = (k + 1) * w) as ->.
      { assert (k * w + w = (k + 1) * w) as Heq by ring.
        pose proof (grid_gene_range w (r * c) k (w - 1)).
        rewrite uadd_small by (rewrite modulus_eq; subst L B; lia). done. }
      destruct (IH (k + 1) (<[Z.to_nat (k * w) := fmax]> ub))
        as (ub' & Hrun & Hsz & Hset & Hkeep);
        [lia|lia|by rewrite size_insert|].
      exists ub'. split; [done|]. split; [done|]. split.
      * intros p Hp. destruct (decide (p = k)) as [->|Hne].
        -- rewrite Hkeep; [|lia|].
           ++ rewrite at_index_insert by (rewrite ?Hsize; subst L; lia).
              by rewrite bool_decide_eq_true_2.
           ++ intros q Hq. apply mul_ne_grid; lia.
        -- apply Hset. lia.
      * intros g Hg Hne. rewrite Hkeep; [|done|intros; apply Hne; lia].
        rewrite at_index_insert by (rewrite ?Hsize; subst L; lia).
        rewrite bool_decide_eq_false_2; [done|]. apply Hne. lia.
    + exists ub. split; [done|]. split; [done|]. split; [|done].
      intros p Hp. exfalso. apply Hlt. apply Hiff; lia.
Qed.

Lemma at_index_zeros g :
  0 ≤ g < L → at_index (replicate (Z.to_nat L) 0) g = Some 0.
Proof.
  intros. rewrite at_index_lookup by lia. apply lookup_replicate_2. lia.
Qed.

Lemma size_zeros : size (replicate (Z.to_nat L) 0) = L.
Proof. facts. unfold size. rewrite length_replicate. subst L. lia. Qed.

(** The output-gene loop. *)
Lemma output_gene_bounds_spec (lb ub : list Z) :
  size lb = L → size ub = L →
  ∃ lb' ub',
    for_each (seqZ B m) (output_gene_bounds (X := X) n r c l) (lb, ub)
      = Normal (lb', ub') ∧
    size lb' = L ∧ size ub' = L ∧
    (∀ q, B ≤ q < L → at_index ub' q = Some (n + r * c - 1)) ∧
    (∀ g, 0 ≤ g < B → at_index ub' g = at_index ub g) ∧
    (l ≤ c → ∀ q, B ≤ q < L → at_index lb' q = Some (n + r * (c - l))) ∧
    (∀ g, 0 ≤ g → g < B ∨ c < l → at_index lb' g = at_index lb g).
Proof.
  intros Hlb Hub. facts.
  set (I := λ (i : Z) (st : list Z * list Z),
    size st.1 = L ∧ size st.2 = L ∧
    (∀ q, B ≤ q < i → at_index st.2 q = Some (n + r * c - 1)) ∧
    (∀ g, 0 ≤ g < B → at_index st.2 g = at_index ub g) ∧
    (l ≤ c → ∀ q, B ≤ q < i → at_index st.1 q = Some (n + r * (c - l))) ∧
    (∀ g, 0 ≤ g → g < B ∨ c < l → at_index st.1 g = at_index lb g)).
  destruct (for_range_invariant (X := X) I B m
              (output_gene_bounds n r c l) (lb, ub))
    as ([lb' ub'] & Hrun & R1 & R2 & R3 & R4 & R5 & R6).
  - lia.
  - unfold I. simpl. split; [done|]. split; [done|].
    split; [intros; lia|]. split; [done|]. split; [intros; lia|done].
  - intros i [lb1 ub1] Hi (I1 & I2 & I3 & I4 & I5 & I6). simpl in *.
    unfold output_gene_bounds.
    assert (0 ≤ i < L) as HiL by (subst L; lia).
    rewrite !assign_Normal by (rewrite ?I1, ?I2; lia). simpl.
    rewrite output_ub_small.
    case_bool_decide as Hlc.
    + simpl. rewrite output_lb_small by done.
      eexists. split; [done|]. unfold I. simpl. rewrite !size_insert.
      split; [done|]. split; [done|]. split; [|split; [|split]].
      * intros q Hq. destruct (decide (q = i)) as [->|].
        -- apply at_index_insert_eq. lia.
        -- rewrite at_index_insert_ne by lia. apply I3. lia.
      * intros g Hg. rewrite at_index_insert_ne by lia. by apply I4.
      * intros _ q Hq. destruct (decide (q = i)) as [->|].
        -- apply at_index_insert_eq. lia.
        -- rewrite at_index_insert_ne by lia. apply I5; [done|lia].
      * intros g Hg Hor. rewrite at_index_insert_ne by lia. by apply I6.
    + eexists. split; [done|]. unfold I. simpl. rewrite !size_insert.
      split; [done|]. split; [done|]. split; [|split; [|split]].
      * intros q Hq. destruct (decide (q = i)) as [->|].
        -- apply at_index_insert_eq. lia.
        -- rewrite at_index_insert_ne by lia. apply I3. lia.
      * intros g Hg. rewrite at_index_insert_ne by lia. by apply I4.
      * intros Hle. lia.
      * done.
  - exists lb', ub'. simpl in *. fold L in R3, R5. done.
Qed.

(** The connection-gene loops. [J D st] is their invariant when the
    genes [(i, j, k)] of [D] have been written, starting from [lb0],
    [ub0]. *)
Variables lb0 ub0 : list Z.

Let in_grid (i j k : Z) : Prop := 0 ≤ i < c ∧ 0 ≤ j < r ∧ 0 ≤ k < arity.
Let idx (i j k : Z) : Z := (i * r + j) * w + k + 1.

Let J (D : Z → Z → Z → Prop) (st : list Z * list Z) : Prop :=
  size st.1 = L ∧ size st.2 = L ∧
  (∀ i j k, in_grid i j k → D i j k →
     at_index st.2 (idx i j k) = Some (n + i * r - 1) ∧
     (l ≤ i → at_index st.1 (idx i j k) = Some (n + r * (i - l)))) ∧
  (∀ g, 0 ≤ g → (∀ i j k, in_grid i j k → g ≠ idx i j k) →
     at_index st.1 g = at_index lb0 g ∧ at_index st.2 g = at_index ub0 g) ∧
  (∀ i j k, in_grid i j k → i < l →
     at_index st.1 (idx i j k) = at_index lb0 (idx i j k)).

Lemma idx_inj i j k i' j' k' :
  in_grid i j k → in_grid i' j' k' → idx i j k = idx i' j' k' →
  i = i' ∧ j = j' ∧ k = k'.
Proof.
  intros (Hi & Hj & Hk) (Hi' & Hj' & Hk') Heq. unfold idx in Heq.
  destruct (mixed_radix_inj w (i * r + j) (k + 1) (i' * r + j') (k' + 1))
    as [Hp Hk1]; [subst w; lia|subst w; lia|lia|].
  destruct (mixed_radix_inj r i j i' j') as [? ?]; [lia|lia|lia|].
  lia.
Qed.

Lemma J_mono (D D' : Z → Z → Z → Prop) st :
  (∀ i j k, in_grid i j k → D' i j k → D i j k) → J D st → J D' st.
Proof.
  intros HD (J1 & J2 & J3 & J4 & J5).
  split; [done|]. split; [done|]. split; [|done].
  intros i j k Hg HD'. apply J3; [done|]. by apply HD.
Qed.

Lemma connection_gene_bounds_step D i j k st :
  in_grid i j k → J D st →
  ∃ st', connection_gene_bounds (X := X) n r l arity i j k st = Normal st' ∧
    J (λ i' j' k', D i' j' k' ∨ (i' = i ∧ j' = j ∧ k' = k)) st'.
Proof.
  intros Hg (J1 & J2 & J3 & J4 & J5). destruct st as [lb ub]. simpl in *.
  pose proof Hg as (Hi & Hj & Hk).
  pose proof (gene_index_range i j k Hi Hj Hk) as Hrange. fold (idx i j k) in Hrange.
  facts. unfold connection_gene_bounds.
  rewrite gene_index_small by done. fold (idx i j k).
  rewrite connection_ub_small by done.
  assert (0 ≤ idx i j k < L) as HL by (subst L; lia).
  rewrite !assign_Normal by (rewrite ?J1, ?J2; lia). simpl.
  assert (∀ i' j' k', in_grid i' j' k' → idx i' j' k' ≠ idx i j k →
            0 ≤ idx i' j' k') as Hnn.
  { intros i' j' k' (Hi' & Hj' & Hk') _.
    pose proof (gene_index_range i' j' k' Hi' Hj' Hk'). unfold idx. lia. }
  case_bool_decide as Hli; simpl.
  - rewrite connection_lb_small by done.
    eexists. split; [done|]. unfold J. simpl. rewrite !size_insert.
    split; [done|]. split; [done|]. split; [|split].
    + intros i' j' k' Hg' HD.
      destruct (decide (idx i' j' k' = idx i j k)) as [Heq|Hne].
      * destruct (idx_inj _ _ _ _ _ _ Hg' Hg Heq) as (-> & -> & ->).
        split; [|intros _]; apply at_index_insert_eq; lia.
      * rewrite !at_index_insert_ne by (try done; try lia; by apply Hnn).
        apply J3; [done|]. destruct HD as [HD|(-> & -> & ->)]; done.
    + intros g Hg0 Hne.
      rewrite !at_index_insert_ne by (try done; try lia; by apply Hne).
      by apply J4.
    + intros i' j' k' Hg' Hlt.
      rewrite at_index_insert_ne; [by apply J5|lia| |].
      * destruct Hg' as (Hi' & Hj' & Hk').
        pose proof (gene_index_range i' j' k' Hi' Hj' Hk'). unfold idx. lia.
      * intros Heq. destruct (idx_inj _ _ _ _ _ _ Hg' Hg Heq) as (-> & _).
        lia.
  - eexists. split; [done|]. unfold J. simpl. rewrite !size_insert.
    split; [done|]. split; [done|]. split; [|split].
    + intros i' j' k' Hg' HD.
      destruct (decide (idx i' j' k' = idx i j k)) as [Heq|Hne].
      * destruct (idx_inj _ _ _ _ _ _ Hg' Hg Heq) as (-> & -> & ->).
        split; [|intros; lia]. apply at_index_insert_eq; lia.
      * rewrite !at_index_insert_ne by (try done; try lia; by apply Hnn).
        apply J3; [done|]. destruct HD as [HD|(-> & -> & ->)]; done.
    + intros g Hg0 Hne.
      rewrite !at_index_insert_ne by (try done; try lia; by apply Hne).
      by apply J4.
    + done.
Qed.

Lemma connection_row_spec D i j st :
  0 ≤ i < c → 0 ≤ j < r → J D st →
  ∃ st', for_each (seqZ 0 arity)
           (λ k, connection_gene_bounds (X := X) n r l arity i j k) st
           = Normal st' ∧
    J (λ i' j' k', D i' j' k' ∨ (i' = i ∧ j' = j)) st'.
Proof.
  intros Hi Hj HJ. facts.
  destruct (for_range_invariant (X := X)
    (λ k0, J (λ i' j' k', D i' j' k' ∨ (i' = i ∧ j' = j ∧ k' < k0)))
    0 arity (λ k, connection_gene_bounds n r l arity i j k) st)
    as (st' & Hrun & Hst'); [lia| | |].
  - eapply J_mono; [|done]. intros i' j' k' (_ & _ & Hk') [?|(_ & _ & ?)]; [done|lia].
  - intros k t Hk Ht.
    destruct (connection_gene_bounds_step
                (λ i' j' k', D i' j' k' ∨ (i' = i ∧ j' = j ∧ k' < k)) i j k t)
      as (t' & Hr & Ht');
      [by unfold in_grid|done|].
    exists t'. split; [done|]. eapply J_mono; [|done]. simpl.
    intros i' j' k' _ [?|(-> & -> & Hlt)]; [left; by left|].
    destruct (decide (k' = k)) as [->|]; [by right|]. left. right.
    repeat split; lia.
  - exists st'. split; [done|]. eapply J_mono; [|done]. simpl.
    intros i' j' k' (_ & _ & Hk') [?|(-> & ->)]; [by left|]. right.
    repeat split; lia.
Qed.

Lemma connection_column_spec D i st :
  0 ≤ i < c → J D st →
  ∃ st', for_each (seqZ 0 r) (λ j, for_each (seqZ 0 arity)
           (λ k, connection_gene_bounds (X := X) n r l arity i j k)) st
           = Normal st' ∧
    J (λ i' j' k', D i' j' k' ∨ i' = i) st'.
Proof.
  intros Hi HJ. facts.
  destruct (for_range_invariant (X := X)
    (λ j0, J (λ i' j' k', D i' j' k' ∨ (i' = i ∧ j' < j0)))
    0 r (λ j, for_each (seqZ 0 arity)
           (λ k, connection_gene_bounds n r l arity i j k)) st)
    as (st' & Hrun & Hst'); [lia| | |].
  - eapply J_mono; [|done]. intros i' j' k' (_ & Hj' & _) [?|(_ & ?)]; [done|lia].
  - intros j t Hj Ht.
    destruct (connection_row_spec
                (λ i' j' k', D i' j' k' ∨ (i' = i ∧ j' < j)) i j t)
      as (t' & Hr & Ht'); [done|lia|done|].
    exists t'. split; [done|]. eapply J_mono; [|done]. simpl.
    intros i' j' k' _ [?|(-> & Hlt)]; [left; by left|].
    destruct (decide (j' = j)) as [->|]; [by right|]. left. right.
    split; lia.
  - exists st'. split; [done|]. eapply J_mono; [|done]. simpl.
    intros i' j' k' (_ & Hj' & _) [?|Heq]; [by left|]. right. split; lia.
Qed.

Lemma connection_gene_bounds_spec st :
  J (λ _ _ _, False) st →
  ∃ st', for_each (seqZ 0 c) (λ i, for_each (seqZ 0 r) (λ j,
           for_each (seqZ 0 arity)
             (λ k, connection_gene_bounds (X := X) n r l arity i j k))) st
           = Normal st' ∧
    J (λ _ _ _, True) st'.
Proof.
  intros HJ. facts.
  destruct (for_range_invariant (X := X)
    (λ i0, J (λ i' j' k', i' < i0))
    0 c (λ i, for_each (seqZ 0 r) (λ j, for_each (seqZ 0 arity)
           (λ k, connection_gene_bounds n r l arity i j k))) st)
    as (st' & Hrun & Hst'); [lia| | |].
  - eapply J_mono; [|done]. intros i' j' k' (Hi' & _ & _) ?. lia.
  - intros i t Hi Ht.
    destruct (connection_column_spec (λ i' j' k', i' < i) i t)
      as (t' & Hr & Ht'); [lia|done|].
    exists t'. split; [done|]. eapply J_mono; [|done]. simpl.
    intros i' j' k' _ Hlt.
    destruct (decide (i' = i)) as [->|]; [by right|]. left. lia.
  - exists st'. split; [done|]. eapply J_mono; [|done]. simpl.
    intros i' j' k' (Hi' & _ & _) _. lia.
Qed.
End GeneBounds.

(** The constructor's three loops build the bounds of the specification,
    provided the fuel covers the [r * c] iterations of the function-gene
    loop. *)
Lemma gene_bounds_spec {X} (fuel : nat) (n m r c l arity fsize : Z) :
  unsigned_topology n m r c l arity →
  valid_topology n m r c l arity fsize →
  fits n m r c arity →
  (Z.to_nat (r * c) ≤ fuel)%nat →
  ∃ lb ub, gene_bounds (X := X) fuel n m r c l arity fsize = Normal (lb, ub) ∧
    bounds_spec n m r c l arity fsize lb ub.
Proof.
  intros Hu Hv Hf Hfuel.
  pose proof (topology_facts n m r c l arity fsize Hu Hv Hf)
    as (?&?&?&?&?&?&?&?&?&?&?&?&?&?&HB&?).
  set (w := arity + 1) in *. set (B := w * (r * c)) in *. set (L := B + m) in *.
  unfold gene_bounds.
  rewrite (length_small n m r c l arity fsize Hu Hv Hf).
  rewrite (genes_small n m r c l arity fsize Hu Hv Hf).
  rewrite (width_small n m r c l arity fsize Hu Hv Hf).
  fold w B L.
  destruct (function_gene_bounds_spec (X := X) n m r c l arity fsize Hu Hv Hf
              fuel 0 (wrap (fsize - 1)) (replicate (Z.to_nat L) 0))
    as (ub1 & Hrun1 & Hsz1 & Hset1 & Hkeep1);
    [lia|lia|apply (size_zeros n m r c l arity fsize Hu Hv Hf)|].
  fold w B L in Hrun1, Hsz1, Hset1, Hkeep1. rewrite Z.mul_0_l in Hrun1.
  rewrite Hrun1. simpl. rewrite Hsz1.
  replace (L - B) with m by (subst L; lia).
  destruct (output_gene_bounds_spec (X := X) n m r c l arity fsize Hu Hv Hf
              (replicate (Z.to_nat L) 0) ub1)
    as (lb2 & ub2 & Hrun2 & Hszl2 & Hszu2 & Hou & Hku & Hol & Hkl);
    [apply (size_zeros n m r c l arity fsize Hu Hv Hf)|done|].
  fold w B L in Hrun2, Hszl2, Hszu2, Hou, Hku, Hol, Hkl.
  rewrite Hrun2. simpl.
  destruct (connection_gene_bounds_spec (X := X) n m r c l arity fsize
              Hu Hv Hf lb2 ub2 (lb2, ub2))
    as ([lb ub] & Hrun3 & Hszl & Hszu & Hset & Hkeep & Hzero).
  { simpl. split; [done|]. split; [done|]. split; [intros; done|].
    split; intros; done. }
  fold w B L in Hrun3, Hszl, Hszu, Hset, Hkeep, Hzero. simpl in *.
  exists lb, ub. split; [done|].
  assert (∀ i j k, 0 ≤ i < c → 0 ≤ j < r → 0 ≤ k < arity →
            0 ≤ (i * r + j) * w + k + 1 < B) as Hidx.
  { intros. by apply (gene_index_range 0). }
  assert ((arity + 1) * r * c = B) as HB' by done.
  split.
  - rewrite HB'. done.
  - rewrite HB'. done.
  - intros p Hp. fold w.
    assert (0 ≤ p * w < B) as Hpw.
    { pose proof (grid_gene_range w (r * c) p 0). subst B. lia. }
    destruct (Hkeep (p * w)) as [Hl' Hu']; [lia| |].
    { intros i j k (Hi & Hj & Hk) Heq.
      destruct (mixed_radix_inj w p 0 (i * r + j) (k + 1)); subst w; lia. }
    rewrite Hl', Hu'. split.
    + rewrite Hkl by lia.
      apply at_index_zeros. subst L. lia.
    + rewrite Hku by lia. apply Hset1. lia.
  - intros i j k Hi Hj Hk. fold w.
    destruct (Hset i j k) as [Hub Hlb]; [done|done|].
    split; [|done].
    case_bool_decide as Hli; [by apply Hlb|].
    rewrite Hzero by (done || lia).
    pose proof (Hidx i j k Hi Hj Hk).
    rewrite Hkl by lia.
    apply at_index_zeros. subst L. lia.
  - intros q Hq. rewrite HB'.
    destruct (Hkeep (B + q)) as [Hl' Hu']; [lia| |].
    { intros i j k (Hi & Hj & Hk) Heq. pose proof (Hidx i j k Hi Hj Hk). lia. }
    rewrite Hl', Hu'. split.
    + case_bool_decide as Hlc.
      * apply Hol; [done|subst L; lia].
      * rewrite Hkl by lia.
        apply at_index_zeros. subst L. lia.
    + apply Hou. subst L. lia.
Qed.

Lemma function_gene_bounds_fuel {X} (fuel fuel' : nat) i bound step fmax ub v :
  function_gene_bounds (X := X) fuel i bound step fmax ub = Normal v →
  (fuel ≤ fuel')%nat →
  function_gene_bounds (X := X) fuel' i bound step fmax ub = Normal v.
Proof.
  revert fuel' i ub. induction fuel as [|fuel IH]; intros fuel' i ub Hrun Hle.
  - simpl in Hrun. destruct fuel'; simpl; by case_bool_decide.
  - destruct fuel' as [|fuel']; [lia|]. simpl in *.
    case_bool_decide; [|done].
    destruct (assign ub i fmax) as [ub'| | | |]; simpl in *; try done.
    apply IH; [done|lia].
Qed.

Lemma gene_bounds_fuel {X} (fuel fuel' : nat) n m r c l arity fsize lbub :
  gene_bounds (X := X) fuel n m r c l arity fsize = Normal lbub →
  (fuel ≤ fuel')%nat →
  gene_bounds (X := X) fuel' n m r c l arity fsize = Normal lbub.
Proof.
  unfold gene_bounds. intros Hrun Hle.
  apply outcome_bind_Normal in Hrun as (ub1 & Hrun1 & Hrun).
  by rewrite (function_gene_bounds_fuel _ _ _ _ _ _ _ _ Hrun1 Hle).
Qed.

(** ** Chromosomes within the bounds *)

Lemma within_bounds_spec {X} (lb ub x todo : list Z) (i : Z) :
  0 ≤ i → i + size todo ≤ size lb → i + size todo ≤ size ub →
  ∃ b, within_bounds (X := X) lb ub x i todo = Normal b ∧
    (b = true ↔ ∀ k xi, 0 ≤ k → at_index todo k = Some xi →
       ∃ lo hi, at_index lb (i + k) = Some lo ∧ at_index ub (i + k) = Some hi ∧
                lo ≤ xi ≤ hi).
Proof.
  revert i. induction todo as [|xi todo IH]; intros i Hi Hlb Hub.
  - exists true. split; [done|]. split; [|done].
    intros _ k xi _ Hk. apply at_index_Some_range in Hk.
    unfold size in Hk. simpl in Hk. lia.
  - assert (size (xi :: todo) = 1 + size todo) as Hsz
      by (unfold size; simpl; lia).
    rewrite Hsz in *. pose proof (size_nonneg todo).
    destruct (at_index_is_Some ub i) as [u Hu]; [lia|].
    destruct (at_index_is_Some lb i) as [lo Hl]; [lia|].
    simpl. rewrite (subscript_Normal _ _ _ Hu). simpl.
    assert (at_index (xi :: todo) 0 = Some xi) as H0 by done.
    case_bool_decide as Hux.
    { exists false. split; [done|]. split; [done|]. intros Hall.
      destruct (Hall 0 xi) as (lo' & hi' & Hl' & Hu' & ?); [lia|done|].
      rewrite Z.add_0_r in *. simplify_eq. lia. }
    rewrite (subscript_Normal _ _ _ Hl). simpl.
    case_bool_decide as Hxl.
    { exists false. split; [done|]. split; [done|]. intros Hall.
      destruct (Hall 0 xi) as (lo' & hi' & Hl' & Hu' & ?); [lia|done|].
      rewrite Z.add_0_r in *. simplify_eq. lia. }
    destruct (IH (i + 1)) as (b & Hrun & Hb); [lia|lia|lia|].
    exists b. split; [done|]. rewrite Hb. split.
    + intros Hall k xk Hk Hxk. destruct (decide (k = 0)) as [->|].
      * simplify_eq. exists lo, u. rewrite Z.add_0_r. repeat split; try done; lia.
      * destruct (Hall (k - 1) xk) as (lo' & hi' & ? & ? & ?); [lia| |].
        { rewrite at_index_lookup in * by lia.
          replace (Z.to_nat k) with (S (Z.to_nat (k - 1))) in Hxk by lia. done. }
        exists lo', hi'. by replace (i + k) with (i + 1 + (k - 1)) by lia.
    + intros Hall k xk Hk Hxk.
      destruct (Hall (k + 1) xk) as (lo' & hi' & ? & ? & ?); [lia| |].
      { rewrite at_index_lookup in * by lia.
        replace (Z.to_nat (k + 1)) with (S (Z.to_nat k)) by lia. done. }
      exists lo', hi'. by replace (i + 1 + k) with (i + (k + 1)) by lia.
Qed.

Section Validity.
Context {E : Type} `{!RandomEngine E} {U : Type} `{!Inhabited U}.
Implicit Type e : @expression E U.

(** [is_valid] decides [genes_within] on any instance whose two bound
    vectors have the same length. *)
Lemma is_valid_spec {X} e (x : list Z) :
  size (m_ub e) = size (m_lb e) →
  ∃ b, is_valid (X := X) e x = Normal b ∧
    (b = true ↔ genes_within (m_lb e) (m_ub e) x).
Proof.
  intros Hsz. unfold is_valid, genes_within. case_bool_decide as Hne.
  - exists false. split; [done|]. split; [done|]. intros [? _]. done.
  - destruct (within_bounds_spec (X := X) (m_lb e) (m_ub e) x x 0)
      as (b & Hrun & Hb); [lia|lia|lia|].
    exists b. split; [done|]. rewrite Hb. split.
    + intros Hall. split; [done|]. intros g xi Hg.
      pose proof (at_index_Some_range _ _ _ Hg).
      destruct (Hall g xi) as (lo & hi & ?); [lia|done|]. by exists lo, hi.
    + intros [_ Hall] k xi Hk Hxk. destruct (Hall k xi Hxk) as (lo & hi & ?).
      by exists lo, hi.
Qed.

Lemma satisfies_bounds_within e x :
  size (m_ub e) = size (m_lb e) →
  satisfies_bounds e x ↔ genes_within (m_lb e) (m_ub e) x.
Proof.
  intros Hsz. unfold satisfies_bounds.
  destruct (is_valid_spec (X := exn) e x Hsz) as (b & Hrun & Hb).
  rewrite Hrun, <- Hb. split; [by intros [= ->]|by intros ->].
Qed.

(** The bounds of a well-formed instance, in closed form. *)
Lemma well_formed_bounds e :
  well_formed e →
  bounds_spec (m_n e) (m_m e) (m_r e) (m_c e) (m_l e) (m_arity e)
    (size (m_f e)) (m_lb e) (m_ub e).
Proof.
  intros [Hu Hv Hf [fuel Hb]].
  destruct (gene_bounds_spec (X := exn)
              (Nat.max fuel (Z.to_nat (m_r e * m_c e)))
              _ _ _ _ _ _ _ Hu Hv Hf) as (lb & ub & Hrun & Hspec); [lia|].
  rewrite (gene_bounds_fuel _ _ _ _ _ _ _ _ _ _ Hb) in Hrun by lia.
  by simplify_eq.
Qed.
End Validity.

(** ** Reachability *)

Section Reach.
Variables (n arity : Z) (x : list Z).

Lemma reach_from_mono (S T : list Z) a :
  (∀ v, v ∈ S → v ∈ T) → reach_from n arity x S a → reach_from n arity x T a.
Proof.
  intros Hsub. induction 1 as [v Hv|u v _ IH He].
  - apply reach_here. by apply Hsub.
  - by eapply reach_step.
Qed.

(** One layer of the backward search: [T] holds exactly the targets of the
    connection genes of the internal nodes of [S]. *)
Lemma reach_from_layer (S T : list Z) a :
  (∀ v, v ∈ T ↔ ∃ u, u ∈ S ∧ edge n arity x u v) →
  reach_from n arity x S a ↔ a ∈ S ∨ reach_from n arity x T a.
Proof.
  intros HT. split.
  - induction 1 as [v Hv|u v _ IH He]; [by left|]. right.
    destruct IH as [Hu|Hu].
    + apply reach_here. apply HT. by exists u.
    + by eapply reach_step.
  - intros [Ha|Ha]; [by apply reach_here|].
    induction Ha as [v Hv|u v _ IH He].
    + apply HT in Hv as (u & Hu & He).
      eapply reach_step; [|done]. by apply reach_here.
    + by eapply reach_step.
Qed.

Lemma reach_from_no_edge (S : list Z) a :
  (∀ u v, u ∈ S → ¬ edge n arity x u v) →
  reach_from n arity x S a ↔ a ∈ S.
Proof.
  intros Hno. split; [|apply reach_here].
  induction 1 as [v Hv|u v _ IH He]; [done|]. by destruct (Hno u v).
Qed.
End Reach.

(** Reading a range of genes into a vector. *)
Lemma for_each_push {X} (l : list Z) (rd : Z → option Z) (acc : list Z) :
  (∀ i, i ∈ l → is_Some (rd i)) →
  for_each (X := X) l
    (λ i cur, g ← match rd i with Some a => Normal a | None => Undefined end;
              Normal (cur ++ [g])) acc
  = Normal (acc ++ omap rd l).
Proof.
  revert acc. induction l as [|i l IH]; intros acc Hall; simpl.
  - by rewrite app_nil_r.
  - destruct (Hall i) as [a Ha]; [by left|]. rewrite Ha. simpl.
    rewrite IH by (intros; apply Hall; by right). by rewrite <- app_assoc.
Qed.

(** A vector of [len] entries assigned from the front. *)
Lemma for_each_fill {X} (len : Z) (rd : Z → option Z) (v0 : list Z) :
  0 ≤ len → size v0 = len →
  (∀ i, 0 ≤ i < len → is_Some (rd i)) →
  for_each (X := X) (seqZ 0 len)
    (λ i cur, g ← match rd i with Some a => Normal a | None => Undefined end;
              assign cur i g) v0
  = Normal (omap rd (seqZ 0 len)).
Proof.
  intros Hlen Hsz Hall.
  destruct (for_range_invariant (X := X)
    (λ i cur, size (omap rd (seqZ 0 i)) = i ∧
              cur = omap rd (seqZ 0 i) ++ drop (Z.to_nat i) v0)
    0 len
    (λ i cur, g ← match rd i with Some a => Normal a | None => Undefined end;
              assign cur i g) v0)
    as (res & Hrun & Hsize & Hres); [done| | |].
  - rewrite seqZ_nil by lia. simpl. split; [done|]. by rewrite drop_0.
  - intros i cur Hi [Hs ->]. destruct (Hall i) as [a Ha]; [lia|].
    rewrite Ha. simpl. rewrite assign_fill by lia.
    eexists. split; [done|].
    rewrite (seqZ_app 0 i 1), omap_app by lia.
    change (seqZ (0 + i) 1) with [i]. cbn [omap list_omap]. rewrite Ha.
    split; [|done]. rewrite size_app, Hs. unfold size. simpl. lia.
  - rewrite Hrun. f_equal. rewrite Hres, Z.add_0_l.
    rewrite drop_ge by (unfold size in Hsz; lia). by rewrite app_nil_r.
Qed.

Lemma omap_ext_in {A B} (f g : A → option B) (l : list A) :
  (∀ a, a ∈ l → f a = g a) → omap f l = omap g l.
Proof.
  induction l as [|a l IH]; intros Hfg; [done|].
  change (omap f (a :: l))
    with (match f a with Some y => y :: omap f l | None => omap f l end).
  change (omap g (a :: l))
    with (match g a with Some y => y :: omap g l | None => omap g l end).
  rewrite Hfg by left. rewrite IH; [done|]. intros. apply Hfg. by right.
Qed.

(** ** The active set of a chromosome within the bounds *)

Section ActiveSet.
Context {X : Type}.
Variables n m r c l arity fsize : Z.
Variable x : list Z.
Hypothesis Hunsigned : unsigned_topology n m r c l arity.
Hypothesis Hvalid : valid_topology n m r c l arity fsize.
Hypothesis Hfits : fits n m r c arity.

Let w := arity + 1.
Let B := w * (r * c).

(** What the bounds give: every connection gene of an internal node holds
    a smaller node id, every output gene holds a node id. *)
Hypothesis Hconnection : ∀ u i, n ≤ u < n + r * c → 1 ≤ i ≤ arity →
  ∃ v, at_index x ((u - n) * w + i) = Some v ∧ 0 ≤ v < u.
Hypothesis Houtput : ∀ q, 0 ≤ q < m →
  ∃ v, at_index x (B + q) = Some v ∧ 0 ≤ v < n + r * c.

Local Ltac facts :=
  pose proof (topology_facts n m r c l arity fsize Hunsigned Hvalid Hfits) as
    (?&?&?&?&?&?&?&?&?&?&?&?&?&?&?&?); rewrite ?modulus_eq in *.

Lemma connection_index_small u i :
  n ≤ u < n + r * c → 0 ≤ i ≤ arity →
  (u ⊖ n) ⊗ (arity ⊕ 1) ⊕ i = (u - n) * w + i.
Proof.
  intros Hu Hi. facts.
  rewrite (width_small n m r c l arity fsize) by done. fold w.
  pose proof (grid_gene_range w (r * c) (u - n) i).
  pose proof (grid_gene_range w (r * c) (u - n) 0).
  assert (u ⊖ n = u - n) as ->
    by (apply usub_small; rewrite modulus_eq; lia).
  assert ((u - n) ⊗ w = (u - n) * w) as ->
    by (apply umul_small; rewrite modulus_eq; subst B w; lia).
  apply uadd_small. rewrite modulus_eq. subst B w. lia.
Qed.

Lemma output_index_small q :
  0 ≤ q < m → (arity ⊕ 1) ⊗ r ⊗ c ⊕ q = B + q.
Proof.
  intros Hq. facts. rewrite (genes_small n m r c l arity fsize) by done.
  fold w B. apply uadd_small. rewrite modulus_eq. subst B w. lia.
Qed.

Lemma output_index_small' q :
  0 ≤ q < m → r ⊗ c ⊗ (arity ⊕ 1) ⊕ q = B + q.
Proof.
  intros Hq. facts. rewrite (genes_small' n m r c l arity fsize) by done.
  fold w B. apply uadd_small. rewrite modulus_eq. subst B w. lia.
Qed.

Lemma arity_not_max : arity ≠ modulus - 1.
Proof. facts. pose proof (mul_ge_self w r). subst w. lia. Qed.

Lemma edge_smaller u v :
  n ≤ u < n + r * c → edge n arity x u v → 0 ≤ v < u.
Proof.
  intros Hu (_ & i & Hi & Hv). fold w in Hv.
  destruct (Hconnection u i Hu Hi) as (v' & Hv' & ?). by simplify_eq.
Qed.

(** The seed of the search. *)
Lemma seed_spec :
  for_each (X := X) (seqZ 0 m)
    (λ i cur, g ← subscript x ((arity ⊕ 1) ⊗ r ⊗ c ⊕ i); assign cur i g)
    (replicate (Z.to_nat m) 0)
  = Normal (output_targets m r c arity x).
Proof.
  facts. unfold subscript.
  rewrite (for_each_fill (X := X) m
             (λ i, at_index x ((arity ⊕ 1) ⊗ r ⊗ c ⊕ i))).
  - f_equal. unfold output_targets. apply omap_ext_in.
    intros q Hq%elem_of_seqZ. rewrite output_index_small by lia.
    f_equal. subst B w. lia.
  - lia.
  - unfold size. rewrite length_replicate. lia.
  - intros q Hq. rewrite output_index_small by lia.
    destruct (Houtput q) as (v & -> & _); [lia|]. by eexists.
Qed.

Lemma elem_of_output_targets v :
  v ∈ output_targets m r c arity x ↔
  ∃ q, 0 ≤ q < m ∧ at_index x (B + q) = Some v.
Proof.
  unfold output_targets. rewrite list_elem_of_omap.
  assert ((arity + 1) * r * c = B) as -> by (subst B w; lia).
  split.
  - intros (q & Hq%elem_of_seqZ & Hv). exists q. split; [lia|done].
  - intros (q & Hq & Hv). exists q. split; [|done]. apply elem_of_seqZ. lia.
Qed.

Lemma output_targets_range v :
  v ∈ output_targets m r c arity x → 0 ≤ v < n + r * c.
Proof.
  intros (q & Hq & Hv)%elem_of_output_targets.
  destruct (Houtput q Hq) as (v' & Hv' & ?). by simplify_eq.
Qed.

(** One node of the frontier. *)
Lemma scan_node_spec v nodes next :
  0 ≤ v < n + r * c →
  ∃ nodes' next',
    scan_node (X := X) n arity x v (nodes, next) = Normal (nodes', next') ∧
    (∀ a, a ∈ nodes' ↔ a ∈ nodes ∨ (a = v ∧ v < n)) ∧
    (∀ a, a ∈ next' ↔ a ∈ next ∨ edge n arity x v a).
Proof.
  intros Hv. unfold scan_node. case_bool_decide as Hin.
  - unfold subscript.
    rewrite (for_each_push (X := X) (seqZ 1 arity)
               (λ i, at_index x ((v ⊖ n) ⊗ (arity ⊕ 1) ⊕ i)) next).
    + simpl. rewrite bool_decide_eq_false_2 by apply arity_not_max.
      eexists _, _. split; [done|]. split.
      * intros a. split; [by left|]. intros [?|[_ ?]]; [done|lia].
      * intros a. rewrite elem_of_app, list_elem_of_omap. unfold edge.
        fold w. split.
        -- intros [?|(i & Hi%elem_of_seqZ & Ha)]; [by left|]. right.
           rewrite connection_index_small in Ha by lia.
           split; [done|]. exists i. split; [lia|done].
        -- intros [?|(_ & i & Hi & Ha)]; [by left|]. right. exists i.
           rewrite connection_index_small by lia.
           split; [|done]. apply elem_of_seqZ. lia.
    + intros i Hi%elem_of_seqZ. rewrite connection_index_small by lia.
      destruct (Hconnection v i) as (a & -> & _); [lia|lia|]. by eexists.
  - eexists _, _. split; [done|]. split.
    + intros a. rewrite elem_of_app, list_elem_of_singleton.
      split; intros [?|?]; [by left|right; split; [done|lia]|by left|right; tauto].
    + intros a. split; [by left|]. intros [?|[? _]]; [done|lia].
Qed.

(** One pass over the frontier. *)
Lemma scan_spec current nodes next :
  (∀ v, v ∈ current → 0 ≤ v < n + r * c) →
  ∃ nodes' next',
    for_each (X := X) current (scan_node n arity x) (nodes, next)
      = Normal (nodes', next') ∧
    (∀ a, a ∈ nodes' ↔ a ∈ nodes ∨ (a ∈ current ∧ a < n)) ∧
    (∀ a, a ∈ next' ↔ a ∈ next ∨ ∃ u, u ∈ current ∧ edge n arity x u a).
Proof.
  intros Hrange.
  destruct (for_each_invariant (X := X)
    (λ done st,
       (∀ a, a ∈ st.1 ↔ a ∈ nodes ∨ (a ∈ done ∧ a < n)) ∧
       (∀ a, a ∈ st.2 ↔ a ∈ next ∨ ∃ u, u ∈ done ∧ edge n arity x u a))
    current (scan_node n arity x) (nodes, next))
    as ([nodes' next'] & Hrun & Hn & Hx).
  - simpl. split; intros a; (split; [by left|]).
    + intros [?|[Ha _]]; [done|]. by apply elem_of_nil in Ha.
    + intros [?|(u & Hu & _)]; [done|]. by apply elem_of_nil in Hu.
  - intros done v rest [nodes1 next1] Hcur [Hn Hx]. simpl in *.
    destruct (scan_node_spec v nodes1 next1) as (nodes2 & next2 & Hrun & Hn2 & Hx2).
    { apply Hrange. rewrite Hcur. apply elem_of_app. right. by left. }
    exists (nodes2, next2). split; [done|]. simpl. split; intros a.
    + rewrite Hn2, Hn, elem_of_app, list_elem_of_singleton.
      split; [intros [[?|[? ?]]|[-> ?]]|intros [?|[[?| ->] ?]]]; tauto.
    + rewrite Hx2, Hx. split.
      * intros [[?|(u & Hu & He)]|He]; [by left| |].
        -- right. exists u. split; [|done]. apply elem_of_app. by left.
        -- right. exists v. split; [|done]. apply elem_of_app. right. by left.
      * intros [?|(u & Hu & He)]; [left; by left|].
        apply elem_of_app in Hu as [Hu|Hu%list_elem_of_singleton].
        -- left. right. by exists u.
        -- subst u. by right.
  - exists nodes', next'. done.
Qed.

(** The [do ... while] loop terminates and collects the nodes reachable
    from its first frontier: every pass lowers the largest node id of the
    frontier. *)
Lemma active_loop_spec (fuel : nat) (k : Z) (current nodes : list Z) :
  (∀ v, v ∈ current → 0 ≤ v < n + k) → 0 ≤ k ≤ r * c →
  (Z.to_nat k < fuel)%nat →
  ∃ nodes', active_loop (X := X) fuel n arity x current nodes = Normal nodes' ∧
    ∀ a, a ∈ nodes' ↔ a ∈ nodes ∨ reach_from n arity x current a.
Proof.
  revert k current nodes.
  induction fuel as [|fuel IH]; intros k current nodes Hrange Hk Hfuel; [lia|].
  simpl.
  destruct (scan_spec current (nodes ++ current) [])
    as (nodes1 & next & Hrun & Hn & Hx); [intros v Hv; specialize (Hrange v Hv); lia|].
  rewrite Hrun. simpl.
  assert (∀ a, a ∈ unique (sort next) ↔
               ∃ u, u ∈ current ∧ edge n arity x u a) as Hlayer.
  { intros a. rewrite elem_of_unique_sort, Hx. split; [|by right].
    intros [Ha|?]; [|done]. by apply elem_of_nil in Ha. }
  assert (∀ a, a ∈ nodes1 ↔ a ∈ nodes ∨ a ∈ current) as Hn1.
  { intros a. rewrite Hn, elem_of_app. tauto. }
  case_bool_decide as Hsz.
  - destruct (unique (sort next)) as [|a0 rest] eqn:Hcur';
      [unfold size in Hsz; simpl in Hsz; lia|].
    destruct (proj1 (Hlayer a0)) as (u0 & Hu0 & He0); [by left|].
    pose proof (Hrange u0 Hu0) as Hu0r.
    assert (n ≤ u0) by (by destruct He0).
    destruct (IH (k - 1) (a0 :: rest) nodes1) as (nodes' & Hrun' & Hres).
    + intros v Hv. apply Hlayer in Hv as (u & Hu & He).
      pose proof (Hrange u Hu).
      assert (n ≤ u) by (by destruct He).
      destruct (edge_smaller u v); [lia|done|lia].
    + lia.
    + lia.
    + exists nodes'. split; [done|]. intros a. rewrite Hres, Hn1.
      rewrite (reach_from_layer n arity x current (a0 :: rest) a Hlayer).
      tauto.
  - exists nodes1. split; [done|]. intros a. rewrite Hn1.
    rewrite reach_from_no_edge; [done|].
    intros u v Hu He.
    assert (v ∈ unique (sort next)) as Hv by (apply Hlayer; by exists u).
    destruct (unique (sort next)); [by apply elem_of_nil in Hv|].
    unfold size in Hsz. simpl in Hsz. lia.
Qed.
End ActiveSet.

(** ** What the bounds say about the genes of a chromosome *)

Section Genes.
Variables n m r c l arity fsize : Z.
Variables lb ub x : list Z.
Hypothesis Hunsigned : unsigned_topology n m r c l arity.
Hypothesis Hvalid : valid_topology n m r c l arity fsize.
Hypothesis Hfits : fits n m r c arity.
Hypothesis Hbounds : bounds_spec n m r c l arity fsize lb ub.
Hypothesis Hwithin : genes_within lb ub x.

Let w := arity + 1.
Let B := w * (r * c).

Local Ltac facts :=
  pose proof (topology_facts n m r c l arity fsize Hunsigned Hvalid Hfits) as
    (?&?&?&?&?&?&?&?&?&?&?&?&?&?&?&?); rewrite ?modulus_eq in *.

Lemma chromosome_size : size x = B + m.
Proof.
  destruct Hwithin as [-> _]. rewrite (bs_size_lb _ _ _ _ _ _ _ _ _ Hbounds).
  subst B w. lia.
Qed.

Lemma gene_within g :
  0 ≤ g < B + m →
  ∃ xi lo hi, at_index x g = Some xi ∧ at_index lb g = Some lo ∧
              at_index ub g = Some hi ∧ lo ≤ xi ≤ hi.
Proof.
  intros Hg. destruct (at_index_is_Some x g) as [xi Hxi];
    [by rewrite chromosome_size|].
  destruct Hwithin as [_ Hall]. destruct (Hall g xi Hxi) as (lo & hi & ?).
  by exists xi, lo, hi.
Qed.

Lemma node_grid p :
  0 ≤ p < r * c → ∃ i j, 0 ≤ i < c ∧ 0 ≤ j < r ∧ p = i * r + j.
Proof.
  intros Hp. facts. exists (p / r), (p mod r).
  pose proof (Z.div_mod p r ltac:(lia)) as Hdm.
  pose proof (Z.mod_pos_bound p r ltac:(lia)) as Hmod.
  assert (0 ≤ p / r) by (apply Z.div_pos; lia).
  assert (p / r < c) by (apply Z.div_lt_upper_bound; lia).
  repeat split; lia.
Qed.

Lemma connection_gene u i :
  n ≤ u < n + r * c → 1 ≤ i ≤ arity →
  ∃ v, at_index x ((u - n) * w + i) = Some v ∧ 0 ≤ v < u.
Proof.
  intros Hu Hi. facts.
  destruct (node_grid (u - n)) as (col & j & Hcol & Hj & Hp); [lia|].
  pose proof (gene_index_range 0 r c arity col j (i - 1) Hcol Hj) as Hrange.
  fold w B in Hrange.
  assert ((col * r + j) * w + (i - 1) + 1 = (u - n) * w + i) as Hidx
    by (rewrite Hp; ring).
  rewrite Hidx in Hrange.
  destruct (gene_within ((u - n) * w + i)) as (v & lo & hi & Hv & Hlo & Hhi & ?);
    [lia|].
  destruct (bs_connection _ _ _ _ _ _ _ _ _ Hbounds col j (i - 1))
    as [Hlb Hub]; [done|done|lia|].
  fold w in Hlb, Hub. rewrite Hidx in Hlb, Hub.
  exists v. split; [done|]. simplify_eq.
  pose proof (grid_column_le' r c (col - l)).
  assert (col * r = r * col) by ring.
  case_bool_decide; lia.
Qed.

Lemma output_gene q :
  0 ≤ q < m → ∃ v, at_index x (B + q) = Some v ∧ 0 ≤ v < n + r * c.
Proof.
  intros Hq. facts.
  destruct (gene_within (B + q)) as (v & lo & hi & Hv & Hlo & Hhi & ?); [lia|].
  destruct (bs_output _ _ _ _ _ _ _ _ _ Hbounds q Hq) as [Hlb Hub].
  assert ((arity + 1) * r * c = B) as Heq by (subst B w; lia).
  rewrite Heq in Hlb, Hub.
  exists v. split; [done|]. simplify_eq.
  pose proof (grid_column_le' r c (c - l)).
  case_bool_decide; lia.
Qed.

Lemma function_gene u :
  n ≤ u < n + r * c →
  ∃ fi, at_index x ((u - n) * w) = Some fi ∧ 0 ≤ fi < fsize.
Proof.
  intros Hu. facts.
  pose proof (grid_gene_range w (r * c) (u - n) 0) as Hrange.
  destruct (gene_within ((u - n) * w)) as (v & lo & hi & Hv & Hlo & Hhi & ?);
    [subst B; lia|].
  destruct (bs_function _ _ _ _ _ _ _ _ _ Hbounds (u - n)) as [Hlb Hub]; [lia|].
  fold w in Hlb, Hub. exists v. split; [done|]. simplify_eq.
  unfold valid_topology in Hvalid.
  assert (wrap (fsize - 1) ≤ fsize - 1); [|lia].
  unfold wrap. apply Z.mod_le; [lia|by rewrite modulus_eq].
Qed.
End Genes.

(** ** [update_active] *)

Lemma node_genes_spec {X} (n m r c l arity fsize : Z) (v : Z) (acc : list Z) :
  unsigned_topology n m r c l arity →
  valid_topology n m r c l arity fsize →
  fits n m r c arity →
  0 ≤ v < n + r * c →
  node_genes (X := X) n arity v acc
  = Normal (acc ++ if bool_decide (n ≤ v) then gene_block n arity v else []).
Proof.
  intros Hu Hv Hf Hvr. unfold node_genes. case_bool_decide as Hin.
  - rewrite bool_decide_eq_false_2
      by apply (arity_not_max n m r c l arity fsize Hu Hv Hf).
    do 2 f_equal. unfold gene_block.
    apply list_fmap_ext. intros _ j Hj%list_elem_of_lookup_2%elem_of_seqZ.
    apply (connection_index_small n m r c l arity fsize Hu Hv Hf); lia.
  - by rewrite app_nil_r.
Qed.

Lemma genes_loop_spec {X} (n m r c l arity fsize : Z) (nodes acc : list Z) :
  unsigned_topology n m r c l arity →
  valid_topology n m r c l arity fsize →
  fits n m r c arity →
  (∀ v, v ∈ nodes → 0 ≤ v < n + r * c) →
  for_each (X := X) nodes (node_genes n arity) acc
  = Normal (acc ++ internal_genes n arity nodes).
Proof.
  intros Hu Hv Hf. revert acc.
  induction nodes as [|v nodes IH]; intros acc Hrange.
  - simpl. by rewrite app_nil_r.
  - assert (internal_genes n arity (v :: nodes)
            = (if bool_decide (n ≤ v) then gene_block n arity v else [])
              ++ internal_genes n arity nodes) as -> by done.
    cbn [for_each].
    rewrite (node_genes_spec n m r c l arity fsize v acc Hu Hv Hf)
      by (apply Hrange; by left).
    simpl. rewrite IH by (intros; apply Hrange; by right).
    by rewrite <- app_assoc.
Qed.

Lemma output_genes_spec (n m r c l arity fsize : Z) :
  unsigned_topology n m r c l arity →
  valid_topology n m r c l arity fsize →
  fits n m r c arity →
  (λ i, r ⊗ c ⊗ (arity ⊕ 1) ⊕ i) <$> seqZ 0 m = output_genes m r c arity.
Proof.
  intros Hu Hv Hf. unfold output_genes. apply list_fmap_ext.
  intros _ q Hq%list_elem_of_lookup_2%elem_of_seqZ.
  rewrite (output_index_small' n m r c l arity fsize Hu Hv Hf) by lia. lia.
Qed.

Section UpdateActive.
Context {E : Type} `{!RandomEngine E} {U : Type} `{!Inhabited U}.
Implicit Type e : @expression E U.

(** On a chromosome within the bounds, [update_active] returns, and what
    it stores is determined by the reachability relation. *)
Lemma update_active_spec {X} (fuel : nat) e :
  well_formed e →
  genes_within (m_lb e) (m_ub e) (m_x e) →
  (Z.to_nat (m_r e * m_c e) < fuel)%nat →
  ∃ nodes,
    update_active (X := X) fuel e
      = Normal (set_active e nodes
                  (internal_genes (m_n e) (m_arity e) nodes ++
                   output_genes (m_m e) (m_r e) (m_c e) (m_arity e))) ∧
    StronglySorted Z.lt nodes ∧
    (∀ a, a ∈ nodes ↔
          reachable (m_n e) (m_m e) (m_r e) (m_c e) (m_arity e) (m_x e) a).
Proof.
  intros Hwf Hwithin Hfuel.
  pose proof (well_formed_bounds e Hwf) as Hb.
  destruct Hwf as [Hu Hv Hf _].
  pose proof (connection_gene _ _ _ _ _ _ _ _ _ _ Hu Hv Hf Hb Hwithin) as Hconn.
  pose proof (output_gene _ _ _ _ _ _ _ _ _ _ Hu Hv Hf Hb Hwithin) as Hout.
  pose proof (topology_facts _ _ _ _ _ _ _ Hu Hv Hf)
    as (?&?&?&?&?&?&?&?&?&?&?&?&?&?&?&?).
  unfold update_active.
  rewrite bool_decide_eq_true_2 by (by destruct Hwithin).
  rewrite (seed_spec (X := X) _ _ _ _ _ _ _ _ Hu Hv Hf Hout). simpl.
  destruct (active_loop_spec (X := X) _ _ _ _ _ _ _ _ Hu Hv Hf Hconn fuel
              (m_r e * m_c e)
              (output_targets (m_m e) (m_r e) (m_c e) (m_arity e) (m_x e)) [])
    as (nodes & Hrun & Hnodes); [|lia|done|].
  { intros v Hv'. by apply (output_targets_range _ _ _ _ _ _ Hout). }
  rewrite Hrun. simpl.
  assert (∀ a, a ∈ unique (sort nodes) ↔
               reachable (m_n e) (m_m e) (m_r e) (m_c e) (m_arity e) (m_x e) a)
    as Helem.
  { intros a. rewrite elem_of_unique_sort, Hnodes. unfold reachable.
    split; [|by right]. intros [Ha|?]; [|done]. by apply elem_of_nil in Ha. }
  assert (∀ a, reachable (m_n e) (m_m e) (m_r e) (m_c e) (m_arity e) (m_x e) a →
               0 ≤ a < m_n e + m_r e * m_c e) as Hrange.
  { induction 1 as [v Hv'|u v _ IH He].
    - by apply (output_targets_range _ _ _ _ _ _ Hout).
    - assert (m_n e ≤ u) by (by destruct He).
      destruct (edge_smaller _ _ _ _ _ Hconn u v); [lia|done|lia]. }
  rewrite (genes_loop_spec (X := X) _ _ _ _ _ _ _ _ _ Hu Hv Hf)
    by (intros v Hv'; by apply Hrange, Helem).
  simpl. rewrite (output_genes_spec _ _ _ _ _ _ _ Hu Hv Hf).
  exists (unique (sort nodes)). split; [done|].
  split; [apply unique_sort_sorted|done].
Qed.
End UpdateActive.

(** ** Fuel only matters until a loop has finished *)

Lemma active_loop_fuel {X} (fuel fuel' : nat) n arity x current nodes res :
  active_loop (X := X) fuel n arity x current nodes = Normal res →
  (fuel ≤ fuel')%nat →
  active_loop (X := X) fuel' n arity x current nodes = Normal res.
Proof.
  revert fuel' current nodes.
  induction fuel as [|fuel IH]; intros fuel' current nodes Hrun Hle; [done|].
  destruct fuel' as [|fuel']; [lia|]. simpl in *.
  destruct (for_each current (scan_node n arity x) (nodes ++ current, []))
    as [[nodes1 next]| | | |]; simpl in *; try done.
  case_bool_decide; [|done]. apply IH; [done|lia].
Qed.

Lemma resample_fuel {X} `{RandomEngine E} (fuel fuel' : nat) lo hi cur g res :
  resample (X := X) fuel lo hi cur g = Normal res →
  (fuel ≤ fuel')%nat →
  resample (X := X) fuel' lo hi cur g = Normal res.
Proof.
  revert fuel' g. induction fuel as [|fuel IH]; intros fuel' g Hrun Hle; [done|].
  destruct fuel' as [|fuel']; [lia|]. simpl in *.
  destruct (draw lo hi g) as [[v g']| | | |]; simpl in *; try done.
  case_bool_decide; [|done]. apply IH; [done|lia].
Qed.

Section UpdateActiveFacts.
Context {E : Type} `{!RandomEngine E} {U : Type} `{!Inhabited U}.
Implicit Type e : @expression E U.

Lemma update_active_fuel {X} (fuel fuel' : nat) e e' :
  update_active (X := X) fuel e = Normal e' → (fuel ≤ fuel')%nat →
  update_active (X := X) fuel' e = Normal e'.
Proof.
  unfold update_active. intros Hrun Hle. case_bool_decide; [|done].
  apply outcome_bind_Normal in Hrun as (current & Hcur & Hrun).
  apply outcome_bind_Normal in Hrun as (nodes & Hloop & Hrun).
  rewrite Hcur. simpl.
  by rewrite (active_loop_fuel _ _ _ _ _ _ _ _ Hloop Hle).
Qed.

(** [update_active] writes the two active vectors and nothing else. *)
Lemma update_active_inv {X} (fuel : nat) e e' :
  update_active (X := X) fuel e = Normal e' →
  ∃ nodes genes, e' = set_active e nodes genes.
Proof.
  unfold update_active. intros Hrun. case_bool_decide; [|done].
  apply outcome_bind_Normal in Hrun as (current & Hcur & Hrun).
  apply outcome_bind_Normal in Hrun as (nodes & Hloop & Hrun).
  apply outcome_bind_Normal in Hrun as (genes & Hgenes & Hrun).
  simplify_eq. by eexists _, _.
Qed.

(** It reads neither the active vectors nor the engine. *)
Lemma update_active_set_active {X} (fuel : nat) e nodes genes :
  update_active (X := X) fuel (set_active e nodes genes)
  = update_active (X := X) fuel e.
Proof. by destruct e. Qed.

Lemma update_active_set_e {X} (fuel : nat) e g e' :
  update_active (X := X) fuel e = Normal e' →
  update_active (X := X) fuel (set_e e g) = Normal (set_e e' g).
Proof.
  intros Hrun. destruct (update_active_inv _ _ _ Hrun) as (nodes & genes & ->).
  revert Hrun. destruct e. unfold update_active. simpl.
  case_bool_decide; [|done].
  repeat (match goal with
          | |- context [?m ≫= _] =>
              match m with
              | for_each _ _ _ => destruct m
              | active_loop _ _ _ _ _ _ => destruct m
              end
          end; simpl; try done).
  intros [= -> ->]. done.
Qed.

(** Recomputing the active set a second time changes nothing. *)
Lemma update_active_idempotent {X} (fuel : nat) e e' :
  update_active (X := X) fuel e = Normal e' →
  update_active (X := X) fuel e' = Normal e'.
Proof.
  intros Hrun. destruct (update_active_inv _ _ _ Hrun) as (nodes & genes & ->).
  by rewrite update_active_set_active.
Qed.

(** After a successful recomputation on a chromosome within the bounds
    the instance is consistent. *)
Lemma update_active_consistent {X} (fuel : nat) e e' :
  well_formed e →
  genes_within (m_lb e) (m_ub e) (m_x e) →
  update_active (X := X) fuel e = Normal e' →
  consistent e'.
Proof.
  intros Hwf Hwithin Hrun.
  set (fuel' := Nat.max fuel (S (Z.to_nat (m_r e * m_c e)))).
  pose proof (update_active_fuel fuel fuel' e e' Hrun ltac:(lia)) as Hrun'.
  destruct (update_active_spec (X := X) fuel' e Hwf Hwithin ltac:(lia))
    as (nodes & HrunX & HsX & HeX).
  destruct (update_active_spec (X := exn) fuel' e Hwf Hwithin ltac:(lia))
    as (nodes' & HrunE & HsE & HeE).
  assert (nodes' = nodes) as ->.
  { apply StronglySorted_lt_ext; [done|done|]. intros a. by rewrite HeX, HeE. }
  rewrite Hrun' in HrunX. injection HrunX as ->.
  assert (size (m_ub e) = size (m_lb e)) as Hsz.
  { pose proof (well_formed_bounds e Hwf) as Hb.
    by rewrite (bs_size_lb _ _ _ _ _ _ _ _ _ Hb),
               (bs_size_ub _ _ _ _ _ _ _ _ _ Hb). }
  split.
  - by destruct Hwf, e.
  - apply satisfies_bounds_within; [by destruct e|by destruct e].
  - exists fuel'. by apply update_active_idempotent in HrunE.
Qed.

Lemma consistent_within e :
  consistent e → genes_within (m_lb e) (m_ub e) (m_x e).
Proof.
  intros [Hwf Hvalid _]. apply satisfies_bounds_within; [|done].
  pose proof (well_formed_bounds e Hwf) as Hb.
  by rewrite (bs_size_lb _ _ _ _ _ _ _ _ _ Hb),
             (bs_size_ub _ _ _ _ _ _ _ _ _ Hb).
Qed.

(** In a consistent state the active vectors are the sorted reachable
    nodes and their genes. *)
Lemma consistent_active e :
  consistent e →
  StronglySorted Z.lt (m_active_nodes e) ∧
  (∀ a, a ∈ m_active_nodes e ↔
        reachable (m_n e) (m_m e) (m_r e) (m_c e) (m_arity e) (m_x e) a) ∧
  m_active_genes e
    = internal_genes (m_n e) (m_arity e) (m_active_nodes e) ++
      output_genes (m_m e) (m_r e) (m_c e) (m_arity e).
Proof.
  intros Hc. pose proof (consistent_within e Hc) as Hwithin.
  destruct Hc as [Hwf _ [fuel Hrun]].
  set (fuel' := Nat.max fuel (S (Z.to_nat (m_r e * m_c e)))).
  pose proof (update_active_fuel fuel fuel' e e Hrun ltac:(lia)) as Hrun'.
  destruct (update_active_spec (X := exn) fuel' e Hwf Hwithin ltac:(lia))
    as (nodes & HrunE & HsE & HeE).
  rewrite Hrun' in HrunE. injection HrunE as HrunE.
  rewrite HrunE. by destruct e.
Qed.
End UpdateActiveFacts.

(** ** Resampling one gene *)

Section Resample.
Context {X : Type} `{RandomEngine E}.

Lemma resample_spec (fuel : nat) lo hi cur g v g' :
  lo ≤ hi → resample (X := X) fuel lo hi cur g = Normal (v, g') →
  lo ≤ v ≤ hi ∧ v ≠ cur.
Proof.
  intros Hle. revert g. induction fuel as [|fuel IH]; intros g Hrun; [done|].
  simpl in Hrun. unfold draw in Hrun.
  rewrite bool_decide_eq_true_2 in Hrun by done. simpl in Hrun.
  pose proof (uniform_int_range lo hi g Hle) as Hrange.
  destruct (uniform_int lo hi g) as [v1 g1]. simpl in *.
  case_bool_decide as Heq; [by apply (IH g1)|]. by simplify_eq.
Qed.

(** The loop never fails: it returns or it is still running. *)
Lemma resample_outcome (fuel : nat) lo hi cur g :
  lo ≤ hi →
  resample (X := X) fuel lo hi cur g = OutOfFuel ∨
  ∃ res, resample (X := X) fuel lo hi cur g = Normal res.
Proof.
  intros Hle. revert g. induction fuel as [|fuel IH]; intros g; [by left|].
  simpl. unfold draw. rewrite bool_decide_eq_true_2 by done. simpl.
  destruct (uniform_int lo hi g) as [v1 g1].
  case_bool_decide; [apply IH|]. right. by eexists.
Qed.

Lemma resample_terminates (k fuel : nat) lo hi cur g :
  lo ≤ hi → accepts k lo hi cur g → (k < fuel)%nat →
  ∃ res, resample (X := X) fuel lo hi cur g = Normal res.
Proof.
  intros Hle. revert fuel g.
  induction k as [|k IH]; intros fuel g Hacc Hfuel;
    (destruct fuel as [|fuel]; [lia|]); simpl in *;
    unfold draw; rewrite bool_decide_eq_true_2 by done; simpl;
    destruct (uniform_int lo hi g) as [v1 g1]; simpl in *.
  - rewrite bool_decide_eq_false_2 by done. by eexists.
  - destruct Hacc as [-> Hacc]. rewrite bool_decide_eq_true_2 by done.
    apply IH; [done|lia].
Qed.
End Resample.

Lemma genes_within_insert (lb ub x : list Z) (idx lo hi v : Z) :
  genes_within lb ub x →
  at_index lb idx = Some lo → at_index ub idx = Some hi → lo ≤ v ≤ hi →
  genes_within lb ub (<[Z.to_nat idx := v]> x).
Proof.
  intros [Hsz Hall] Hlo Hhi Hv. split; [by rewrite size_insert|].
  intros g xi Hg.
  pose proof (at_index_Some_range _ _ _ Hg) as Hgr. rewrite size_insert in Hgr.
  pose proof (at_index_Some_range _ _ _ Hlo) as Hir. rewrite <- Hsz in Hir.
  rewrite at_index_insert in Hg by lia.
  case_bool_decide; [|by apply Hall]. simplify_eq. by exists lo, hi.
Qed.

Section MutateGene.
Context {E : Type} `{!RandomEngine E} {U : Type} `{!Inhabited U}.
Implicit Type e : @expression E U.

(** What a resampled gene looks like. *)
Lemma mutate_gene_Some {X} (fuel : nat) (idx : Z) e e1 :
  mutate_gene (X := X) fuel idx e = Normal (Some e1) →
  ∃ lo hi cur v g,
    at_index (m_lb e) idx = Some lo ∧ at_index (m_ub e) idx = Some hi ∧
    at_index (m_x e) idx = Some cur ∧ lo < hi ∧ lo ≤ v ≤ hi ∧ v ≠ cur ∧
    e1 = set_e (set_x e (<[Z.to_nat idx := v]> (m_x e))) g.
Proof.
  unfold mutate_gene. intros Hrun.
  apply outcome_bind_Normal in Hrun as (lo & Hlo%subscript_Normal_inv & Hrun).
  apply outcome_bind_Normal in Hrun as (hi & Hhi%subscript_Normal_inv & Hrun).
  case_bool_decide as Hlt; [|done].
  apply outcome_bind_Normal in Hrun as (cur & Hcur%subscript_Normal_inv & Hrun).
  apply outcome_bind_Normal in Hrun as ([v g] & Hres & Hrun).
  apply outcome_bind_Normal in Hrun as (x' & Hx' & Hrun).
  apply resample_spec in Hres as [? ?]; [|lia].
  unfold assign in Hx'. case_bool_decide; [|done]. simplify_eq.
  by exists lo, hi, cur, v, g.
Qed.

Lemma mutate_gene_None {X} (fuel : nat) (idx : Z) e :
  mutate_gene (X := X) fuel idx e = Normal None →
  ∃ lo hi, at_index (m_lb e) idx = Some lo ∧ at_index (m_ub e) idx = Some hi ∧
           hi ≤ lo.
Proof.
  unfold mutate_gene. intros Hrun.
  apply outcome_bind_Normal in Hrun as (lo & Hlo%subscript_Normal_inv & Hrun).
  apply outcome_bind_Normal in Hrun as (hi & Hhi%subscript_Normal_inv & Hrun).
  case_bool_decide as Hlt.
  - apply outcome_bind_Normal in Hrun as (cur & _ & Hrun).
    apply outcome_bind_Normal in Hrun as ([v g] & _ & Hrun).
    apply outcome_bind_Normal in Hrun as (x' & _ & Hrun). done.
  - exists lo, hi. repeat split; try done. lia.
Qed.

(** On a gene with a single legal value nothing is drawn. *)
Lemma mutate_gene_fixed {X} (fuel : nat) (idx lo hi : Z) e :
  at_index (m_lb e) idx = Some lo → at_index (m_ub e) idx = Some hi →
  hi ≤ lo → mutate_gene (X := X) fuel idx e = Normal None.
Proof.
  intros Hlo Hhi Hle. unfold mutate_gene.
  rewrite (subscript_Normal _ _ _ Hlo), (subscript_Normal _ _ _ Hhi). simpl.
  by rewrite bool_decide_eq_false_2 by lia.
Qed.

(** On a gene with several legal values the only way not to return is to
    keep drawing the current value. *)
Lemma mutate_gene_free {X} (fuel : nat) (idx lo hi cur : Z) e :
  at_index (m_lb e) idx = Some lo → at_index (m_ub e) idx = Some hi →
  at_index (m_x e) idx = Some cur → lo < hi →
  mutate_gene (X := X) fuel idx e = OutOfFuel ∨
  ∃ e1, mutate_gene (X := X) fuel idx e = Normal (Some e1).
Proof.
  intros Hlo Hhi Hcur Hlt. unfold mutate_gene.
  rewrite (subscript_Normal _ _ _ Hlo), (subscript_Normal _ _ _ Hhi),
    (subscript_Normal _ _ _ Hcur). simpl.
  rewrite bool_decide_eq_true_2 by done.
  destruct (resample_outcome (X := X) fuel lo hi cur (m_e e)) as [->|[[v g] ->]];
    [lia|by left|]. simpl.
  rewrite assign_Normal by (by eapply at_index_Some_range). simpl.
  right. by eexists.
Qed.

Lemma mutate_gene_terminates {X} (k fuel : nat) (idx lo hi cur : Z) e :
  at_index (m_lb e) idx = Some lo → at_index (m_ub e) idx = Some hi →
  at_index (m_x e) idx = Some cur → lo < hi →
  accepts k lo hi cur (m_e e) → (k < fuel)%nat →
  ∃ e1, mutate_gene (X := X) fuel idx e = Normal (Some e1).
Proof.
  intros Hlo Hhi Hcur Hlt Hacc Hfuel.
  destruct (mutate_gene_free (X := X) fuel idx lo hi cur e) as [Hout|?];
    try done.
  exfalso. revert Hout. unfold mutate_gene.
  rewrite (subscript_Normal _ _ _ Hlo), (subscript_Normal _ _ _ Hhi),
    (subscript_Normal _ _ _ Hcur). simpl.
  rewrite bool_decide_eq_true_2 by done.
  destruct (resample_terminates (X := X) k fuel lo hi cur (m_e e))
    as [[v g] ->]; [lia|done|done|]. simpl.
  by rewrite assign_Normal by (by eapply at_index_Some_range).
Qed.
End MutateGene.

(** ** The public mutators *)

Section Mutators.
Context {E : Type} `{!RandomEngine E} {U : Type} `{!Inhabited U}.
Implicit Type e : @expression E U.
Local Abbreviation method A := (outcome (exn * @expression E U) A).

Lemma well_formed_set_x e x : well_formed e → well_formed (set_x e x).
Proof. intros Hwf. by destruct Hwf, e. Qed.
Lemma well_formed_set_e e g : well_formed e → well_formed (set_e e g).
Proof. intros Hwf. by destruct Hwf, e. Qed.
Lemma well_formed_set_active e nodes genes :
  well_formed e → well_formed (set_active e nodes genes).
Proof. intros Hwf. by destruct Hwf, e. Qed.

Lemma consistent_set_e e g : consistent e → consistent (set_e e g).
Proof.
  intros [Hwf Hvalid [fuel Hact]]. split.
  - by apply well_formed_set_e.
  - by destruct e.
  - exists fuel. by apply update_active_set_e.
Qed.

(** A resampled gene followed by the recomputation: the new state. *)
Lemma mutated_state (fuel : nat) (idx : Z) e e1 e' :
  consistent e →
  mutate_gene (X := exn * @expression E U) fuel idx e = Normal (Some e1) →
  update_active (X := exn * @expression E U) fuel e1 = Normal e' →
  consistent e' ∧
  ∃ lo hi cur v,
    at_index (m_lb e) idx = Some lo ∧ at_index (m_ub e) idx = Some hi ∧
    at_index (m_x e) idx = Some cur ∧ lo < hi ∧ lo ≤ v ≤ hi ∧ v ≠ cur ∧
    m_x e' = <[Z.to_nat idx := v]> (m_x e).
Proof.
  intros Hc Hgene Hrun.
  destruct (mutate_gene_Some _ _ _ _ Hgene)
    as (lo & hi & cur & v & g & Hlo & Hhi & Hcur & Hlt & Hv & Hne & ->).
  pose proof (consistent_within e Hc) as Hwithin.
  split.
  - eapply update_active_consistent; [| |done].
    + apply well_formed_set_e, well_formed_set_x. by destruct Hc.
    + pose proof (genes_within_insert _ _ _ idx lo hi v Hwithin Hlo Hhi Hv).
      by destruct e.
  - exists lo, hi, cur, v. repeat split; try done; try lia.
    destruct (update_active_inv _ _ _ Hrun) as (nodes & genes & ->).
    by destruct e.
Qed.

Lemma recompute_returns (fuel : nat) (idx : Z) e e1 :
  consistent e →
  mutate_gene (X := exn * @expression E U) fuel idx e = Normal (Some e1) →
  (Z.to_nat (m_r e * m_c e) < fuel)%nat →
  ∃ e', update_active (X := exn * @expression E U) fuel e1 = Normal e'.
Proof.
  intros Hc Hgene Hfuel.
  destruct (mutate_gene_Some _ _ _ _ Hgene)
    as (lo & hi & cur & v & g & Hlo & Hhi & Hcur & Hlt & Hv & Hne & ->).
  pose proof (consistent_within e Hc) as Hwithin.
  pose proof (genes_within_insert _ _ _ idx lo hi v Hwithin Hlo Hhi Hv) as Hw.
  destruct (update_active_spec (X := exn * @expression E U) fuel
              (set_e (set_x e (<[Z.to_nat idx := v]> (m_x e))) g))
    as (nodes & Hrun & _).
  - apply well_formed_set_e, well_formed_set_x. by destruct Hc.
  - by destruct e.
  - by destruct e.
  - by eexists.
Qed.

(** The three vectors of an in-range gene. *)
Lemma gene_in_range e (idx : Z) :
  consistent e → 0 ≤ idx < size (m_x e) →
  ∃ lo hi cur, at_index (m_lb e) idx = Some lo ∧
    at_index (m_ub e) idx = Some hi ∧ at_index (m_x e) idx = Some cur ∧
    lo ≤ cur ≤ hi.
Proof.
  intros Hc Hidx. destruct (consistent_within e Hc) as [Hsz Hall].
  destruct (at_index_is_Some (m_x e) idx Hidx) as [cur Hcur].
  destruct (Hall idx cur Hcur) as (lo & hi & ? & ? & ?). by exists lo, hi, cur.
Qed.
End Mutators.

(** ** The scenarios are consistent states *)

Lemma scenario_well_formed x nodes genes script :
  well_formed (scenario x nodes genes script).
Proof.
  split.
  - repeat split; simpl; rewrite ?modulus_eq; lia.
  - repeat split; simpl; unfold size; simpl; lia.
  - split; simpl; rewrite ?modulus_eq; lia.
  - exists 1%nat. reflexivity.
Qed.

Lemma scenario_consistent script :
  consistent (scenario [0; 0; 1; 2] [0; 1; 2] [0; 1; 2; 3] script).
Proof.
  split; [apply scenario_well_formed|reflexivity|]. exists 2%nat. reflexivity.
Qed.

Lemma scenario_l2_well_formed x nodes genes script :
  well_formed (scenario_l2 x nodes genes script).
Proof.
  split.
  - repeat split; simpl; rewrite ?modulus_eq; lia.
  - repeat split; simpl; unfold size; simpl; lia.
  - split; simpl; rewrite ?modulus_eq; lia.
  - exists 1%nat. reflexivity.
Qed.

Lemma scenario_l2_consistent script :
  consistent (scenario_l2 [0; 0; 0; 0] [0] [3] script).
Proof.
  split; [apply scenario_l2_well_formed|reflexivity|]. exists 2%nat. reflexivity.
Qed.

(** ** Mutation of one gene *)

Section MutateOne.
Context {E : Type} `{!RandomEngine E} {U : Type} `{!Inhabited U}.
Implicit Type e : @expression E U.

(** C6: for an in-range gene index [idx] of a consistent instance, with
    [lo], [hi] and [cur] the bounds and the value of the gene: when
    [lo < hi], whenever [mutate(idx)] returns, the gene holds a value that
    differs from [cur] and lies in [[lo, hi]], every other gene is
    unchanged and the state is consistent again, and [mutate(idx)] does
    return as soon as the engine delivers a value other than [cur] (fuel
    beyond the number of rejected draws and of the passes of the active-set
    loop); when [lo = hi] the call returns the instance as it was. *)
Theorem C6_mutate_resamples_gene (fuel : nat) (idx : Z) e :
  consistent e → 0 ≤ idx < size (get e) →
  ∃ lo hi cur,
    at_index (get_lb e) idx = Some lo ∧ at_index (get_ub e) idx = Some hi ∧
    at_index (get e) idx = Some cur ∧
    (lo < hi →
       (∀ e', mutate fuel idx e = Normal e' →
          ∃ v, at_index (get e') idx = Some v ∧ v ≠ cur ∧ lo ≤ v ≤ hi ∧
               (∀ j, j ≠ idx → at_index (get e') j = at_index (get e) j) ∧
               consistent e') ∧
       (∀ k : nat, accepts k lo hi cur (m_e e) → (k < fuel)%nat →
          (Z.to_nat (m_r e * m_c e) < fuel)%nat →
          ∃ e', mutate fuel idx e = Normal e')) ∧
    (lo = hi → mutate fuel idx e = Normal e).
Proof.
  intros Hc Hidx. unfold get, get_lb, get_ub in *.
  destruct (gene_in_range e idx Hc Hidx) as (lo & hi & cur & Hlo & Hhi & Hcur & Hle).
  exists lo, hi, cur. split; [done|]. split; [done|]. split; [done|].
  unfold mutate. rewrite bool_decide_eq_false_2 by lia. split; [intros Hlt; split|].
  - intros e' Hrun.
    apply outcome_bind_Normal in Hrun as ([e1|] & Hgene & Hrun).
    + destruct (mutated_state fuel idx e e1 e' Hc Hgene Hrun)
        as (Hc' & lo' & hi' & cur' & v & Hlo' & Hhi' & Hcur' & _ & Hv & Hne & Hx).
      simplify_eq. exists v. rewrite Hx.
      split; [apply at_index_insert_eq; lia|]. split; [done|]. split; [done|].
      split; [|done]. intros j Hj.
      destruct (decide (0 ≤ j)) as [?|Hneg].
      * by apply at_index_insert_ne; lia.
      * unfold at_index. by rewrite !bool_decide_eq_false_2 by done.
    + apply mutate_gene_None in Hgene as (lo' & hi' & ? & ? & ?).
      simplify_eq. lia.
  - intros k Hacc Hk Hfuel.
    destruct (mutate_gene_terminates (X := exn * @expression E U)
                k fuel idx lo hi cur e) as (e1 & Hgene); try done.
    rewrite Hgene. simpl. by eapply recompute_returns.
  - intros ->.
    by rewrite (mutate_gene_fixed fuel idx hi hi e Hlo Hhi ltac:(lia)).
Qed.
End MutateOne.

(** The witness: gene 1 of the scenario, bounds [[0, 1]], current value 0. *)
Lemma C6_mutate_resamples_gene_witness :
  ∃ lo hi cur,
    at_index [0; 0; 0; 2] 1 = Some lo ∧ at_index [0; 1; 1; 2] 1 = Some hi ∧
    at_index [0; 0; 1; 2] 1 = Some cur ∧
    (lo < hi →
       (∀ e', mutate 3 1 (scenario [0; 0; 1; 2] [0; 1; 2] [0; 1; 2; 3] [1])
                = Normal e' →
          ∃ v, at_index (get e') 1 = Some v ∧ v ≠ cur ∧ lo ≤ v ≤ hi ∧
               (∀ j, j ≠ 1 → at_index (get e') j = at_index [0; 0; 1; 2] j) ∧
               consistent e') ∧
       (∀ k : nat, accepts k lo hi cur [1] → (k < 3)%nat →
          (Z.to_nat (1 * 1) < 3)%nat →
          ∃ e', mutate 3 1 (scenario [0; 0; 1; 2] [0; 1; 2] [0; 1; 2; 3] [1])
                  = Normal e')) ∧
    (lo = hi →
     mutate 3 1 (scenario [0; 0; 1; 2] [0; 1; 2] [0; 1; 2; 3] [1])
       = Normal (scenario [0; 0; 1; 2] [0; 1; 2] [0; 1; 2; 3] [1])).
Proof.
  apply (C6_mutate_resamples_gene 3 1
           (scenario [0; 0; 1; 2] [0; 1; 2] [0; 1; 2; 3] [1])).
  - apply scenario_consistent.
  - vm_compute. split; [discriminate|reflexivity].
Defined.


(** ** Replacing the chromosome *)

Section SetChromosome.
Context {E : Type} `{!RandomEngine E} {U : Type} `{!Inhabited U}.
Implicit Type e : @expression E U.

(** C5: on a consistent instance the validator accepts exactly the
    chromosomes of the right length whose genes all lie within their bounds;
    for an accepted [x], [set(x)] returns (fuel beyond the passes of the
    active-set loop), [get()] is then [x] and the state is consistent; for an
    [x] of the wrong length or with a gene outside its bounds, [set(x)]
    throws the invalid-chromosome exception and leaves the instance exactly
    as it was (chromosome, active nodes, active genes and all the rest). *)
Theorem C5_set_then_get (fuel : nat) (x : list Z) e :
  consistent e →
  (satisfies_bounds e x ↔ genes_within (get_lb e) (get_ub e) x) ∧
  (satisfies_bounds e x → (Z.to_nat (m_r e * m_c e) < fuel)%nat →
     ∃ e', set fuel x e = Normal e' ∧ get e' = x ∧ consistent e') ∧
  (size x ≠ size (get_lb e) ∨
   (∃ g xi lo hi, at_index x g = Some xi ∧ at_index (get_lb e) g = Some lo ∧
                  at_index (get_ub e) g = Some hi ∧ (xi < lo ∨ hi < xi)) →
   set fuel x e
     = Thrown (invalid_argument "Chromosome is incompatible", e)).
Proof.
  intros Hc. unfold get, get_lb, get_ub.
  pose proof Hc as [Hwf _ _].
  pose proof (well_formed_bounds e Hwf) as Hb.
  assert (size (m_ub e) = size (m_lb e)) as Hsz
    by (by rewrite (bs_size_lb _ _ _ _ _ _ _ _ _ Hb),
                   (bs_size_ub _ _ _ _ _ _ _ _ _ Hb)).
  pose proof (satisfies_bounds_within e x Hsz) as Hiff.
  destruct (is_valid_spec (X := exn * @expression E U) e x Hsz)
    as (b & Hvalid & Hb').
  split; [done|]. unfold set. rewrite Hvalid. simpl. split.
  - intros Hsat Hfuel. apply Hiff in Hsat. pose proof Hsat as Hw.
    apply Hb' in Hsat as ->. simpl.
    destruct (update_active_spec (X := exn * @expression E U) fuel (set_x e x))
      as (nodes & Hrun & _).
    + by apply well_formed_set_x.
    + by destruct e.
    + by destruct e.
    + eexists. split; [done|]. split; [by destruct e|].
      eapply update_active_consistent; [| |done].
      * by apply well_formed_set_x.
      * by destruct e.
  - intros Hbad. destruct b; [|done]. exfalso.
    destruct (proj1 Hb' eq_refl) as [Hlen Hall].
    destruct Hbad as [?|(g & xi & lo & hi & Hxi & Hlo & Hhi & Hout)]; [done|].
    destruct (Hall g xi Hxi) as (lo' & hi' & ? & ? & ?). simplify_eq. lia.
Qed.
End SetChromosome.

(** The witness: the scenario, set to the chromosome [0 1 1 2]. *)
Lemma C5_set_then_get_witness :
  (satisfies_bounds (scenario [0; 0; 1; 2] [0; 1; 2] [0; 1; 2; 3] [])
     [0; 1; 1; 2]
   ↔ genes_within [0; 0; 0; 2] [0; 1; 1; 2] [0; 1; 1; 2]) ∧
  (satisfies_bounds (scenario [0; 0; 1; 2] [0; 1; 2] [0; 1; 2; 3] [])
     [0; 1; 1; 2] →
   (Z.to_nat (1 * 1) < 2)%nat →
   ∃ e', set 2 [0; 1; 1; 2]
           (scenario [0; 0; 1; 2] [0; 1; 2] [0; 1; 2; 3] []) = Normal e' ∧
         get e' = [0; 1; 1; 2] ∧ consistent e') ∧
  (size [0; 1; 1; 2] ≠ size [0; 0; 0; 2] ∨
   (∃ g xi lo hi, at_index [0; 1; 1; 2] g = Some xi ∧
                  at_index [0; 0; 0; 2] g = Some lo ∧
                  at_index [0; 1; 1; 2] g = Some hi ∧ (xi < lo ∨ hi < xi)) →
   set 2 [0; 1; 1; 2] (scenario [0; 0; 1; 2] [0; 1; 2] [0; 1; 2; 3] [])
     = Thrown (invalid_argument "Chromosome is incompatible",
               scenario [0; 0; 1; 2] [0; 1; 2] [0; 1; 2; 3] [])).
Proof.
  apply (C5_set_then_get 2 [0; 1; 1; 2]
           (scenario [0; 0; 1; 2] [0; 1; 2] [0; 1; 2; 3] [])).
  apply scenario_consistent.
Defined.


(** ** The active set after a recomputation *)

Lemma internal_genes_nil (n arity : Z) (nodes : list Z) :
  0 ≤ arity →
  internal_genes n arity nodes = [] ↔ ∀ v, v ∈ nodes → v < n.
Proof.
  intros Ha. unfold internal_genes. induction nodes as [|v nodes IH].
  - split; [|done]. intros _ v Hv. by apply elem_of_nil in Hv.
  - change ((v :: nodes) ≫= _)
      with ((if bool_decide (n ≤ v) then gene_block n arity v else [])
            ++ (nodes ≫= λ v, if bool_decide (n ≤ v) then gene_block n arity v
                              else [])).
    split.
    + intros [Hhd Htl]%app_eq_nil u Hu.
      apply elem_of_cons in Hu as [->|Hu]; [|by apply IH].
      case_bool_decide; [|lia]. exfalso. unfold gene_block in Hhd.
      apply fmap_nil_inv in Hhd.
      pose proof (length_seqZ 0 (arity + 1)) as Hlen.
      rewrite Hhd in Hlen. simpl in Hlen. lia.
    + intros Hall. rewrite bool_decide_eq_false_2.
      * simpl. apply IH. intros u Hu. apply Hall. by right.
      * specialize (Hall v ltac:(by left)). lia.
Qed.

Lemma size_output_genes (m r c arity : Z) :
  0 ≤ m → size (output_genes m r c arity) = m.
Proof.
  intros. unfold size, output_genes. rewrite length_fmap, length_seqZ. lia.
Qed.

Section ActiveSetClaims.
Context {E : Type} `{!RandomEngine E} {U : Type} `{!Inhabited U}.
Implicit Type e : @expression E U.

Lemma update_active_result {X} (fuel : nat) e e' :
  well_formed e →
  genes_within (m_lb e) (m_ub e) (m_x e) →
  update_active (X := X) fuel e = Normal e' →
  ∃ nodes,
    e' = set_active e nodes
           (internal_genes (m_n e) (m_arity e) nodes ++
            output_genes (m_m e) (m_r e) (m_c e) (m_arity e)) ∧
    StronglySorted Z.lt nodes ∧
    (∀ a, a ∈ nodes ↔
          reachable (m_n e) (m_m e) (m_r e) (m_c e) (m_arity e) (m_x e) a).
Proof.
  intros Hwf Hwithin Hrun.
  set (fuel' := Nat.max fuel (S (Z.to_nat (m_r e * m_c e)))).
  pose proof (update_active_fuel fuel fuel' e e' Hrun ltac:(lia)) as Hrun'.
  destruct (update_active_spec (X := X) fuel' e Hwf Hwithin ltac:(lia))
    as (nodes & HrunX & HsX & HeX).
  rewrite Hrun' in HrunX. injection HrunX as ->. by exists nodes.
Qed.

(** The recomputation is a function of the topology and the chromosome. *)
Lemma update_active_same_chromosome {X Y} (fuel : nat)
    (e1 e1' e2 e2' : @expression E U) :
  m_n e2 = m_n e1 → m_m e2 = m_m e1 → m_r e2 = m_r e1 → m_c e2 = m_c e1 →
  m_arity e2 = m_arity e1 → m_x e2 = m_x e1 →
  well_formed e1 → genes_within (m_lb e1) (m_ub e1) (m_x e1) →
  update_active (X := X) fuel e1 = Normal e1' →
  ∀ fuel2, update_active (X := Y) fuel2 e2 = Normal e2' →
  m_active_nodes e2' = m_active_nodes e1' ∧
  m_active_genes e2' = m_active_genes e1'.
Proof.
  intros Hn Hm Hr Hc Ha Hx Hwf Hwithin Hrun1 fuel2 Hrun2.
  destruct (update_active_result fuel e1 e1' Hwf Hwithin Hrun1)
    as (nodes1 & -> & Hs1 & He1).
  pose proof (wf_unsigned _ Hwf) as Hu. pose proof (wf_valid _ Hwf) as Hv.
  pose proof (wf_fits _ Hwf) as Hf.
  pose proof (well_formed_bounds e1 Hwf) as Hb.
  pose proof (connection_gene _ _ _ _ _ _ _ _ _ _ Hu Hv Hf Hb Hwithin) as Hconn.
  pose proof (output_gene _ _ _ _ _ _ _ _ _ _ Hu Hv Hf Hb Hwithin) as Hout.
  unfold update_active in Hrun2. rewrite Hn, Hm, Hr, Hc, Ha, Hx in Hrun2.
  case_bool_decide; [|done].
  rewrite (seed_spec (X := Y) _ _ _ _ _ _ _ _ Hu Hv Hf Hout) in Hrun2.
  simpl in Hrun2.
  apply outcome_bind_Normal in Hrun2 as (nodes & Hloop & Hrun2).
  set (fuel' := Nat.max fuel2 (S (Z.to_nat (m_r e1 * m_c e1)))).
  pose proof (active_loop_fuel fuel2 fuel' _ _ _ _ _ _ Hloop ltac:(lia)) as Hloop'.
  destruct (active_loop_spec (X := Y) _ _ _ _ _ _ _ _ Hu Hv Hf Hconn fuel'
              (m_r e1 * m_c e1)
              (output_targets (m_m e1) (m_r e1) (m_c e1) (m_arity e1) (m_x e1)) [])
    as (nodes' & Hrun' & Hnodes); [| |lia|].
  { intros v Hv'. by apply (output_targets_range _ _ _ _ _ _ Hout). }
  { pose proof (topology_facts _ _ _ _ _ _ _ Hu Hv Hf)
      as (?&?&?&?&?&?&?&?&?&?&?&?&?&?&?&?). lia. }
  rewrite Hloop' in Hrun'. injection Hrun' as <-.
  assert (unique (sort nodes) = nodes1) as Hsame.
  { apply StronglySorted_lt_ext; [apply unique_sort_sorted|done|].
    intros a. rewrite elem_of_unique_sort, Hnodes, He1. unfold reachable.
    split; [|by right]. intros [Hin|?]; [|done]. by apply elem_of_nil in Hin. }
  rewrite Hsame in Hrun2.
  assert (∀ v, v ∈ nodes1 → 0 ≤ v < m_n e1 + m_r e1 * m_c e1) as Hrange.
  { intros v Hv'%He1. induction Hv' as [v Hv'|u v _ IH He].
    - by apply (output_targets_range _ _ _ _ _ _ Hout).
    - assert (m_n e1 ≤ u) by (by destruct He).
      destruct (edge_smaller _ _ _ _ _ Hconn u v); [lia|done|lia]. }
  rewrite (genes_loop_spec (X := Y) _ _ _ _ _ _ _ _ _ Hu Hv Hf Hrange) in Hrun2.
  simpl in Hrun2. rewrite (output_genes_spec _ _ _ _ _ _ _ Hu Hv Hf) in Hrun2.
  injection Hrun2 as <-. by destruct e1, e2.
Qed.

(** C3: on an instance whose chromosome satisfies the bounds,
    [update_active] returns (fuel beyond the passes of its loop); the active
    nodes it stores are strictly increasing, hence sorted and without
    duplicates, and are exactly the node ids reachable backward from the
    targets of the output genes through the connection genes of internal
    nodes; and any other recomputation on the same topology and chromosome,
    whatever the active vectors, the engine and the fuel it starts from,
    stores the same active nodes and active genes. *)
Theorem C3_active_nodes_are_the_reachable_nodes (fuel : nat) e :
  well_formed e →
  genes_within (get_lb e) (get_ub e) (get e) →
  (Z.to_nat (m_r e * m_c e) < fuel)%nat →
  ∃ e', update_active (X := exn) fuel e = Normal e' ∧
    StronglySorted Z.lt (get_active_nodes e') ∧
    NoDup (get_active_nodes e') ∧
    (∀ a, a ∈ get_active_nodes e' ↔
          reachable (m_n e) (m_m e) (m_r e) (m_c e) (m_arity e) (get e) a) ∧
    (∀ (fuel2 : nat) (e2 e2' : @expression E U),
       m_n e2 = m_n e → m_m e2 = m_m e → m_r e2 = m_r e → m_c e2 = m_c e →
       m_arity e2 = m_arity e → get e2 = get e →
       update_active (X := exn) fuel2 e2 = Normal e2' →
       get_active_nodes e2' = get_active_nodes e' ∧
       get_active_genes e2' = get_active_genes e').
Proof.
  unfold get, get_lb, get_ub, get_active_nodes, get_active_genes.
  intros Hwf Hwithin Hfuel.
  destruct (update_active_spec (X := exn) fuel e Hwf Hwithin Hfuel)
    as (nodes & Hrun & Hs & He).
  eexists. split; [done|]. split; [by destruct e|].
  split; [apply StronglySorted_lt_NoDup; by destruct e|].
  split; [by destruct e|].
  intros fuel2 e2 e2' Hn Hm Hr Hc Ha Hx Hrun2.
  by apply (update_active_same_chromosome (X := exn) (Y := exn) fuel e _ e2 e2'
              Hn Hm Hr Hc Ha Hx Hwf Hwithin Hrun fuel2).
Qed.
End ActiveSetClaims.

(** The witness: the scenario before its first recomputation. *)
Lemma C3_active_nodes_are_the_reachable_nodes_witness :
  ∃ e', update_active (X := exn) 2 (scenario [0; 0; 1; 2] [] [] []) = Normal e' ∧
    StronglySorted Z.lt (get_active_nodes e') ∧
    NoDup (get_active_nodes e') ∧
    (∀ a, a ∈ get_active_nodes e' ↔ reachable 2 1 1 1 2 [0; 0; 1; 2] a) ∧
    (∀ (fuel2 : nat) (e2 e2' : @expression (list Z) float),
       m_n e2 = 2 → m_m e2 = 1 → m_r e2 = 1 → m_c e2 = 1 →
       m_arity e2 = 2 → get e2 = [0; 0; 1; 2] →
       update_active (X := exn) fuel2 e2 = Normal e2' →
       get_active_nodes e2' = get_active_nodes e' ∧
       get_active_genes e2' = get_active_genes e').
Proof.
  apply (C3_active_nodes_are_the_reachable_nodes 2
           (scenario [0; 0; 1; 2] [] [] [])).
  - apply scenario_well_formed.
  - apply (satisfies_bounds_within (scenario [0; 0; 1; 2] [] [] []));
      reflexivity.
  - simpl. lia.
Defined.


(** ** The active genes end with the output genes *)

Section ActiveGenes.
Context {E : Type} `{!RandomEngine E} {U : Type} `{!Inhabited U}.
Implicit Type e : @expression E U.

Lemma active_genes_shape {X} (fuel : nat) e e' :
  well_formed e →
  genes_within (m_lb e) (m_ub e) (m_x e) →
  update_active (X := X) fuel e = Normal e' →
  m_m e ≤ size (m_active_genes e') ∧
  drop (length (m_active_genes e') - Z.to_nat (m_m e)) (m_active_genes e')
    = output_genes (m_m e) (m_r e) (m_c e) (m_arity e) ∧
  (size (m_active_genes e') = m_m e ↔
   ∀ q t, 0 ≤ q < m_m e →
     at_index (m_x e) ((m_arity e + 1) * m_r e * m_c e + q) = Some t →
     t < m_n e).
Proof.
  intros Hwf Hwithin Hrun.
  destruct (update_active_result fuel e e' Hwf Hwithin Hrun)
    as (nodes & -> & Hs & He).
  pose proof (wf_unsigned _ Hwf) as Hu. pose proof (wf_valid _ Hwf) as Hv.
  pose proof (wf_fits _ Hwf) as Hf.
  pose proof (topology_facts _ _ _ _ _ _ _ Hu Hv Hf)
    as (?&?&?&?&?&?&?&?&?&?&?&?&?&?&HB&?).
  simpl.
  pose proof (size_output_genes (m_m e) (m_r e) (m_c e) (m_arity e) ltac:(lia))
    as Hout.
  pose proof (size_nonneg (internal_genes (m_n e) (m_arity e) nodes)) as Hnn.
  rewrite size_app, Hout. split; [lia|]. split.
  - rewrite length_app. unfold size in Hout.
    replace (length (internal_genes (m_n e) (m_arity e) nodes) +
             length (output_genes (m_m e) (m_r e) (m_c e) (m_arity e)) -
             Z.to_nat (m_m e))%nat
      with (length (internal_genes (m_n e) (m_arity e) nodes)) by lia.
    by rewrite drop_app_length.
  - assert (size (internal_genes (m_n e) (m_arity e) nodes) + m_m e = m_m e ↔
            internal_genes (m_n e) (m_arity e) nodes = []) as ->.
    { unfold size. destruct (internal_genes _ _ _); simpl; split;
        intros; try done; lia. }
    rewrite internal_genes_nil by lia. rewrite HB. split.
    + intros Hall q t Hq Ht. apply Hall, He, reach_here.
      apply elem_of_output_targets. by exists q.
    + intros Hall v Hv'%He.
      apply reach_from_no_edge in Hv'.
      * apply elem_of_output_targets in Hv' as (q & Hq & Ht). by eapply Hall.
      * intros u a Hu' [Hge _].
        apply elem_of_output_targets in Hu' as (q & Hq & Ht).
        specialize (Hall q u Hq Ht). lia.
Qed.
End ActiveGenes.

(** C7, as stated, fails in its concrete case: with
    [n = 2, m = 1, r = 1, c = 1, l = 1, arity = 2] the constructor bounds the
    output gene to [[2, 2]], so the chromosome [0 0 0 0] does not pass
    [is_valid], [set] throws on it and leaves the instance as it was, and
    no consistent instance of that topology holds it. *)
Lemma C7_chromosome_is_rejected :
  gene_bounds (X := exn) 1 2 1 1 1 1 2 (size [add_kernel])
    = Normal ([0; 0; 0; 2], [0; 1; 1; 2]) ∧
  is_valid (X := exn) (scenario [0; 0; 1; 2] [0; 1; 2] [0; 1; 2; 3] [])
    [0; 0; 0; 0] = Normal false ∧
  set 2 [0; 0; 0; 0] (scenario [0; 0; 1; 2] [0; 1; 2] [0; 1; 2; 3] [])
    = Thrown (invalid_argument "Chromosome is incompatible",
              scenario [0; 0; 1; 2] [0; 1; 2] [0; 1; 2; 3] []) ∧
  ¬ consistent (scenario [0; 0; 0; 0] [0] [3] []).
Proof.
  split; [reflexivity|]. split; [reflexivity|]. split; [reflexivity|].
  intros [_ Hvalid _]. unfold satisfies_bounds in Hvalid.
  vm_compute in Hvalid. discriminate.
Qed.

(** C7 (amended): the recomputation of the active set on a chromosome that
    satisfies the bounds returns, and after it (hence in every consistent
    state) [active_genes] has at least [m] entries, its last [m] entries
    are exactly the indices of the output genes, [(arity+1)*r*c + q] for
    [q < m], and it has exactly [m] entries precisely when every output
    gene holds the id of an input node; in the concrete case
    [n = 2, m = 1, r = 1, c = 1, l = 2, arity = 2], setting the chromosome
    [0 0 0 0] gives the active nodes [0] and the active genes [3]. *)
Theorem C7_active_genes_end_with_output_genes :
  (∀ (E : Type) (RE : RandomEngine E) (U : Type) (IU : Inhabited U)
     (fuel : nat) (e : @expression E U),
     well_formed e →
     genes_within (get_lb e) (get_ub e) (get e) →
     (Z.to_nat (m_r e * m_c e) < fuel)%nat →
     ∃ e', update_active (X := exn) fuel e = Normal e' ∧
       get e' = get e ∧
       m_m e ≤ size (get_active_genes e') ∧
       drop (length (get_active_genes e') - Z.to_nat (m_m e))
            (get_active_genes e')
         = output_genes (m_m e) (m_r e) (m_c e) (m_arity e) ∧
       (size (get_active_genes e') = m_m e ↔
        ∀ q t, 0 ≤ q < m_m e →
          at_index (get e) ((m_arity e + 1) * m_r e * m_c e + q) = Some t →
          t < m_n e)) ∧
  (∀ (E : Type) (RE : RandomEngine E) (U : Type) (IU : Inhabited U)
     (e : @expression E U),
     consistent e →
     m_m e ≤ size (get_active_genes e) ∧
     drop (length (get_active_genes e) - Z.to_nat (m_m e))
          (get_active_genes e)
       = output_genes (m_m e) (m_r e) (m_c e) (m_arity e) ∧
     (size (get_active_genes e) = m_m e ↔
      ∀ q t, 0 ≤ q < m_m e →
        at_index (get e) ((m_arity e + 1) * m_r e * m_c e + q) = Some t →
        t < m_n e)) ∧
  (∀ x0 nodes genes script,
     set 2 [0; 0; 0; 0] (scenario_l2 x0 nodes genes script)
     = Normal (scenario_l2 [0; 0; 0; 0] [0] [3] script)).
Proof.
  split; [|split].
  - intros E RE U IU fuel e Hwf Hwithin Hfuel.
    unfold get, get_lb, get_ub, get_active_genes in *.
    destruct (update_active_spec (X := exn) fuel e Hwf Hwithin Hfuel)
      as (nodes & Hrun & _).
    eexists. split; [exact Hrun|]. split; [by destruct e|].
    exact (active_genes_shape (X := exn) fuel e _ Hwf Hwithin Hrun).
  - intros E RE U IU e Hc.
    pose proof (consistent_within e Hc) as Hwithin.
    destruct Hc as [Hwf _ [fuel Hrun]].
    exact (active_genes_shape (X := exn) fuel e e Hwf Hwithin Hrun).
  - reflexivity.
Qed.

(** The witness: the recomputation on the scenario, whose output gene
    selects the internal node 2 (four active genes, the last one being the
    output gene), and the consistent instance with [l = 2] whose output
    gene selects an input (one active gene). *)
Lemma C7_active_genes_end_with_output_genes_witness :
  (∃ e', update_active (X := exn) 2 (scenario [0; 0; 1; 2] [] [] [])
           = Normal e' ∧
     get e' = [0; 0; 1; 2] ∧
     1 ≤ size (get_active_genes e') ∧
     drop (length (get_active_genes e') - Z.to_nat 1) (get_active_genes e')
       = output_genes 1 1 1 2 ∧
     (size (get_active_genes e') = 1 ↔
      ∀ q t, 0 ≤ q < 1 →
        at_index [0; 0; 1; 2] ((2 + 1) * 1 * 1 + q) = Some t → t < 2)) ∧
  (1 ≤ size (get_active_genes (scenario_l2 [0; 0; 0; 0] [0] [3] [])) ∧
   drop (length (get_active_genes (scenario_l2 [0; 0; 0; 0] [0] [3] []))
         - Z.to_nat 1)
        (get_active_genes (scenario_l2 [0; 0; 0; 0] [0] [3] []))
     = output_genes 1 1 1 2 ∧
   (size (get_active_genes (scenario_l2 [0; 0; 0; 0] [0] [3] [])) = 1 ↔
    ∀ q t, 0 ≤ q < 1 →
      at_index [0; 0; 0; 0] ((2 + 1) * 1 * 1 + q) = Some t → t < 2)).
Proof.
  split.
  - apply (proj1 C7_active_genes_end_with_output_genes (list Z) _ float _
             2%nat (scenario [0; 0; 1; 2] [] [] [])).
    + apply scenario_well_formed.
    + apply (satisfies_bounds_within (scenario [0; 0; 1; 2] [] [] []));
        reflexivity.
    + simpl. lia.
  - apply (proj1 (proj2 C7_active_genes_end_with_output_genes) (list Z) _
             float _ (scenario_l2 [0; 0; 0; 0] [0] [3] [])).
    apply scenario_l2_consistent.
Defined.

(** ** Evaluation *)

Lemma block_index_small (n m r c l arity fsize u : Z) :
  unsigned_topology n m r c l arity →
  valid_topology n m r c l arity fsize →
  fits n m r c arity →
  n ≤ u < n + r * c →
  (u ⊖ n) ⊗ (arity ⊕ 1) = (u - n) * (arity + 1).
Proof.
  intros Hu Hv Hf Hr.
  pose proof (connection_index_small n m r c l arity fsize Hu Hv Hf u 0 Hr)
    as Heq.
  pose proof (topology_facts _ _ _ _ _ _ _ Hu Hv Hf)
    as (?&?&?&?&?&?&?&?&?&?&?&?&?&?&?&?).
  rewrite Z.add_0_r in Heq. rewrite <- Heq by lia.
  unfold uadd. rewrite Z.add_0_r. symmetry. apply wrap_small, wrap_range.
Qed.

Lemma sorted_prefix_smaller (done rest : list Z) (v t : Z) :
  StronglySorted Z.lt (done ++ v :: rest) →
  t ∈ done ++ v :: rest → t < v → t ∈ done.
Proof.
  intros Hs Ht Hlt. apply StronglySorted_app in Hs as (_ & _ & Hs).
  apply StronglySorted_inv in Hs as [_ Hall]. rewrite Forall_forall in Hall.
  apply elem_of_app in Ht as [?|Ht]; [done|].
  apply elem_of_cons in Ht as [->|Ht]; [lia|]. specialize (Hall t Ht). lia.
Qed.

Section Evaluation.
Context {E : Type} `{!RandomEngine E} {U : Type} `{!Inhabited U}.
Variable e : @expression E U.
Variable inp : list U.
Hypothesis Hconsistent : consistent e.
Hypothesis Hinputs : size inp = m_n e.

Let n := m_n e.
Let arity := m_arity e.
Let x := m_x e.
Let w := arity + 1.

(** The node map while the active nodes are processed: it holds exactly the
    nodes already processed, each with its value. *)
Let processed (done : list Z) (node : gmap Z U) : Prop :=
  (∀ t, is_Some (node !! t) ↔ t ∈ done) ∧
  (∀ t u, node !! t = Some u → node_value e inp t u).

Lemma active_node_facts :
  StronglySorted Z.lt (m_active_nodes e) ∧
  (∀ v, v ∈ m_active_nodes e → 0 ≤ v < n + m_r e * m_c e) ∧
  (∀ v i, v ∈ m_active_nodes e → n ≤ v → 1 ≤ i ≤ arity →
     ∃ t, at_index x ((v - n) * w + i) = Some t ∧ 0 ≤ t < v ∧
          t ∈ m_active_nodes e) ∧
  (∀ q, 0 ≤ q < m_m e →
     ∃ t, at_index x (w * (m_r e * m_c e) + q) = Some t ∧
          t ∈ m_active_nodes e).
Proof.
  destruct (consistent_active e Hconsistent) as (Hs & He & _).
  pose proof (consistent_within e Hconsistent) as Hwithin.
  destruct Hconsistent as [Hwf _ _].
  pose proof (wf_unsigned _ Hwf) as Hu. pose proof (wf_valid _ Hwf) as Hv.
  pose proof (wf_fits _ Hwf) as Hf.
  pose proof (well_formed_bounds e Hwf) as Hb.
  pose proof (connection_gene _ _ _ _ _ _ _ _ _ _ Hu Hv Hf Hb Hwithin) as Hconn.
  pose proof (output_gene _ _ _ _ _ _ _ _ _ _ Hu Hv Hf Hb Hwithin) as Hout.
  assert (∀ v, v ∈ m_active_nodes e → 0 ≤ v < n + m_r e * m_c e) as Hrange.
  { intros v Hv'%He. induction Hv' as [v Hv'|u v _ IH Hedge].
    - by apply (output_targets_range _ _ _ _ _ _ Hout).
    - assert (m_n e ≤ u) by (by destruct Hedge).
      destruct (edge_smaller _ _ _ _ _ Hconn u v); [subst n; lia|done|lia]. }
  split; [done|]. split; [done|]. split.
  - intros v i Hv' Hge Hi. specialize (Hrange v Hv').
    destruct (Hconn v i) as (t & Ht & ?); [subst n; lia|done|].
    exists t. split; [done|]. split; [done|].
    apply He. eapply reach_step; [by apply He|].
    split; [done|]. by exists i.
  - intros q Hq. destruct (Hout q Hq) as (t & Ht & _). exists t.
    split; [done|]. apply He, reach_here, elem_of_output_targets. by exists q.
Qed.

(** Gathering the arguments of an internal node reads values that are
    already stored and leaves the map as it is. *)
Lemma gather_spec {X} (done : list Z) (fin : list U) (node : gmap Z U)
    (v : Z) :
  processed done node →
  size fin = arity →
  v ∈ m_active_nodes e → n ≤ v →
  (∀ t, t ∈ m_active_nodes e → t < v → t ∈ done) →
  ∃ args vals,
    for_each (X := X) (seqZ 0 arity)
      (gather_input x ((v ⊖ n) ⊗ (arity ⊕ 1))) (fin, node)
      = Normal (vals, node) ∧
    Forall2 (λ i t, at_index x ((v - n) * w + i) = Some t) (seqZ 1 arity) args ∧
    Forall2 (node_value e inp) args vals.
Proof.
  intros [Hdom Hval] Hfin Hv Hge Hdone.
  destruct active_node_facts as (Hs & Hrange & Hconn & _).
  destruct Hconsistent as [Hwf _ _].
  pose proof (wf_unsigned _ Hwf) as Hu. pose proof (wf_valid _ Hwf) as Hvt.
  pose proof (wf_fits _ Hwf) as Hf.
  pose proof (topology_facts _ _ _ _ _ _ _ Hu Hvt Hf)
    as (?&?&?&?&?&?&?&?&?&?&?&?&?&?&?&?).
  specialize (Hrange v Hv).
  destruct (for_range_invariant (X := X)
    (λ j0 st, st.2 = node ∧ ∃ args vals,
       Forall2 (λ i t, at_index x ((v - n) * w + i) = Some t) (seqZ 1 j0) args ∧
       Forall2 (node_value e inp) args vals ∧
       st.1 = vals ++ drop (Z.to_nat j0) fin)
    0 arity (gather_input x ((v ⊖ n) ⊗ (arity ⊕ 1))) (fin, node))
    as ([res node'] & Hrun & Hnode & args & vals & Hargs & Hvals & Hres).
  - subst arity. lia.
  - split; [done|]. exists [], []. rewrite seqZ_nil by lia.
    split; [constructor|]. split; [constructor|]. by rewrite drop_0.
  - intros j [cur nd] Hj (Hnd & args & vals & Hargs & Hvals & Hcur).
    simpl in *. subst nd cur.
    assert (size vals = j) as Hsz.
    { unfold size. rewrite <- (Forall2_length _ _ _ Hvals),
        <- (Forall2_length _ _ _ Hargs), length_seqZ. lia. }
    destruct (Hconn v (1 + j)) as (t & Ht & Htv & Hta); [done|done|lia|].
    unfold gather_input.
    assert ((v ⊖ n) ⊗ (arity ⊕ 1) ⊕ j ⊕ 1 = (v - n) * w + (1 + j)) as ->.
    { rewrite (connection_index_small _ _ _ _ _ _ _ Hu Hvt Hf) by (subst n arity; lia).
      pose proof (at_index_Some_range _ _ _ Ht) as Hr.
      pose proof (consistent_within e Hconsistent) as Hwithin.
      pose proof (well_formed_bounds e Hwf) as Hb.
      pose proof (chromosome_size _ _ _ _ _ _ _ _ _ _ Hb Hwithin) as Hlen.
      fold x arity w in Hlen. rewrite Hlen in Hr.
      rewrite uadd_small; [subst w arity n; lia|].
      rewrite modulus_eq in *. subst w arity n. lia. }
    rewrite (subscript_Normal _ _ _ Ht). simpl.
    destruct (proj2 (Hdom t)) as [u Hu']; [apply Hdone; [done|lia]|].
    unfold map_subscript. rewrite Hu'.
    rewrite assign_fill by lia. simpl.
    eexists. split; [done|]. simpl. split; [done|].
    exists (args ++ [t]), (vals ++ [u]). split_and!.
    + rewrite (seqZ_app 1 j 1) by lia. apply Forall2_app; [done|].
      rewrite seqZ_cons, seqZ_nil by lia.
      constructor; [done|constructor].
    + apply Forall2_app; [done|].
      constructor; [by apply Hval|constructor].
    + done.
  - simpl in Hnode, Hres. subst node' res. rewrite Z.add_0_l in Hargs, Hrun.
    rewrite drop_ge, app_nil_r in Hrun by (unfold size in Hfin; lia).
    by exists args, vals.
Qed.

(** One active node. *)
Lemma eval_node_spec {X} (done rest : list Z) (fin : list U)
    (node : gmap Z U) (v : Z) :
  m_active_nodes e = done ++ v :: rest →
  size fin = arity →
  processed done node →
  ∃ fin' node', eval_node (X := X) e inp v (fin, node) = Normal (fin', node') ∧
                size fin' = arity ∧ processed (done ++ [v]) node'.
Proof.
  intros Hnodes Hfin Hproc.
  destruct active_node_facts as (Hs & Hrange & Hconn & _).
  assert (v ∈ m_active_nodes e) as Hv
    by (rewrite Hnodes; apply elem_of_app; right; by left).
  pose proof (Hrange v Hv) as Hvr.
  pose proof Hproc as [Hdom Hval].
  assert (∀ u, node_value e inp v u → processed (done ++ [v]) (<[v := u]> node))
    as Hinsert.
  { intros u Hu. split.
    - intros t. rewrite elem_of_app, list_elem_of_singleton, lookup_insert_is_Some.
      rewrite Hdom. destruct (decide (v = t)); naive_solver.
    - intros t u'. rewrite lookup_insert. case_decide; [|by apply Hval].
      intros [= <-]. by subst. }
  unfold eval_node. fold n. case_bool_decide as Hin.
  - destruct (at_index_is_Some inp v) as [u Hu]; [lia|].
    rewrite (subscript_Normal _ _ _ Hu). simpl. eexists _, _.
    split; [done|]. split; [done|].
    apply Hinsert. by apply value_input.
  - assert (n ≤ v) as Hge by lia.
    destruct (gather_spec (X := X) done fin node v Hproc Hfin Hv Hge)
      as (args & vals & Hrun & Hargs & Hvals).
    { intros t Ht Hlt. rewrite Hnodes in Hs, Ht.
      by eapply sorted_prefix_smaller. }
    fold arity x. rewrite Hrun. simpl.
    pose proof (consistent_within e Hconsistent) as Hwithin.
    destruct Hconsistent as [Hwf _ _].
    pose proof (wf_unsigned _ Hwf) as Hu. pose proof (wf_valid _ Hwf) as Hvt.
    pose proof (wf_fits _ Hwf) as Hf.
    pose proof (well_formed_bounds e Hwf) as Hb.
    destruct (function_gene _ _ _ _ _ _ _ _ _ _ Hu Hvt Hf Hb Hwithin v)
      as (fi & Hfi & Hfr); [lia|].
    subst n arity x w.
    rewrite (block_index_small _ _ _ _ _ _ _ v Hu Hvt Hf) by lia.
    rewrite (subscript_Normal _ _ _ Hfi). simpl.
    destruct (at_index_is_Some (m_f e) fi Hfr) as [k Hk].
    rewrite (subscript_Normal _ _ _ Hk). simpl.
    eexists _, _. split; [done|]. split.
    + unfold size. rewrite <- (Forall2_length _ _ _ Hvals),
        <- (Forall2_length _ _ _ Hargs), length_seqZ.
      unfold valid_topology in Hvt. lia.
    + apply Hinsert. by eapply value_internal.
Qed.

(** The forward pass over a prefix of the active nodes. *)
Lemma eval_nodes_prefix {X} (pre post : list Z) :
  m_active_nodes e = pre ++ post →
  ∃ fin node,
    eval_nodes (X := X) e inp pre (value_initialised arity, ∅)
      = Normal (fin, node) ∧
    processed pre node.
Proof.
  intros Hnodes. unfold eval_nodes.
  destruct (for_each_invariant (X := X)
    (λ done (st : list U * gmap Z U), size st.1 = arity ∧ processed done st.2)
    pre (eval_node e inp) (value_initialised arity, ∅))
    as ([fin node] & Hrun & _ & Hproc).
  - simpl. split.
    + destruct Hconsistent as [Hwf _ _]. pose proof (wf_valid _ Hwf) as Hv.
      unfold valid_topology in Hv. unfold value_initialised, size.
      rewrite length_replicate. subst arity. lia.
    + split.
      * intros t. rewrite lookup_empty. split; [by intros [? ?]|].
        intros Ht. by apply elem_of_nil in Ht.
      * intros t u. by rewrite lookup_empty.
  - intros done v rest [fin node] Hpre [Hfin Hproc]. simpl in Hfin, Hproc.
    destruct (eval_node_spec (X := X) done (rest ++ post) fin node v)
      as (fin' & node' & Hrun & Hfin' & Hproc'); [|done|done|].
    + by rewrite Hnodes, Hpre, <- app_assoc.
    + exists (fin', node'). by rewrite Hrun.
  - by exists fin, node.
Qed.
End Evaluation.

Lemma at_index_snoc {A} (v : list A) (a : A) (q : Z) :
  0 ≤ q →
  at_index (v ++ [a]) q
  = if bool_decide (q = size v) then Some a else at_index v q.
Proof.
  intros Hq. rewrite !at_index_lookup by done. unfold size.
  case_bool_decide as Heq.
  - rewrite lookup_app_r by lia.
    replace (Z.to_nat q - length v)%nat with 0%nat by lia. done.
  - destruct (decide (Z.to_nat q < length v)%nat).
    + by rewrite lookup_app_l.
    + rewrite !lookup_ge_None_2; [done|lia|rewrite length_app; simpl; lia].
Qed.

Section Call.
Context {E : Type} `{!RandomEngine E} {U : Type} `{!Inhabited U}.
Implicit Type e : @expression E U.

(** Reading the outputs finds every target in the map. *)
Lemma read_outputs_spec {X} e (inp : list U) (node : gmap Z U) :
  consistent e → size inp = m_n e →
  (∀ t, is_Some (node !! t) ↔ t ∈ m_active_nodes e) →
  (∀ t u, node !! t = Some u → node_value e inp t u) →
  ∃ out, for_each (X := X) (seqZ 0 (m_m e)) (read_output e)
           (value_initialised (m_m e), node)
           = Normal (out, node) ∧
    size out = m_m e ∧
    ∀ q, 0 ≤ q < m_m e →
      ∃ t u, at_index (m_x e) ((m_arity e + 1) * m_r e * m_c e + q) = Some t ∧
             at_index out q = Some u ∧ node_value e inp t u.
Proof.
  intros Hc Hinp Hdom Hval.
  destruct (active_node_facts e Hc) as (_ & _ & _ & Hout).
  destruct Hc as [Hwf _ _].
  pose proof (wf_unsigned _ Hwf) as Hu. pose proof (wf_valid _ Hwf) as Hvt.
  pose proof (wf_fits _ Hwf) as Hf.
  pose proof (topology_facts _ _ _ _ _ _ _ Hu Hvt Hf)
    as (?&?&?&?&?&?&?&?&?&?&?&?&?&?&HB&?).
  destruct (for_range_invariant (X := X)
    (λ q0 st, st.2 = node ∧ ∃ out,
       st.1 = out ++ drop (Z.to_nat q0) (value_initialised (m_m e)) ∧
       size out = q0 ∧
       ∀ q, 0 ≤ q < q0 →
         ∃ t u, at_index (m_x e) ((m_arity e + 1) * m_r e * m_c e + q) = Some t ∧
                at_index out q = Some u ∧ node_value e inp t u)
    0 (m_m e) (read_output e) (value_initialised (m_m e), node))
    as ([res node'] & Hrun & Hnode & out & Hres & Hsz & Hall).
  - lia.
  - split; [done|]. exists []. rewrite drop_0.
    split; [done|]. split; [done|]. intros; lia.
  - intros q [cur nd] Hq (Hnd & ret & Hcur & Hsz & Hall). simpl in *.
    subst nd cur.
    assert (size (value_initialised (U := U) (m_m e)) = m_m e) as Hinit
      by (unfold value_initialised, size; rewrite length_replicate; lia).
    destruct (Hout q) as (t & Ht & Hta); [lia|].
    unfold read_output.
    rewrite (output_index_small' _ _ _ _ _ _ _ Hu Hvt Hf) by lia.
    rewrite (subscript_Normal _ _ _ Ht). simpl.
    destruct (proj2 (Hdom t) Hta) as [u Hu'].
    unfold map_subscript. rewrite Hu'.
    rewrite assign_fill by lia. simpl.
    eexists. split; [done|]. simpl. split; [done|].
    exists (ret ++ [u]). split; [done|].
    split; [rewrite size_app; unfold size at 2; simpl; lia|].
    intros q' Hq'. rewrite at_index_snoc by lia. case_bool_decide as Heq.
    + subst q'. rewrite Hsz. exists t, u. rewrite HB. split; [done|].
      split; [done|]. by apply Hval.
    + apply Hall. lia.
  - simpl in Hnode, Hres. subst node' res.
    rewrite Z.add_0_l in Hsz, Hall, Hrun.
    rewrite drop_ge, app_nil_r in Hrun
      by (unfold value_initialised; rewrite length_replicate; lia).
    by exists out.
Qed.

(** The call operator on a consistent instance. *)
Lemma call_spec e (inp : list U) :
  consistent e → size inp = m_n e →
  ∃ out, call e inp = Normal out ∧ size out = m_m e ∧
    ∀ q, 0 ≤ q < m_m e →
      ∃ t u, at_index (get e) ((m_arity e + 1) * m_r e * m_c e + q) = Some t ∧
             at_index out q = Some u ∧ node_value e inp t u.
Proof.
  intros Hc Hinp. unfold call, get.
  rewrite bool_decide_eq_false_2 by (intros ?; done).
  destruct (eval_nodes_prefix e inp Hc Hinp (X := exn) (m_active_nodes e) [])
    as (fin & node & Hrun & Hdom & Hval); [by rewrite app_nil_r|].
  cbv zeta. rewrite Hrun. simpl.
  destruct (read_outputs_spec (X := exn) e inp node Hc Hinp Hdom Hval)
    as (out & Hrun' & Hsz & Hall).
  rewrite Hrun'. simpl. by exists out.
Qed.

(** C10: in a consistent instance the active nodes are strictly increasing,
    and when the forward pass of the evaluation reaches an internal node
    [v], every connection gene of [v] holds an active node with a smaller
    id whose value is in the node map: that far the map holds exactly the
    active nodes that precede [v], so the lookup of a predecessor finds its
    value and inserts nothing. *)
Theorem C10_predecessors_are_already_stored e (inp : list U)
    (pre post : list Z) (v : Z) :
  consistent e → size inp = m_n e →
  get_active_nodes e = pre ++ v :: post → m_n e ≤ v →
  StronglySorted Z.lt (get_active_nodes e) ∧
  ∃ function_in node,
    eval_nodes (X := exn) e inp pre (value_initialised (m_arity e), ∅)
      = Normal (function_in, node) ∧
    (∀ t, is_Some (node !! t) ↔ t ∈ pre) ∧
    ∀ i, 1 ≤ i ≤ m_arity e →
      ∃ t u, at_index (get e) ((v - m_n e) * (m_arity e + 1) + i) = Some t ∧
             t ∈ get_active_nodes e ∧ t < v ∧ t ∈ pre ∧
             node !! t = Some u ∧ map_subscript node t = (u, node).
Proof.
  unfold get, get_active_nodes. intros Hc Hinp Hnodes Hge.
  destruct (active_node_facts e Hc) as (Hs & _ & Hconn & _).
  split; [done|].
  destruct (eval_nodes_prefix e inp Hc Hinp (X := exn) pre (v :: post) Hnodes)
    as (fin & node & Hrun & Hdom & Hval).
  exists fin, node. split; [done|]. split; [done|]. intros i Hi.
  destruct (Hconn v i) as (t & Ht & Htv & Hta); [|done|done|].
  { rewrite Hnodes. apply elem_of_app. right. by left. }
  assert (t ∈ pre) as Hpre.
  { rewrite Hnodes in Hs, Hta. eapply sorted_prefix_smaller; [done|done|lia]. }
  destruct (proj2 (Hdom t) Hpre) as [u Hu].
  exists t, u. repeat split; try done; try lia.
  unfold map_subscript. by rewrite Hu.
Qed.
End Call.

(** The witness: the internal node 2 of the scenario, reached after the two
    input nodes. *)
Lemma C10_predecessors_are_already_stored_witness :
  StronglySorted Z.lt [0; 1; 2] ∧
  ∃ function_in node,
    eval_nodes (X := exn) (scenario [0; 0; 1; 2] [0; 1; 2] [0; 1; 2; 3] [])
      [2%float; 3%float] [0; 1] (value_initialised 2, ∅)
      = Normal (function_in, node) ∧
    (∀ t, is_Some (node !! t) ↔ t ∈ [0; 1]) ∧
    ∀ i, 1 ≤ i ≤ 2 →
      ∃ t u, at_index [0; 0; 1; 2] ((2 - 2) * (2 + 1) + i) = Some t ∧
             t ∈ [0; 1; 2] ∧ t < 2 ∧ t ∈ [0; 1] ∧
             node !! t = Some u ∧ map_subscript node t = (u, node).
Proof.
  apply (C10_predecessors_are_already_stored
           (scenario [0; 0; 1; 2] [0; 1; 2] [0; 1; 2; 3] [])
           [2%float; 3%float] [0; 1] [] 2).
  - apply scenario_consistent.
  - reflexivity.
  - reflexivity.
  - simpl. lia.
Defined.

(** C4: an input sequence whose length differs from [n] makes the call throw
    the invalid-input exception, whatever the instance holds (no node is
    looked at); on a consistent instance an input sequence of length [n]
    yields [m] values, the [q]-th being the value of the node the [q]-th
    output gene holds; and on [n = 2, m = 1, r = 1, c = 1, l = 1, arity = 2]
    with the basis function add, setting the chromosome [0 0 1 2] gives the
    active nodes [0 1 2] and the active genes [0 1 2 3], and the inputs
    [2.0, 3.0] evaluate to [5.0]. *)
Theorem C4_call_evaluates_the_outputs :
  (∀ (E : Type) (RE : RandomEngine E) (U : Type) (IU : Inhabited U)
     (e : @expression E U) (inp : list U),
     size inp ≠ m_n e →
     call e inp = Thrown (invalid_argument "Input size is incompatible")) ∧
  (∀ (E : Type) (RE : RandomEngine E) (U : Type) (IU : Inhabited U)
     (e : @expression E U) (inp : list U),
     consistent e → size inp = m_n e →
     ∃ out, call e inp = Normal out ∧ size out = m_m e ∧
       ∀ q, 0 ≤ q < m_m e →
         ∃ t u, at_index (get e) ((m_arity e + 1) * m_r e * m_c e + q) = Some t ∧
                at_index out q = Some u ∧ node_value e inp t u) ∧
  (∀ x0 nodes genes script,
     set 2 [0; 0; 1; 2] (scenario x0 nodes genes script)
       = Normal (scenario [0; 0; 1; 2] [0; 1; 2] [0; 1; 2; 3] script) ∧
     call (scenario [0; 0; 1; 2] [0; 1; 2] [0; 1; 2; 3] script)
          [2%float; 3%float]
       = Normal [5%float]).
Proof.
  split; [|split].
  - intros E RE U IU e inp Hne. unfold call.
    by rewrite bool_decide_eq_true_2.
  - intros E RE U IU e inp. apply call_spec.
  - intros x0 nodes genes script. split; reflexivity.
Qed.

(** The witness: the scenario evaluated on two inputs. *)
Lemma C4_call_evaluates_the_outputs_witness :
  ∃ out,
    call (scenario [0; 0; 1; 2] [0; 1; 2] [0; 1; 2; 3] [])
         [2%float; 3%float] = Normal out ∧
    size out = 1 ∧
    ∀ q, 0 ≤ q < 1 →
      ∃ t u, at_index [0; 0; 1; 2] ((2 + 1) * 1 * 1 + q) = Some t ∧
             at_index out q = Some u ∧
             node_value (scenario [0; 0; 1; 2] [0; 1; 2] [0; 1; 2; 3] [])
               [2%float; 3%float] t u.
Proof.
  apply (proj1 (proj2 C4_call_evaluates_the_outputs) (list Z) _ float _
           (scenario [0; 0; 1; 2] [0; 1; 2] [0; 1; 2; 3] [])
           [2%float; 3%float]).
  - apply scenario_consistent.
  - reflexivity.
Defined.


(** ** Construction *)

Section Ordered.
Variables n m r c l arity fsize : Z.
Variables lb ub : list Z.
Hypothesis Hunsigned : unsigned_topology n m r c l arity.
Hypothesis Hvalid : valid_topology n m r c l arity fsize.
Hypothesis Hfits : fits n m r c arity.
Hypothesis Hbounds : bounds_spec n m r c l arity fsize lb ub.

(** Every gene has a non-empty interval of legal values. *)
Lemma bounds_ordered g :
  0 ≤ g < (arity + 1) * r * c + m →
  ∃ lo hi, at_index lb g = Some lo ∧ at_index ub g = Some hi ∧ 0 ≤ lo ≤ hi.
Proof.
  intros Hg.
  pose proof (topology_facts n m r c l arity fsize Hunsigned Hvalid Hfits) as
    (?&?&?&?&?&?&?&?&?&?&?&?&?&?&HB&?).
  set (w := arity + 1) in *. rewrite HB in Hg.
  destruct (decide (w * (r * c) ≤ g)) as [Hout|Hin].
  - destruct (bs_output _ _ _ _ _ _ _ _ _ Hbounds (g - w * (r * c)))
      as [Hlb Hub]; [lia|].
    fold w in Hlb, Hub. rewrite HB in Hlb, Hub.
    replace (w * (r * c) + (g - w * (r * c))) with g in Hlb, Hub by lia.
    eexists _, _. split; [done|]. split; [done|].
    pose proof (grid_column_le' r c (c - l)).
    case_bool_decide; lia.
  - pose proof (Z.div_mod g w ltac:(lia)) as Hdm.
    pose proof (Z.mod_pos_bound g w ltac:(lia)) as Hmod.
    assert (0 ≤ g / w) by (apply Z.div_pos; lia).
    assert (g / w < r * c) by (apply Z.div_lt_upper_bound; lia).
    destruct (decide (g mod w = 0)) as [Hz|Hnz].
    + destruct (bs_function _ _ _ _ _ _ _ _ _ Hbounds (g / w)) as [Hlb Hub];
        [lia|].
      fold w in Hlb, Hub.
      replace (g / w * w) with g in Hlb, Hub by lia.
      eexists _, _. split; [done|]. split; [done|].
      pose proof (wrap_range (fsize - 1)). lia.
    + destruct (node_grid n m r c l arity fsize Hunsigned Hvalid Hfits (g / w))
        as (i & j & Hi & Hj & Hp); [lia|].
      destruct (bs_connection _ _ _ _ _ _ _ _ _ Hbounds i j (g mod w - 1))
        as [Hlb Hub]; [done|done|lia|].
      fold w in Hlb, Hub. rewrite <- Hp in Hlb, Hub.
      replace (g / w * w + (g mod w - 1) + 1) with g in Hlb, Hub by lia.
      eexists _, _. split; [done|]. split; [done|].
      pose proof (grid_column_le' r c (i - l)).
      pose proof (grid_column_le r c i).
      assert (r * (i - l) = i * r - r * l) by ring.
      assert (1 ≤ r * l) by nia.
      case_bool_decide; lia.
Qed.
End Ordered.

Section RandomGenes.
Context {X : Type} `{RandomEngine E}.

(** The constructor's initialisation loop draws every gene within its
    bounds. *)
Lemma random_genes_spec (lb ub : list Z) (len : Z) (seed : E) :
  0 ≤ len → size lb = len → size ub = len →
  (∀ g, 0 ≤ g < len →
     ∃ lo hi, at_index lb g = Some lo ∧ at_index ub g = Some hi ∧ lo ≤ hi) →
  ∃ x g,
    for_each (seqZ 0 len) (random_gene (X := X) lb ub)
      (replicate (Z.to_nat len) 0, seed) = Normal (x, g) ∧
    genes_within lb ub x.
Proof.
  intros Hlen Hlb Hub Hord.
  destruct (for_range_invariant (X := X)
    (λ i (st : list Z * E), size st.1 = len ∧
       ∀ j xj, 0 ≤ j < i → at_index st.1 j = Some xj →
         ∃ lo hi, at_index lb j = Some lo ∧ at_index ub j = Some hi ∧
                  lo ≤ xj ≤ hi)
    0 len (random_gene lb ub) (replicate (Z.to_nat len) 0, seed))
    as ([x g] & Hrun & Hsize & Hin); [done| | |].
  - split; [|intros; lia].
    simpl. unfold size. rewrite length_replicate. lia.
  - intros i [x g] Hi [Hsize Hin]. simpl in Hsize, Hin.
    destruct (Hord i) as (lo & hi & Hlo & Hhi & Hle); [lia|].
    unfold random_gene.
    rewrite (subscript_Normal _ _ _ Hlo). simpl.
    rewrite (subscript_Normal _ _ _ Hhi). simpl.
    unfold draw. rewrite bool_decide_true by done. simpl.
    pose proof (uniform_int_range lo hi g Hle) as Hrange.
    destruct (uniform_int lo hi g) as [v g']. simpl in Hrange.
    rewrite assign_Normal by lia. simpl.
    eexists. split; [done|]. simpl. split; [by rewrite size_insert|].
    intros j xj Hj Hxj.
    destruct (decide (j = i)) as [->|Hne].
    + rewrite at_index_insert_eq in Hxj by lia. simplify_eq. eauto.
    + rewrite at_index_insert_ne in Hxj by lia. apply (Hin j); [lia|done].
  - exists x, g. split; [done|]. simpl in *. split; [lia|].
    intros j xj Hxj. apply (Hin j); [|done].
    apply at_index_Some_range in Hxj. lia.
Qed.
End RandomGenes.

Section Construct.
Context {E : Type} `{!RandomEngine E} {U : Type} `{!Inhabited U}.
Implicit Type e : @expression E U.

Lemma construct_spec (fuel : nat) (n m r c l arity : Z) (f : list (@kernel U))
    (seed : E) :
  unsigned_topology n m r c l arity →
  valid_topology n m r c l arity (size f) →
  fits n m r c arity →
  (Z.to_nat (r * c) < fuel)%nat →
  ∃ e, construct fuel n m r c l arity f seed = Normal e ∧
    m_n e = n ∧ m_m e = m ∧ m_r e = r ∧ m_c e = c ∧ m_l e = l ∧
    m_arity e = arity ∧ m_f e = f ∧
    bounds_spec n m r c l arity (size f) (m_lb e) (m_ub e) ∧
    genes_within (m_lb e) (m_ub e) (m_x e) ∧
    consistent e.
Proof.
  intros Hu Hv Hf Hfuel.
  pose proof (topology_facts n m r c l arity (size f) Hu Hv Hf)
    as (?&?&?&?&?&?&?&?&?&?&?&?&?&?&HB&?).
  destruct (gene_bounds_spec (X := exn) fuel n m r c l arity (size f) Hu Hv Hf)
    as (lb & ub & Hgb & Hbs); [lia|].
  assert (size f ≠ 0) by (unfold valid_topology in Hv; lia).
  unfold construct.
  rewrite !bool_decide_false by lia.
  rewrite Hgb. simpl.
  rewrite (length_small n m r c l arity (size f) Hu Hv Hf).
  destruct (random_genes_spec (X := exn) lb ub
              ((arity + 1) * (r * c) + m) seed)
    as (x & g & Hrun & Hwithin).
  - lia.
  - rewrite (bs_size_lb _ _ _ _ _ _ _ _ _ Hbs). lia.
  - rewrite (bs_size_ub _ _ _ _ _ _ _ _ _ Hbs). lia.
  - intros i Hi.
    destruct (bounds_ordered n m r c l arity (size f) lb ub Hu Hv Hf Hbs i)
      as (lo & hi & ? & ? & ?); [lia|].
    exists lo, hi. repeat split; [done|done|lia].
  - rewrite Hrun. simpl.
    set (e0 := mk_expression n m r c l arity f lb ub [] [] x g).
    assert (well_formed e0) as Hwf.
    { split; simpl; [done|done|done|]. by exists fuel. }
    destruct (update_active_spec (X := exn) fuel e0 Hwf Hwithin)
      as (nodes & Hupd & _); [simpl; lia|].
    rewrite Hupd. eexists. split; [reflexivity|]. simpl.
    split_and!; try done.
    by eapply (update_active_consistent (X := exn) fuel e0).
Qed.
End Construct.

(** C9, as stated, fails once the sizes leave the 32-bit unsigned range: the
    topology n = 2^32 - 1, m = 1, r = 1, c = 2, l = 2, arity = 2 with one
    basis function passes every check of the constructor, yet the bound
    loops wrap around and leave the output gene (index 6) with the lower
    bound 2^32 - 1 above the upper bound 0; the initialisation loop then
    draws from an empty interval. *)
Lemma C9_bounds_wrap_around :
  unsigned_topology 4294967295 1 1 2 2 2 ∧
  valid_topology 4294967295 1 1 2 2 2 (size [add_kernel]) ∧
  (∃ lb ub lo hi,
     gene_bounds (X := exn) 2 4294967295 1 1 2 2 2 (size [add_kernel])
       = Normal (lb, ub) ∧
     at_index lb 6 = Some lo ∧ at_index ub 6 = Some hi ∧ ¬ lo ≤ hi) ∧
  construct 3 4294967295 1 1 2 2 2 [add_kernel] ([] : list Z) = Undefined.
Proof.
  split; [repeat split; rewrite ?modulus_eq; lia|].
  split; [repeat split; unfold size; simpl; lia|].
  split; [|vm_compute; reflexivity].
  eexists _, _, 4294967295, 0.
  split; [vm_compute; reflexivity|].
  split; [reflexivity|]. split; [reflexivity|]. lia.
Qed.

(** C9 (amended): for every valid topology (n, m, r, c, l >= 1, arity >= 2,
    non-empty function set) whose sizes fit the 32-bit unsigned type
    (n + r*c <= 2^32 and (arity+1)*r*c + m < 2^32), the constructor
    returns an instance whose lb, ub and chromosome all have length
    (arity+1)*r*c + m, where lb[i] <= ub[i] holds for every index i (the
    boundary columns i = 0 and i = l and the output genes included), and
    where a connection gene of a node in column i has the bounds
    ub = n + i*r - 1 and lb = n + r*(i-l) if i >= l, else 0. *)
Theorem C9_constructed_bounds {E : Type} `{!RandomEngine E} {U : Type}
    `{!Inhabited U} (fuel : nat) (n m r c l arity : Z)
    (f : list (@kernel U)) (seed : E) :
  unsigned_topology n m r c l arity →
  valid_topology n m r c l arity (size f) →
  fits n m r c arity →
  (Z.to_nat (r * c) < fuel)%nat →
  ∃ e, construct fuel n m r c l arity f seed = Normal e ∧
    size (get_lb e) = (arity + 1) * r * c + m ∧
    size (get_ub e) = (arity + 1) * r * c + m ∧
    size (get e) = (arity + 1) * r * c + m ∧
    (∀ i, 0 ≤ i < (arity + 1) * r * c + m →
       ∃ lo hi, at_index (get_lb e) i = Some lo ∧
                at_index (get_ub e) i = Some hi ∧ lo ≤ hi) ∧
    (∀ i j k, 0 ≤ i < c → 0 ≤ j < r → 1 ≤ k ≤ arity →
       at_index (get_ub e) ((i * r + j) * (arity + 1) + k)
         = Some (n + i * r - 1) ∧
       at_index (get_lb e) ((i * r + j) * (arity + 1) + k)
         = Some (if bool_decide (l ≤ i) then n + r * (i - l) else 0)).
Proof.
  intros Hu Hv Hf Hfuel.
  destruct (construct_spec fuel n m r c l arity f seed Hu Hv Hf Hfuel)
    as (e & Hrun & _ & _ & _ & _ & _ & _ & _ & Hbs & [Hsize _] & _).
  exists e. split; [done|]. unfold get_lb, get_ub, get.
  pose proof (bs_size_lb _ _ _ _ _ _ _ _ _ Hbs) as Hlb.
  pose proof (bs_size_ub _ _ _ _ _ _ _ _ _ Hbs) as Hub.
  split_and!; [done|done|lia| |].
  - intros i Hi.
    destruct (bounds_ordered n m r c l arity (size f) _ _ Hu Hv Hf Hbs i Hi)
      as (lo & hi & ? & ? & ?).
    exists lo, hi. split_and!; [done|done|lia].
  - intros i j k Hi Hj Hk.
    destruct (bs_connection _ _ _ _ _ _ _ _ _ Hbs i j (k - 1)) as [Hl Hh];
      [done|done|lia|].
    replace ((i * r + j) * (arity + 1) + (k - 1) + 1)
      with ((i * r + j) * (arity + 1) + k) in Hl, Hh by lia.
    done.
Qed.

Lemma C9_constructed_bounds_witness :
  ∃ e, construct 2 2 1 1 1 1 2 [add_kernel] ([] : list Z) = Normal e ∧
    size (get_lb e) = (2 + 1) * 1 * 1 + 1 ∧
    size (get_ub e) = (2 + 1) * 1 * 1 + 1 ∧
    size (get e) = (2 + 1) * 1 * 1 + 1 ∧
    (∀ i, 0 ≤ i < (2 + 1) * 1 * 1 + 1 →
       ∃ lo hi, at_index (get_lb e) i = Some lo ∧
                at_index (get_ub e) i = Some hi ∧ lo ≤ hi) ∧
    (∀ i j k, 0 ≤ i < 1 → 0 ≤ j < 1 → 1 ≤ k ≤ 2 →
       at_index (get_ub e) ((i * 1 + j) * (2 + 1) + k)
         = Some (2 + i * 1 - 1) ∧
       at_index (get_lb e) ((i * 1 + j) * (2 + 1) + k)
         = Some (if bool_decide (1 ≤ i) then 2 + 1 * (i - 1) else 0)).
Proof.
  apply (C9_constructed_bounds 2 2 1 1 1 1 2 [add_kernel] ([] : list Z)).
  - repeat split; rewrite ?modulus_eq; lia.
  - repeat split; unfold size; simpl; lia.
  - split; rewrite ?modulus_eq; lia.
  - simpl. lia.
Defined.


(** ** Mutations of the active genes *)

Lemma at_index_app_l {A} (v1 v2 : list A) (i : Z) :
  i < size v1 → at_index (v1 ++ v2) i = at_index v1 i.
Proof.
  unfold at_index, size. intros. case_bool_decide; [|done].
  apply lookup_app_l. lia.
Qed.

Lemma size_gene_block (n arity v : Z) :
  0 ≤ arity → size (gene_block n arity v) = arity + 1.
Proof.
  intros. unfold size, gene_block. rewrite length_fmap, length_seqZ. lia.
Qed.

Lemma internal_genes_cons (n arity v : Z) (nodes : list Z) :
  internal_genes n arity (v :: nodes)
  = (if bool_decide (n ≤ v) then gene_block n arity v else [])
    ++ internal_genes n arity nodes.
Proof. reflexivity. Qed.

Lemma elem_of_internal_genes (n arity : Z) (nodes : list Z) (a : Z) :
  a ∈ internal_genes n arity nodes ↔
  ∃ v j, v ∈ nodes ∧ n ≤ v ∧ 0 ≤ j ≤ arity ∧ a = (v - n) * (arity + 1) + j.
Proof.
  unfold internal_genes. rewrite list_elem_of_bind. split.
  - intros (v & Ha & Hv). case_bool_decide; [|by apply elem_of_nil in Ha].
    unfold gene_block in Ha. apply list_elem_of_fmap in Ha as (j & -> & Hj).
    apply elem_of_seqZ in Hj. exists v, j. split_and!; [done|done|lia|lia|done].
  - intros (v & j & Hv & Hn & Hj & ->). exists v. split; [|done].
    rewrite bool_decide_eq_true_2 by done. unfold gene_block.
    apply list_elem_of_fmap. exists j. split; [done|].
    apply elem_of_seqZ. lia.
Qed.

(** The non-output active genes of an ascending list of node ids below
    [hi]: at most one block for each internal id. *)
Lemma size_internal_genes_le (n arity hi : Z) (nodes : list Z) (lo : Z) :
  0 ≤ arity →
  StronglySorted Z.lt nodes →
  (∀ v, v ∈ nodes → lo ≤ v < hi) →
  0 ≤ size (internal_genes n arity nodes)
    ≤ (arity + 1) * Z.max 0 (hi - Z.max lo n).
Proof.
  intros Ha Hs. revert lo. induction Hs as [|v nodes Hs IH Hall];
    intros lo Hrange.
  - unfold size. simpl. nia.
  - rewrite internal_genes_cons, size_app.
    rewrite Forall_forall in Hall.
    destruct (IH (v + 1)) as [IH1 IH2].
    { intros u Hu. specialize (Hall u Hu).
      specialize (Hrange u ltac:(by right)). lia. }
    specialize (Hrange v ltac:(by left)).
    case_bool_decide.
    + rewrite size_gene_block by done.
      rewrite (Z.max_l (v + 1) n) in IH2 by lia.
      assert ((arity + 1) * Z.max 0 (hi - (v + 1)) + (arity + 1)
              = (arity + 1) * (hi - v)) as Heq by (rewrite Z.max_r; lia).
      assert ((arity + 1) * (hi - v)
              ≤ (arity + 1) * Z.max 0 (hi - Z.max lo n))
        by (apply Z.mul_le_mono_nonneg_l; lia).
      lia.
    + change (size (@nil Z)) with 0.
      rewrite (Z.max_r (v + 1) n) in IH2 by lia.
      rewrite (Z.max_r lo n) by lia. lia.
Qed.

(** The start of the block of gene [(v - n) * w + j]. *)
Lemma block_start (w p j : Z) :
  0 ≤ j < w → (p * w + j) mod w = j.
Proof.
  intros. rewrite Z.add_comm, Z_mod_plus_full. by apply Z.mod_small.
Qed.

Section ActiveMutation.
Context {E : Type} `{!RandomEngine E} {U : Type} `{!Inhabited U}.
Implicit Type e : @expression E U.

(** In a consistent state the non-output active genes come first, and
    their number fits the unsigned type. *)
Lemma active_genes_split e :
  consistent e →
  m_active_genes e
    = internal_genes (m_n e) (m_arity e) (m_active_nodes e) ++
      output_genes (m_m e) (m_r e) (m_c e) (m_arity e) ∧
  size (m_active_genes e)
    = size (internal_genes (m_n e) (m_arity e) (m_active_nodes e)) + m_m e ∧
  0 ≤ size (internal_genes (m_n e) (m_arity e) (m_active_nodes e))
    ≤ (m_arity e + 1) * (m_r e * m_c e) ∧
  size (m_active_genes e) < modulus.
Proof.
  intros Hc.
  destruct (consistent_active e Hc) as (Hs & _ & Hgenes).
  destruct (active_node_facts e Hc) as (_ & Hrange & _).
  destruct Hc as [Hwf _ _].
  pose proof (topology_facts _ _ _ _ _ _ _ (wf_unsigned _ Hwf)
                (wf_valid _ Hwf) (wf_fits _ Hwf))
    as (?&?&?&?&?&?&?&?&?&?&?&?&?&?&?&?).
  pose proof (size_internal_genes_le (m_n e) (m_arity e)
                (m_n e + m_r e * m_c e) (m_active_nodes e) 0
                ltac:(lia) Hs Hrange) as Hsize.
  rewrite (Z.max_r 0 (m_n e)) in Hsize by lia.
  replace (m_n e + m_r e * m_c e - m_n e) with (m_r e * m_c e) in Hsize
    by lia.
  rewrite Z.max_r in Hsize by lia.
  split; [done|]. rewrite Hgenes at 1 2.
  rewrite size_app, size_output_genes by lia. split; [done|].
  split; [done|]. lia.
Qed.

(** The gene an index below the output genes selects: a gene of the block
    of an active internal node; the arithmetic that maps it to the start
    of the block, and from there to a connection gene, does not wrap. *)
Lemma pick_active_gene e (k : Z) :
  consistent e →
  0 ≤ k ≤ size (m_active_genes e) - 1 - m_m e →
  ∃ a v j,
    at_index (m_active_genes e) k = Some a ∧
    v ∈ m_active_nodes e ∧ m_n e ≤ v < m_n e + m_r e * m_c e ∧
    0 ≤ j ≤ m_arity e ∧
    a = (v - m_n e) * (m_arity e + 1) + j ∧
    a < (m_arity e + 1) * m_r e * m_c e ∧
    a ⊖ a mod (m_arity e ⊕ 1) = (v - m_n e) * (m_arity e + 1) ∧
    ∀ j', 0 ≤ j' ≤ m_arity e →
      (v - m_n e) * (m_arity e + 1) ⊕ j' = (v - m_n e) * (m_arity e + 1) + j'.
Proof.
  intros Hc Hk.
  destruct (active_genes_split e Hc) as (Hgenes & Hsize & Hint & _).
  destruct (active_node_facts e Hc) as (_ & Hrange & _).
  destruct Hc as [Hwf _ _].
  pose proof (wf_unsigned _ Hwf) as Hu. pose proof (wf_valid _ Hwf) as Hv.
  pose proof (wf_fits _ Hwf) as Hf.
  pose proof (topology_facts _ _ _ _ _ _ _ Hu Hv Hf)
    as (?&?&?&?&?&?&?&?&?&?&?&?&?&?&HB&?).
  destruct (at_index_is_Some
              (internal_genes (m_n e) (m_arity e) (m_active_nodes e)) k)
    as [a Ha]; [lia|].
  pose proof (at_index_elem_of _ _ _ Ha) as Hin.
  apply elem_of_internal_genes in Hin as (v & j & Hv' & Hn & Hj & ->).
  specialize (Hrange v Hv').
  pose proof (grid_gene_range (m_arity e + 1) (m_r e * m_c e) (v - m_n e) j
                ltac:(lia) ltac:(lia)) as Hg.
  pose proof (grid_gene_range (m_arity e + 1) (m_r e * m_c e) (v - m_n e) 0
                ltac:(lia) ltac:(lia)) as Hg0.
  exists ((v - m_n e) * (m_arity e + 1) + j), v, j.
  split; [rewrite Hgenes, at_index_app_l by lia; done|].
  split_and!; [done|lia|lia|lia|lia|done|lia| |].
  - rewrite (width_small _ _ _ _ _ _ _ Hu Hv Hf).
    rewrite block_start by lia. rewrite usub_small by lia. lia.
  - intros j' Hj'.
    pose proof (grid_gene_range (m_arity e + 1) (m_r e * m_c e) (v - m_n e) j'
                  ltac:(lia) ltac:(lia)).
    apply uadd_small. lia.
Qed.

(** What [mutate(idx)] does to an in-range gene of a consistent
    instance. *)
Lemma mutate_resamples (fuel : nat) (idx : Z) e :
  consistent e → 0 ≤ idx < size (m_x e) →
  resamples_gene fuel idx e (mutate fuel idx e).
Proof.
  intros Hc Hidx. unfold resamples_gene, get, get_lb, get_ub.
  destruct (gene_in_range e idx Hc Hidx)
    as (lo & hi & cur & Hlo & Hhi & Hcur & Hle).
  exists lo, hi, cur. split; [done|]. split; [done|]. split; [done|].
  unfold mutate. rewrite bool_decide_eq_false_2 by lia.
  split; [intros Hlt; split|].
  - intros e' Hrun.
    apply outcome_bind_Normal in Hrun as ([e1|] & Hgene & Hrun).
    + destruct (mutated_state fuel idx e e1 e' Hc Hgene Hrun)
        as (Hc' & lo' & hi' & cur' & v & Hlo' & Hhi' & Hcur' & _ & Hv & Hne
            & Hx).
      simplify_eq. exists v. rewrite Hx.
      split; [apply at_index_insert_eq; lia|]. split; [done|].
      split; [done|]. split; [|done]. intros j Hj.
      destruct (decide (0 ≤ j)) as [?|Hneg].
      * by apply at_index_insert_ne; lia.
      * unfold at_index. by rewrite !bool_decide_eq_false_2 by done.
    + apply mutate_gene_None in Hgene as (lo' & hi' & ? & ? & ?).
      simplify_eq. lia.
  - intros k Hacc Hk Hfuel.
    destruct (mutate_gene_terminates (X := exn * @expression E U)
                k fuel idx lo hi cur e) as (e1 & Hgene); try done.
    rewrite Hgene. simpl. by eapply recompute_returns.
  - intros ->.
    by rewrite (mutate_gene_fixed fuel idx hi hi e Hlo Hhi ltac:(lia)).
Qed.

(** C8: when the active genes are the m output genes only,
    mutate_active_fgene() and mutate_active_cgene() return without an
    exception and leave the whole object as it was; when there are more
    than m active genes, both draw an index uniformly among the non-output
    active genes, the gene it selects belongs to the block of an active
    internal node [v], and the call is mutate() on the first gene of that
    block, the function gene (fgene), or on the gene at a uniformly drawn
    offset 1..arity in the block, a connection gene (cgene): that gene is
    resampled to a different value within its bounds, every other gene
    keeps its value and the instance returned is consistent (when the
    gene has a single legal value nothing but the engine changes). *)
Theorem C8_mutate_active_fgene_cgene (fuel : nat) e :
  consistent e →
  (size (get_active_genes e) = m_m e →
     mutate_active_fgene fuel e = Normal e ∧
     mutate_active_cgene fuel e = Normal e) ∧
  (m_m e < size (get_active_genes e) →
     ∃ k g a v,
       uniform_int 0 (size (get_active_genes e) - 1 - m_m e) (m_e e) = (k, g) ∧
       0 ≤ k ≤ size (get_active_genes e) - 1 - m_m e ∧
       at_index (get_active_genes e) k = Some a ∧
       a < (m_arity e + 1) * m_r e * m_c e ∧
       v ∈ get_active_nodes e ∧ m_n e ≤ v ∧
       (v - m_n e) * (m_arity e + 1) ≤ a ≤ (v - m_n e) * (m_arity e + 1)
                                            + m_arity e ∧
       mutate_active_fgene fuel e
         = mutate fuel ((v - m_n e) * (m_arity e + 1)) (set_e e g) ∧
       resamples_gene fuel ((v - m_n e) * (m_arity e + 1)) (set_e e g)
         (mutate_active_fgene fuel e) ∧
       ∃ j g',
         uniform_int 1 (m_arity e) g = (j, g') ∧
         1 ≤ j ≤ m_arity e ∧
         mutate_active_cgene fuel e
           = mutate fuel ((v - m_n e) * (m_arity e + 1) + j) (set_e e g') ∧
         resamples_gene fuel ((v - m_n e) * (m_arity e + 1) + j) (set_e e g')
           (mutate_active_cgene fuel e)).
Proof.
  intros Hc. unfold get_active_genes, get_active_nodes. split.
  - intros Hsize. unfold mutate_active_fgene, mutate_active_cgene.
    by rewrite !bool_decide_eq_false_2 by lia.
  - intros Hsize.
    destruct (active_genes_split e Hc) as (_ & _ & _ & Hsmall).
    pose proof Hc as [Hwf _ _]. pose proof (wf_valid _ Hwf) as Hvt.
    unfold valid_topology in Hvt.
    pose proof (topology_facts _ _ _ _ _ _ _ (wf_unsigned _ Hwf)
                  (wf_valid _ Hwf) (wf_fits _ Hwf))
      as (?&?&?&?&?&?&?&?&?&?&?&?&?&?&HB&?).
    pose proof (consistent_within e Hc) as [Hsz _].
    pose proof (bs_size_lb _ _ _ _ _ _ _ _ _ (well_formed_bounds e Hwf)) as Hlb.
    assert (wrap (size (m_active_genes e) - 1 - m_m e)
            = size (m_active_genes e) - 1 - m_m e) as Hwrap
      by (apply wrap_small; lia).
    pose proof (uniform_int_range 0 (size (m_active_genes e) - 1 - m_m e)
                  (m_e e) ltac:(lia)) as Hk.
    destruct (uniform_int 0 (size (m_active_genes e) - 1 - m_m e) (m_e e))
      as [k g] eqn:Hdraw. simpl in Hk.
    destruct (pick_active_gene e k Hc Hk)
      as (a & v & j0 & Ha & Hv & Hvn & Hj0 & Heq & Hlt & Hstart & Hoff).
    pose proof (uniform_int_range 1 (m_arity e) g ltac:(lia)) as Hj.
    destruct (uniform_int 1 (m_arity e) g) as [j g'] eqn:Hdraw'.
    simpl in Hj.
    assert (mutate_active_fgene fuel e
            = mutate fuel ((v - m_n e) * (m_arity e + 1)) (set_e e g)) as Hf.
    { unfold mutate_active_fgene. rewrite bool_decide_eq_true_2 by done.
      unfold draw. rewrite Hwrap, bool_decide_eq_true_2 by lia.
      rewrite Hdraw. simpl.
      rewrite (subscript_Normal _ _ _ Ha). simpl. by rewrite Hstart. }
    assert (mutate_active_cgene fuel e
            = mutate fuel ((v - m_n e) * (m_arity e + 1) + j) (set_e e g'))
      as Hcg.
    { unfold mutate_active_cgene. rewrite bool_decide_eq_true_2 by done.
      unfold draw. rewrite Hwrap, bool_decide_eq_true_2 by lia.
      rewrite Hdraw. simpl.
      rewrite (subscript_Normal _ _ _ Ha). simpl.
      rewrite bool_decide_eq_true_2 by lia. rewrite Hdraw'. simpl.
      rewrite Hstart, Hoff by lia. done. }
    pose proof (grid_gene_range (m_arity e + 1) (m_r e * m_c e) (v - m_n e) 0
                  ltac:(lia) ltac:(lia)) as Hg0.
    pose proof (grid_gene_range (m_arity e + 1) (m_r e * m_c e) (v - m_n e) j
                  ltac:(lia) ltac:(lia)) as Hgj.
    exists k, g, a, v.
    split_and!; [done|lia|lia|done|done|done|lia|lia|lia|done| |].
    + rewrite Hf. apply mutate_resamples; [by apply consistent_set_e|].
      simpl. lia.
    + exists j, g'. split_and!; [done|lia|lia|done|].
      rewrite Hcg. apply mutate_resamples; [by apply consistent_set_e|].
      simpl. lia.
Qed.
End ActiveMutation.

Lemma scenario_two_consistent script :
  consistent (scenario_two [0; 0; 1; 2] [0; 1; 2] [0; 1; 2; 3] script).
Proof.
  split.
  - split.
    + repeat split; simpl; rewrite ?modulus_eq; lia.
    + repeat split; simpl; unfold size; simpl; lia.
    + split; simpl; rewrite ?modulus_eq; lia.
    + exists 1%nat. reflexivity.
  - reflexivity.
  - exists 2%nat. reflexivity.
Qed.

(** The witness: the grid with two kernels, whose node 2 is an active
    internal node with a function gene and two connection genes that are
    all free to change. *)
Lemma C8_mutate_active_fgene_cgene_witness :
  let e := scenario_two [0; 0; 1; 2] [0; 1; 2] [0; 1; 2; 3] [1; 1; 1] in
  (size (get_active_genes e) = m_m e →
     mutate_active_fgene 2 e = Normal e ∧
     mutate_active_cgene 2 e = Normal e) ∧
  (m_m e < size (get_active_genes e) →
     ∃ k g a v,
       uniform_int 0 (size (get_active_genes e) - 1 - m_m e) (m_e e) = (k, g) ∧
       0 ≤ k ≤ size (get_active_genes e) - 1 - m_m e ∧
       at_index (get_active_genes e) k = Some a ∧
       a < (m_arity e + 1) * m_r e * m_c e ∧
       v ∈ get_active_nodes e ∧ m_n e ≤ v ∧
       (v - m_n e) * (m_arity e + 1) ≤ a ≤ (v - m_n e) * (m_arity e + 1)
                                            + m_arity e ∧
       mutate_active_fgene 2 e
         = mutate 2 ((v - m_n e) * (m_arity e + 1)) (set_e e g) ∧
       resamples_gene 2 ((v - m_n e) * (m_arity e + 1)) (set_e e g)
         (mutate_active_fgene 2 e) ∧
       ∃ j g',
         uniform_int 1 (m_arity e) g = (j, g') ∧
         1 ≤ j ≤ m_arity e ∧
         mutate_active_cgene 2 e
           = mutate 2 ((v - m_n e) * (m_arity e + 1) + j) (set_e e g') ∧
         resamples_gene 2 ((v - m_n e) * (m_arity e + 1) + j) (set_e e g')
           (mutate_active_cgene 2 e)).
Proof.
  intros e. apply (C8_mutate_active_fgene_cgene 2 e).
  apply scenario_two_consistent.
Defined.

(** ** Mutation of several genes *)

(** C1: [mutate(idxs)] with an index beyond the chromosome does throw, but
    not before it has resampled the genes listed ahead of that index, and
    it leaves without the recomputation it had flagged: on the scenario,
    [mutate({1, 7})] throws with gene 1 changed from 0 to 1 and with the
    active nodes [0, 1, 2] of the former chromosome, where the recomputation
    gives [1, 2]. *)
Theorem C1_mutate_many_throws_after_mutating :
  consistent (scenario [0; 0; 1; 2] [0; 1; 2] [0; 1; 2; 3] [1]) ∧
  mutate_many 2 [1; 7] (scenario [0; 0; 1; 2] [0; 1; 2] [0; 1; 2; 3] [1])
    = Thrown (out_of_bounds,
              scenario [0; 1; 1; 2] [0; 1; 2] [0; 1; 2; 3] []) ∧
  update_active (X := exn) 2
    (scenario [0; 1; 1; 2] [0; 1; 2] [0; 1; 2; 3] [])
    = Normal (scenario [0; 1; 1; 2] [1; 2] [0; 1; 2; 3] []) ∧
  ¬ consistent (scenario [0; 1; 1; 2] [0; 1; 2] [0; 1; 2; 3] []) ∧
  mutate 2 7 (scenario [0; 0; 1; 2] [0; 1; 2] [0; 1; 2; 3] [1])
    = Thrown (out_of_bounds,
              scenario [0; 0; 1; 2] [0; 1; 2] [0; 1; 2; 3] [1]).
Proof.
  split; [apply scenario_consistent|].
  split; [reflexivity|]. split; [reflexivity|]. split; [|reflexivity].
  intros Hc. destruct (consistent_active _ Hc) as (_ & Hreach & _).
  assert (0 ∈ [0; 1; 2]) as H0 by set_solver.
  apply Hreach in H0. simpl in H0.
  assert (∀ a, reachable 2 1 1 1 2 [0; 1; 1; 2] a → a = 1 ∨ a = 2) as Hall.
  { intros a Ha. induction Ha as [a Ha|u v _ IH [Hu (i & Hi & Hedge)]].
    - vm_compute in Ha. set_solver.
    - destruct IH as [->| ->].
      + lia.
      + assert (i = 1 ∨ i = 2) as [->| ->] by lia;
          vm_compute in Hedge; simplify_eq; by left. }
  destruct (Hall 0 H0); lia.
Qed.

(** ** Mutation of active genes, one at a time *)

Section MutateActive.
Context {E : Type} `{!RandomEngine E} {U : Type} `{!Inhabited U}.
Implicit Type e : @expression E U.

(** Every active gene is a gene of the chromosome. *)
Lemma active_gene_in_range e (k idx : Z) :
  consistent e →
  at_index (m_active_genes e) k = Some idx →
  0 ≤ idx < size (m_x e).
Proof.
  intros Hc Hk.
  pose proof (at_index_Some_range _ _ _ Hk) as Hrange.
  destruct (active_genes_split e Hc) as (Hgenes & Hsize & Hint & _).
  pose proof (consistent_within e Hc) as Hwithin.
  pose proof Hc as [Hwf _ _].
  pose proof (chromosome_size _ _ _ _ _ _ _ _ _ _
                (well_formed_bounds e Hwf) Hwithin) as Hx.
  pose proof (topology_facts _ _ _ _ _ _ _ (wf_unsigned _ Hwf)
                (wf_valid _ Hwf) (wf_fits _ Hwf))
    as (?&?&?&?&?&?&?&?&?&?&?&?&?&?&HB&?).
  destruct (decide (k ≤ size (m_active_genes e) - 1 - m_m e)) as [Hlow|Hhigh].
  - destruct (pick_active_gene e k Hc ltac:(lia))
      as (a & v & j & Ha & _ & Hvn & Hj & Heq & Hlt & _).
    rewrite Hk in Ha. simplify_eq. rewrite Hx.
    pose proof (grid_gene_range (m_arity e + 1) (m_r e * m_c e) (v - m_n e) j
                  ltac:(lia) ltac:(lia)).
    lia.
  - apply at_index_elem_of in Hk. rewrite Hgenes in Hk.
    apply elem_of_app in Hk as [Hk|Hk].
    + apply elem_of_internal_genes in Hk as (v & j & Hv & Hn & Hj & ->).
      destruct (active_node_facts e Hc) as (_ & Hnodes & _).
      specialize (Hnodes v Hv).
      pose proof (grid_gene_range (m_arity e + 1) (m_r e * m_c e)
                    (v - m_n e) j ltac:(lia) ltac:(lia)).
      lia.
    + unfold output_genes in Hk.
      apply list_elem_of_fmap in Hk as (q & -> & Hq).
      apply elem_of_seqZ in Hq. lia.
Qed.

(** [mutate(idx)] keeps the topology and hands back a consistent state. *)
Lemma mutate_preserves (fuel : nat) (idx : Z) e e' :
  consistent e →
  mutate fuel idx e = Normal e' →
  consistent e' ∧ m_r e' = m_r e ∧ m_c e' = m_c e.
Proof.
  intros Hc Hrun. unfold mutate in Hrun. case_bool_decide; [done|].
  apply outcome_bind_Normal in Hrun as ([e1|] & Hgene & Hrun).
  - destruct (mutated_state fuel idx e e1 e' Hc Hgene Hrun) as [Hc' _].
    split; [done|].
    destruct (mutate_gene_Some _ _ _ _ Hgene)
      as (? & ? & ? & ? & ? & _ & _ & _ & _ & _ & _ & ->).
    destruct (update_active_inv _ _ _ Hrun) as (? & ? & ->). done.
  - by simplify_eq.
Qed.

(** With fuel for the active-set loop, [mutate(idx)] on an in-range gene
    never fails: it returns, unless the rejection loop uses up the fuel. *)
Lemma mutate_outcome (fuel : nat) (idx : Z) e :
  consistent e →
  0 ≤ idx < size (m_x e) →
  (Z.to_nat (m_r e * m_c e) < fuel)%nat →
  mutate fuel idx e = OutOfFuel ∨ ∃ e', mutate fuel idx e = Normal e'.
Proof.
  intros Hc Hidx Hfuel.
  destruct (gene_in_range e idx Hc Hidx) as (lo & hi & cur & Hlo & Hhi & Hcur & Hle).
  unfold mutate. rewrite bool_decide_eq_false_2 by lia.
  destruct (decide (lo < hi)) as [Hlt|Hge].
  - destruct (mutate_gene_free (X := exn * @expression E U)
                fuel idx lo hi cur e Hlo Hhi Hcur Hlt) as [Hout|[e1 Hgene]].
    + left. by rewrite Hout.
    + right. rewrite Hgene. simpl. by eapply recompute_returns.
  - right. exists e.
    by rewrite (mutate_gene_fixed fuel idx lo hi e Hlo Hhi ltac:(lia)).
Qed.

(** The interval [mutate_active] draws a position from. *)
Lemma active_draw_range e :
  consistent e →
  wrap (size (m_active_genes e) - 1) = size (m_active_genes e) - 1 ∧
  0 ≤ size (m_active_genes e) - 1.
Proof.
  intros Hc.
  destruct (active_genes_split e Hc) as (_ & Hsize & Hint & Hsmall).
  destruct Hc as [Hwf _ _]. pose proof (wf_valid _ Hwf) as Hv.
  unfold valid_topology in Hv.
  split; [apply wrap_small|]; lia.
Qed.

Lemma mutate_active_loop_spec (fuel : nat) (count : nat) e :
  consistent e →
  (Z.to_nat (m_r e * m_c e) < fuel)%nat →
  (mutate_active_loop fuel count e = OutOfFuel ∨
   ∃ e', mutate_active_loop fuel count e = Normal e') ∧
  (∀ e', mutate_active_loop fuel count e = Normal e' →
     mutation_steps fuel count e e' ∧ consistent e').
Proof.
  revert e. induction count as [|count IH]; intros e Hc Hfuel.
  - simpl. split; [right; by exists e|].
    intros e' ?. simplify_eq. split; [constructor|done].
  - cbn [mutate_active_loop].
    destruct (active_draw_range e Hc) as [Hwrap Hpos].
    unfold draw. rewrite Hwrap, bool_decide_eq_true_2 by done.
    pose proof (uniform_int_range 0 (size (m_active_genes e) - 1) (m_e e) Hpos)
      as Hk.
    destruct (uniform_int 0 (size (m_active_genes e) - 1) (m_e e))
      as [k g] eqn:Hdraw. simpl in Hk. simpl.
    destruct (at_index_is_Some (m_active_genes e) k) as [idx Hidx]; [lia|].
    rewrite (subscript_Normal _ _ _ Hidx). simpl.
    pose proof (consistent_set_e e g Hc) as Hc1.
    pose proof (active_gene_in_range (set_e e g) k idx Hc1 Hidx) as Hrange.
    destruct (mutate_outcome fuel idx (set_e e g) Hc1 Hrange Hfuel)
      as [Hout|[e1 Hrun]].
    + rewrite Hout. simpl. split; [by left|done].
    + rewrite Hrun. simpl.
      destruct (mutate_preserves fuel idx (set_e e g) e1 Hc1 Hrun)
        as (Hc2 & Hr & Hcol).
      destruct (IH e1 Hc2) as [Hprogress Hsteps].
      { rewrite Hr, Hcol. done. }
      split; [done|]. intros e' Hrest.
      destruct (Hsteps e' Hrest) as [Hst Hc'].
      split; [|done]. by eapply steps_next.
Qed.
End MutateActive.

(** C2, as stated, fails on the code: [mutate_active] calls [mutate(idx)]
    in each iteration, and that recomputes the active set at once.  With
    level-back 2 and the chromosome [0, 0, 0, 0] the only active gene is
    the output gene 3; [mutate_active(2)] first moves the output to node 2,
    the recomputation makes the genes 0, 1, 2 of that node active, and the
    second draw picks gene 1, which was not active when the call started. *)
Lemma C2_second_draw_sees_first_mutation :
  consistent (scenario_l2 [0; 0; 0; 0] [0] [3] [0; 2; 1; 1]) ∧
  get_active_genes (scenario_l2 [0; 0; 0; 0] [0] [3] [0; 2; 1; 1]) = [3] ∧
  mutate 3 3 (scenario_l2 [0; 0; 0; 0] [0] [3] [2; 1; 1])
    = Normal (scenario_l2 [0; 0; 0; 2] [0; 2] [0; 1; 2; 3] [1; 1]) ∧
  mutate_active 3 2 (scenario_l2 [0; 0; 0; 0] [0] [3] [0; 2; 1; 1])
    = Normal (scenario_l2 [0; 1; 0; 2] [0; 1; 2] [0; 1; 2; 3] []) ∧
  ¬ (∀ j, at_index [0; 1; 0; 2] j
            ≠ at_index (get (scenario_l2 [0; 0; 0; 0] [0] [3] [0; 2; 1; 1])) j →
          j ∈ get_active_genes
                (scenario_l2 [0; 0; 0; 0] [0] [3] [0; 2; 1; 1])).
Proof.
  split; [apply scenario_l2_consistent|].
  split; [reflexivity|]. split; [reflexivity|]. split; [reflexivity|].
  intros Hall. specialize (Hall 1 ltac:(done)).
  simpl in Hall. set_solver.
Qed.

(** C2 (amended): for every N >= 1, mutate_active(N) performs N mutations
    of one gene in sequence, each through mutate(idx), which recomputes the
    active set as soon as it has changed its gene: one recomputation per
    mutated gene, none batched; consequently the i-th gene index is drawn
    uniformly from the active_genes list as the iterations before it left
    it (the list of the start of the call for the first index only), and
    every intermediate state is a consistent state whose active genes the
    next draw uses.  The call never throws; it returns unless a rejection
    loop does not end. *)
Theorem C2_mutate_active_recomputes_per_gene {E : Type} `{!RandomEngine E}
    {U : Type} `{!Inhabited U} (fuel : nat) (N : Z) (e : @expression E U) :
  consistent e →
  (Z.to_nat (m_r e * m_c e) < fuel)%nat →
  (mutate_active fuel N e = OutOfFuel ∨
   ∃ e', mutate_active fuel N e = Normal e') ∧
  (∀ e', mutate_active fuel N e = Normal e' →
     mutation_steps fuel (Z.to_nat N) e e' ∧ consistent e').
Proof. intros Hc Hfuel. by apply mutate_active_loop_spec. Qed.

Lemma C2_mutate_active_recomputes_per_gene_witness :
  (mutate_active 3 2 (scenario_l2 [0; 0; 0; 0] [0] [3] [0; 2; 1; 1])
     = OutOfFuel ∨
   ∃ e', mutate_active 3 2 (scenario_l2 [0; 0; 0; 0] [0] [3] [0; 2; 1; 1])
         = Normal e') ∧
  (∀ e', mutate_active 3 2 (scenario_l2 [0; 0; 0; 0] [0] [3] [0; 2; 1; 1])
         = Normal e' →
     mutation_steps 3 (Z.to_nat 2)
       (scenario_l2 [0; 0; 0; 0] [0] [3] [0; 2; 1; 1]) e' ∧
     consistent e').
Proof.
  apply (C2_mutate_active_recomputes_per_gene 3 2
           (scenario_l2 [0; 0; 0; 0] [0] [3] [0; 2; 1; 1])).
  - apply scenario_l2_consistent.
  - simpl. lia.
Defined.


(** * Further properties of the class *)

(** ** [set] after [get] *)

Section RoundTrip.
Context {E : Type} `{!RandomEngine E} {U : Type} `{!Inhabited U}.
Implicit Type e : @expression E U.

(** Recomputing the active set of a consistent instance returns the
    instance itself. *)
Lemma update_active_current {X} (fuel : nat) e :
  consistent e →
  (Z.to_nat (m_r e * m_c e) < fuel)%nat →
  update_active (X := X) fuel e = Normal e.
Proof.
  intros Hc Hfuel.
  destruct (consistent_active e Hc) as (Hs & He & Hgenes).
  pose proof (consistent_within e Hc) as Hwithin.
  destruct Hc as [Hwf _ _].
  destruct (update_active_spec (X := X) fuel e Hwf Hwithin Hfuel)
    as (nodes & Hrun & Hs' & He').
  assert (nodes = m_active_nodes e) as ->.
  { apply StronglySorted_lt_ext; [done|done|]. intros a. by rewrite He, He'. }
  rewrite Hrun, <- Hgenes. by destruct e.
Qed.

(** X1: on a consistent instance [set(get())] is accepted and returns the
    instance exactly as it was: chromosome, active nodes, active genes and
    engine. *)
Theorem set_get_round_trip (fuel : nat) e :
  consistent e →
  (Z.to_nat (m_r e * m_c e) < fuel)%nat →
  set fuel (get e) e = Normal e.
Proof.
  intros Hc Hfuel. unfold set, get.
  pose proof (consistent_within e Hc) as Hwithin.
  pose proof Hc as [Hwf _ _].
  pose proof (well_formed_bounds e Hwf) as Hb.
  destruct (is_valid_spec (X := exn * @expression E U) e (m_x e))
    as (b & Hvalid & Hiff).
  { by rewrite (bs_size_lb _ _ _ _ _ _ _ _ _ Hb),
               (bs_size_ub _ _ _ _ _ _ _ _ _ Hb). }
  apply Hiff in Hwithin as ->. rewrite Hvalid. simpl.
  replace (set_x e (m_x e)) with e by (by destruct e).
  by apply update_active_current.
Qed.
End RoundTrip.

Lemma set_get_round_trip_witness :
  set 2 (get (scenario [0; 0; 1; 2] [0; 1; 2] [0; 1; 2; 3] [7]))
    (scenario [0; 0; 1; 2] [0; 1; 2] [0; 1; 2; 3] [7])
  = Normal (scenario [0; 0; 1; 2] [0; 1; 2] [0; 1; 2; 3] [7]).
Proof.
  apply (set_get_round_trip 2
           (scenario [0; 0; 1; 2] [0; 1; 2] [0; 1; 2; 3] [7])).
  - apply scenario_consistent.
  - simpl. lia.
Defined.

(** ** Batches of mutations *)

Section Batch.
Context {E : Type} `{!RandomEngine E} {U : Type} `{!Inhabited U}.
Implicit Type e : @expression E U.
Local Abbreviation method A := (outcome (exn * @expression E U) A).

Lemma consistent_within_state e : consistent e → within_state e.
Proof. intros Hc. split; [by destruct Hc|by apply consistent_within]. Qed.

Lemma within_state_set_e e g : within_state e → within_state (set_e e g).
Proof.
  intros [Hwf Hw]. split; [by apply well_formed_set_e|by destruct e].
Qed.

Lemma same_topology_refl e : same_topology e e.
Proof. by repeat split. Qed.

Lemma same_topology_trans e1 e2 e3 :
  same_topology e1 e2 → same_topology e2 e3 → same_topology e1 e3.
Proof.
  unfold same_topology. intros (?&?&?&?&?&?&?&?&?) (?&?&?&?&?&?&?&?&?).
  repeat split; congruence.
Qed.

(** One gene of a chromosome within the bounds: the resampling loop either
    does not end, or the gene has a single legal value and nothing happens,
    or the gene alone is rewritten, within its bounds. *)
Lemma mutate_gene_step {X} (fuel : nat) (idx : Z) e :
  within_state e →
  0 ≤ idx < size (m_x e) →
  mutate_gene (X := X) fuel idx e = OutOfFuel ∨
  (mutate_gene (X := X) fuel idx e = Normal None ∧
   at_index (m_lb e) idx = at_index (m_ub e) idx) ∨
  ∃ e1, mutate_gene (X := X) fuel idx e = Normal (Some e1) ∧
    within_state e1 ∧ same_topology e e1 ∧
    m_active_nodes e1 = m_active_nodes e ∧
    m_active_genes e1 = m_active_genes e ∧
    size (m_x e1) = size (m_x e) ∧
    ∀ j, j ≠ idx → at_index (m_x e1) j = at_index (m_x e) j.
Proof.
  intros [Hwf Hwithin] Hidx.
  destruct (at_index_is_Some (m_x e) idx Hidx) as [cur Hcur].
  destruct (proj2 Hwithin idx cur Hcur) as (lo & hi & Hlo & Hhi & Hle).
  destruct (decide (lo < hi)) as [Hlt|Hge].
  - destruct (mutate_gene_free (X := X) fuel idx lo hi cur e Hlo Hhi Hcur Hlt)
      as [Hout|[e1 Hgene]]; [by left|]. right. right. exists e1.
    split; [done|].
    destruct (mutate_gene_Some _ _ _ _ Hgene)
      as (lo' & hi' & cur' & v & g & Hlo' & Hhi' & Hcur' & _ & Hv & _ & ->).
    simplify_eq. split_and!.
    + split; [by apply well_formed_set_e, well_formed_set_x|].
      pose proof (genes_within_insert _ _ _ idx lo hi v Hwithin Hlo Hhi Hv).
      by destruct e.
    + by destruct e.
    + by destruct e.
    + by destruct e.
    + destruct e. simpl. apply size_insert.
    + intros j Hj. destruct e. simpl in *.
      destruct (decide (0 ≤ j)) as [?|Hneg].
      * apply at_index_insert_ne; lia.
      * unfold at_index. by rewrite !bool_decide_eq_false_2 by done.
  - right. left.
    split; [by apply (mutate_gene_fixed fuel idx lo hi e Hlo Hhi); lia|].
    rewrite Hlo, Hhi. f_equal. lia.
Qed.

(** The loop of [mutate(idxs)] on indices inside the chromosome. *)
Lemma mutate_each_spec (fuel : nat) (idxs : list Z) (flag : bool) e :
  within_state e →
  (∀ i, i ∈ idxs → 0 ≤ i < size (m_x e)) →
  (mutate_each fuel idxs flag e = OutOfFuel ∨
   ∃ res, mutate_each fuel idxs flag e = Normal res) ∧
  ∀ flag' e', mutate_each fuel idxs flag e = Normal (flag', e') →
    within_state e' ∧ same_topology e e' ∧
    m_active_nodes e' = m_active_nodes e ∧
    m_active_genes e' = m_active_genes e ∧
    (∀ j, j ∉ idxs → at_index (m_x e') j = at_index (m_x e) j) ∧
    (flag' = false → flag = false ∧ e' = e).
Proof.
  revert flag e. induction idxs as [|idx idxs IH]; intros flag e Hst Hin.
  - simpl. split; [right; by eexists|].
    intros flag' e' [= <- <-]. split_and!; try done; apply same_topology_refl.
  - cbn [mutate_each].
    assert (0 ≤ idx < size (m_x e)) as Hidx by (apply Hin; by left).
    rewrite bool_decide_eq_false_2 by lia.
    destruct (mutate_gene_step (X := exn * @expression E U) fuel idx e Hst Hidx)
      as [Hout|[[Hnone _]|(e1 & Hsome & Hst1 & Htop & Hnodes & Hgenes & Hsz & Hx)]].
    + rewrite Hout. simpl. split; [by left|done].
    + rewrite Hnone. simpl.
      destruct (IH flag e Hst) as [Hprog Hpost].
      { intros i Hi. apply Hin. by right. }
      split; [done|]. intros flag' e' Hrun.
      destruct (Hpost flag' e' Hrun) as (? & ? & ? & ? & Hkeep & ?).
      split_and!; try done. intros j Hj. apply Hkeep.
      intros Hj'. apply Hj. by right.
    + rewrite Hsome. simpl.
      destruct (IH true e1 Hst1) as [Hprog Hpost].
      { intros i Hi. rewrite Hsz. apply Hin. by right. }
      split; [done|]. intros flag' e' Hrun.
      destruct (Hpost flag' e' Hrun) as (? & ? & ? & ? & Hkeep & Hflag).
      split_and!; try done.
      * by eapply same_topology_trans.
      * congruence.
      * congruence.
      * intros j Hj. rewrite Hkeep by (intros Hj'; apply Hj; by right).
        apply Hx. intros ->. apply Hj. by left.
      * intros ->. by destruct (Hflag eq_refl).
Qed.

(** The recomputation that ends a batch. *)
Lemma finish_batch (fuel : nat) e :
  within_state e →
  (Z.to_nat (m_r e * m_c e) < fuel)%nat →
  ∃ e', update_active (X := exn * @expression E U) fuel e = Normal e' ∧
    consistent e' ∧ same_topology e e' ∧ m_x e' = m_x e ∧ m_e e' = m_e e.
Proof.
  intros [Hwf Hwithin] Hfuel.
  destruct (update_active_spec (X := exn * @expression E U) fuel e Hwf Hwithin
              Hfuel) as (nodes & Hrun & _).
  eexists. split; [done|]. split.
  - by eapply update_active_consistent.
  - by destruct e.
Qed.
End Batch.

Section BatchOperators.
Context {E : Type} `{!RandomEngine E} {U : Type} `{!Inhabited U}.
Implicit Type e : @expression E U.

Lemma mutate_each_fixed (fuel : nat) (idxs : list Z) (flag : bool) e :
  within_state e →
  (∀ i, i ∈ idxs → 0 ≤ i < size (m_x e)) →
  (∀ i, i ∈ idxs → at_index (m_lb e) i = at_index (m_ub e) i) →
  mutate_each fuel idxs flag e = Normal (flag, e).
Proof.
  intros Hst. induction idxs as [|idx idxs IH]; intros Hin Hfix; [done|].
  cbn [mutate_each].
  assert (0 ≤ idx < size (m_x e)) as Hidx by (apply Hin; by left).
  rewrite bool_decide_eq_false_2 by lia.
  destruct (at_index_is_Some (m_x e) idx Hidx) as [cur Hcur].
  destruct (proj2 (proj2 Hst) idx cur Hcur) as (lo & hi & Hlo & Hhi & Hle).
  assert (hi ≤ lo) as Hge.
  { specialize (Hfix idx ltac:(by left)). rewrite Hlo, Hhi in Hfix.
    injection Hfix as ->. lia. }
  rewrite (mutate_gene_fixed fuel idx lo hi e Hlo Hhi Hge). simpl.
  apply IH; intros; [apply Hin|apply Hfix]; by right.
Qed.

(** X2: on a consistent instance, [mutate(idxs)] with every index inside the
    chromosome never throws and never reads outside a vector: it returns,
    unless a resampling loop does not end; the instance it returns is
    consistent, has the same topology and bounds, and differs from the
    former chromosome at listed indices only; when every listed gene has a
    single legal value ([lb = ub]), the whole object is returned as it was,
    the empty list included. *)
Theorem mutate_many_in_range (fuel : nat) (idxs : list Z) e :
  consistent e →
  (∀ i, i ∈ idxs → 0 ≤ i < size (get e)) →
  (Z.to_nat (m_r e * m_c e) < fuel)%nat →
  (mutate_many fuel idxs e = OutOfFuel ∨
   ∃ e', mutate_many fuel idxs e = Normal e') ∧
  (∀ e', mutate_many fuel idxs e = Normal e' →
     consistent e' ∧ same_topology e e' ∧
     ∀ j, j ∉ idxs → at_index (get e') j = at_index (get e) j) ∧
  ((∀ i, i ∈ idxs → at_index (get_lb e) i = at_index (get_ub e) i) →
   mutate_many fuel idxs e = Normal e).
Proof.
  unfold get, get_lb, get_ub. intros Hc Hin Hfuel.
  pose proof (consistent_within_state e Hc) as Hst.
  destruct (mutate_each_spec fuel idxs false e Hst Hin) as [Hprog Hpost].
  assert (∀ flag' e1, mutate_each fuel idxs false e = Normal (flag', e1) →
    ∃ e', (if flag' then update_active (X := exn * @expression E U) fuel e1
           else Normal e1) = Normal e' ∧
      consistent e' ∧ same_topology e e' ∧
      ∀ j, j ∉ idxs → at_index (m_x e') j = at_index (m_x e) j) as Hend.
  { intros flag' e1 Hrun.
    destruct (Hpost flag' e1 Hrun) as (Hst1 & Htop & _ & _ & Hkeep & Hflag).
    destruct flag'.
    - destruct (finish_batch fuel e1 Hst1) as (e' & Hupd & Hc' & Htop' & Hx & _).
      { destruct Htop as (_ & _ & -> & -> & _). done. }
      exists e'. split; [done|]. split; [done|].
      split; [by eapply same_topology_trans|]. by rewrite Hx.
    - destruct (Hflag eq_refl) as [_ ->]. exists e.
      split; [done|]. split; [done|]. split; [apply same_topology_refl|done]. }
  unfold mutate_many. split_and!.
  - destruct Hprog as [Hout|[[flag' e1] Hrun]]; [left; by rewrite Hout|].
    right. rewrite Hrun. simpl.
    destruct (Hend flag' e1 Hrun) as (e' & Hupd & _). by exists e'.
  - intros e' Hrun.
    apply outcome_bind_Normal in Hrun as ([flag' e1] & Hrun & Hupd).
    destruct (Hend flag' e1 Hrun) as (e'' & Hupd' & Hres).
    rewrite Hupd in Hupd'. by simplify_eq.
  - intros Hfix. by rewrite (mutate_each_fixed fuel idxs false e Hst Hin Hfix).
Qed.

(** The loop of [mutate_random]: every index it draws lies inside the
    chromosome. *)
Lemma mutate_random_loop_spec (fuel : nat) (count : nat) (flag : bool) e :
  within_state e →
  (mutate_random_loop fuel count flag e = OutOfFuel ∨
   ∃ res, mutate_random_loop fuel count flag e = Normal res) ∧
  ∀ flag' e', mutate_random_loop fuel count flag e = Normal (flag', e') →
    within_state e' ∧ same_topology e e' ∧
    m_active_nodes e' = m_active_nodes e ∧
    m_active_genes e' = m_active_genes e ∧
    (∃ idxs, length idxs = count ∧
       (∀ i, i ∈ idxs → 0 ≤ i < size (m_x e)) ∧
       ∀ j, j ∉ idxs → at_index (m_x e') j = at_index (m_x e) j) ∧
    (flag' = false → flag = false ∧ m_x e' = m_x e).
Proof.
  revert flag e. induction count as [|count IH]; intros flag e Hst.
  - simpl. split; [right; by eexists|].
    intros flag' e' [= <- <-].
    split; [done|]. split; [apply same_topology_refl|].
    split; [done|]. split; [done|]. split; [|done].
    exists []. split; [done|]. split; [|done]. intros i Hi.
    by apply elem_of_nil in Hi.
  - cbn [mutate_random_loop].
    pose proof Hst as [Hwf Hwithin].
    pose proof (well_formed_bounds e Hwf) as Hb.
    pose proof (bs_size_lb _ _ _ _ _ _ _ _ _ Hb) as Hlb.
    pose proof (topology_facts _ _ _ _ _ _ _ (wf_unsigned _ Hwf)
                  (wf_valid _ Hwf) (wf_fits _ Hwf))
      as (?&?&?&?&?&?&?&?&?&?&?&?&?&?&HB&?).
    rewrite HB in Hlb.
    assert (wrap (size (m_lb e) - 1) = size (m_lb e) - 1) as ->
      by (apply wrap_small; lia).
    unfold draw. rewrite bool_decide_eq_true_2 by lia.
    pose proof (uniform_int_range 0 (size (m_lb e) - 1) (m_e e) ltac:(lia))
      as Hk.
    destruct (uniform_int 0 (size (m_lb e) - 1) (m_e e)) as [idx g].
    simpl in Hk. simpl.
    pose proof (within_state_set_e e g Hst) as Hst0.
    assert (0 ≤ idx < size (m_x e)) as Hidx by (rewrite (proj1 Hwithin); lia).
    destruct (mutate_gene_step (X := exn * @expression E U) fuel idx (set_e e g)
                Hst0 Hidx)
      as [Hout|[[Hnone _]|(e1 & Hsome & Hst1 & Htop & Hnodes & Hgenes & Hsz & Hx)]].
    + rewrite Hout. simpl. split; [by left|done].
    + rewrite Hnone. simpl.
      destruct (IH flag (set_e e g) Hst0) as [Hprog Hpost].
      split; [done|]. intros flag' e' Hrun.
      destruct (Hpost flag' e' Hrun)
        as (? & ? & ? & ? & (idxs & Hlen & Hin & Hkeep) & Hflag).
      split_and!; try done.
      exists (idx :: idxs). split; [simpl; lia|]. split.
      * intros i [->|Hi]%elem_of_cons; [done|by apply Hin].
      * intros j Hj. apply Hkeep. intros Hj'. apply Hj. by right.
    + rewrite Hsome. simpl.
      change (same_topology e e1) in Htop. simpl in Hnodes, Hgenes, Hsz, Hx.
      destruct (IH true e1 Hst1) as [Hprog Hpost].
      split; [done|]. intros flag' e' Hrun.
      destruct (Hpost flag' e' Hrun)
        as (? & ? & ? & ? & (idxs & Hlen & Hin & Hkeep) & Hflag).
      split_and!; try done.
      * by eapply same_topology_trans.
      * congruence.
      * congruence.
      * exists (idx :: idxs). split; [simpl; lia|]. split.
        -- intros i [->|Hi]%elem_of_cons; [done|].
           rewrite <- Hsz. by apply Hin.
        -- intros j Hj. rewrite Hkeep by (intros Hj'; apply Hj; by right).
           apply Hx. intros ->. apply Hj. by left.
      * intros ->. by destruct (Hflag eq_refl).
Qed.

(** X3: on a consistent instance [mutate_random(N)] never throws and never
    reads outside a vector: it returns, unless a resampling loop does not
    end; the instance it returns is consistent, has the same topology and
    bounds, and its chromosome differs from the former one at no more than
    [N] positions. *)
Theorem mutate_random_spec (fuel : nat) (N : Z) e :
  consistent e →
  (Z.to_nat (m_r e * m_c e) < fuel)%nat →
  (mutate_random fuel N e = OutOfFuel ∨
   ∃ e', mutate_random fuel N e = Normal e') ∧
  (∀ e', mutate_random fuel N e = Normal e' →
     consistent e' ∧ same_topology e e' ∧
     ∃ idxs, length idxs = Z.to_nat N ∧
       ∀ j, j ∉ idxs → at_index (get e') j = at_index (get e) j).
Proof.
  unfold get. intros Hc Hfuel.
  pose proof (consistent_within_state e Hc) as Hst.
  destruct (mutate_random_loop_spec fuel (Z.to_nat N) false e Hst)
    as [Hprog Hpost].
  assert (∀ flag' e1,
    mutate_random_loop fuel (Z.to_nat N) false e = Normal (flag', e1) →
    ∃ e', (if flag' then update_active (X := exn * @expression E U) fuel e1
           else Normal e1) = Normal e' ∧
      consistent e' ∧ same_topology e e' ∧
      ∃ idxs, length idxs = Z.to_nat N ∧
        ∀ j, j ∉ idxs → at_index (m_x e') j = at_index (m_x e) j) as Hend.
  { intros flag' e1 Hrun.
    destruct (Hpost flag' e1 Hrun)
      as (Hst1 & Htop & Hnodes & Hgenes & (idxs & Hlen & _ & Hkeep) & Hflag).
    destruct flag'.
    - destruct (finish_batch fuel e1 Hst1) as (e' & Hupd & Hc' & Htop' & Hx & _).
      { destruct Htop as (_ & _ & -> & -> & _). done. }
      exists e'. split; [done|]. split; [done|].
      split; [by eapply same_topology_trans|].
      exists idxs. split; [done|]. by rewrite Hx.
    - exists e1. split; [done|].
      destruct (Hflag eq_refl) as [_ Hx].
      split; [|split; [done|by exists idxs]].
      destruct Htop as (?&?&?&?&?&?&?&?&?).
      assert (e1 = set_e e (m_e e1)) as ->
        by (destruct e, e1; simpl in *; by simplify_eq).
      by apply consistent_set_e.
  }
  unfold mutate_random. split.
  - destruct Hprog as [Hout|[[flag' e1] Hrun]]; [left; by rewrite Hout|].
    right. rewrite Hrun. simpl.
    destruct (Hend flag' e1 Hrun) as (e' & Hupd & _). by exists e'.
  - intros e' Hrun.
    apply outcome_bind_Normal in Hrun as ([flag' e1] & Hrun & Hupd).
    destruct (Hend flag' e1 Hrun) as (e'' & Hupd' & Hres).
    rewrite Hupd in Hupd'. by simplify_eq.
Qed.
End BatchOperators.

(** ** Genes that do not change the active set *)

Lemma at_index_insert_other {A} (v : list A) (i j : Z) (a : A) :
  0 ≤ i → j ≠ i → at_index (<[Z.to_nat i := a]> v) j = at_index v j.
Proof.
  intros Hi Hj. destruct (decide (0 ≤ j)) as [?|Hneg].
  - by apply at_index_insert_ne.
  - unfold at_index. by rewrite !bool_decide_eq_false_2 by done.
Qed.

Lemma for_each_ext_in {X S} (l : list Z) (body1 body2 : Z → S → outcome X S)
    (s : S) :
  (∀ i t, i ∈ l → body1 i t = body2 i t) →
  for_each l body1 s = for_each l body2 s.
Proof.
  revert s. induction l as [|i l IH]; intros s Hext; [done|]. simpl.
  rewrite (Hext i s) by (by left).
  destruct (body2 i s); simpl; try done.
  apply IH. intros j t Hj. apply Hext. by right.
Qed.

Section Unread.
Variables (n m r c arity : Z) (x : list Z) (idx v : Z).
Hypothesis Hidx : 0 ≤ idx.
Hypothesis Houtput : ∀ q, 0 ≤ q < m → idx ≠ (arity + 1) * r * c + q.
Hypothesis Hconnection : ∀ u i,
  reachable n m r c arity x u → n ≤ u → 1 ≤ i ≤ arity →
  idx ≠ (u - n) * (arity + 1) + i.

Lemma output_targets_insert :
  output_targets m r c arity (<[Z.to_nat idx := v]> x)
  = output_targets m r c arity x.
Proof.
  unfold output_targets. apply omap_ext_in. intros q Hq%elem_of_seqZ.
  apply at_index_insert_other; [done|]. intros Heq.
  apply (Houtput q); [lia|done].
Qed.

(** Writing a gene that is neither an output gene nor a connection gene
    of a reachable node leaves the reachable nodes as they are. *)
Lemma reachable_insert a :
  reachable n m r c arity (<[Z.to_nat idx := v]> x) a ↔
  reachable n m r c arity x a.
Proof.
  unfold reachable. rewrite output_targets_insert. split.
  - intros Ha. induction Ha as [a Ha|u a Hu IH (Hn & i & Hi & Hedge)].
    + by apply reach_here.
    + eapply reach_step; [done|]. split; [done|]. exists i. split; [done|].
      rewrite at_index_insert_other in Hedge; [done|done|].
      intros Heq. by apply (Hconnection u i).
  - intros Ha. induction Ha as [a Ha|u a Hu IH (Hn & i & Hi & Hedge)].
    + by apply reach_here.
    + eapply reach_step; [done|]. split; [done|]. exists i. split; [done|].
      rewrite at_index_insert_other; [done|done|].
      intros Heq. by apply (Hconnection u i).
Qed.
End Unread.

Section Neutral.
Context {E : Type} `{!RandomEngine E} {U : Type} `{!Inhabited U}.
Implicit Type e : @expression E U.

(** What [mutate(idx)] returns: a consistent instance of the same topology
    whose chromosome is the former one with gene [idx] rewritten. *)
Lemma mutate_frame (fuel : nat) (idx : Z) e e' :
  consistent e →
  mutate fuel idx e = Normal e' →
  consistent e' ∧ same_topology e e' ∧ 0 ≤ idx < size (m_x e) ∧
  ∃ v, m_x e' = <[Z.to_nat idx := v]> (m_x e).
Proof.
  intros Hc Hrun. unfold mutate in Hrun. case_bool_decide as Hsz; [done|].
  apply outcome_bind_Normal in Hrun as ([e1|] & Hgene & Hrun).
  - destruct (mutated_state fuel idx e e1 e' Hc Hgene Hrun)
      as (Hc' & lo & hi & cur & v & Hlo & _ & _ & _ & _ & _ & Hx).
    split; [done|].
    destruct (mutate_gene_Some _ _ _ _ Hgene)
      as (? & ? & ? & ? & ? & _ & _ & _ & _ & _ & _ & ->).
    destruct (update_active_inv _ _ _ Hrun) as (? & ? & ->).
    apply at_index_Some_range in Hlo.
    split; [by destruct e|]. split; [lia|]. by exists v.
  - simplify_eq.
    apply mutate_gene_None in Hgene as (lo & hi & Hlo & _).
    apply at_index_Some_range in Hlo.
    split; [done|]. split; [apply same_topology_refl|]. split; [lia|].
    destruct (at_index_is_Some (m_x e') idx ltac:(lia)) as [cur Hcur].
    exists cur. symmetry. apply list_insert_id.
    by rewrite at_index_lookup in Hcur by lia.
Qed.

(** A mutation of a gene that is neither an output gene nor a connection
    gene of an active node keeps both active vectors. *)
Lemma unread_gene_keeps_active (fuel : nat) (idx : Z) e e' :
  consistent e →
  mutate fuel idx e = Normal e' →
  (∀ q, 0 ≤ q < m_m e → idx ≠ (m_arity e + 1) * m_r e * m_c e + q) →
  (∀ u i, u ∈ m_active_nodes e → m_n e ≤ u → 1 ≤ i ≤ m_arity e →
     idx ≠ (u - m_n e) * (m_arity e + 1) + i) →
  m_active_nodes e' = m_active_nodes e ∧
  m_active_genes e' = m_active_genes e.
Proof.
  intros Hc Hrun Hout Hconn.
  destruct (mutate_frame fuel idx e e' Hc Hrun)
    as (Hc' & Htop & Hidx & v & Hx).
  destruct (consistent_active e Hc) as (Hs & He & Hgenes).
  destruct (consistent_active e' Hc') as (Hs' & He' & Hgenes').
  destruct Htop as (Hn & Hm & Hr & Hcol & _ & Ha & _).
  rewrite Hn, Hm, Hr, Hcol, Ha, Hx in He'.
  rewrite Hn, Hm, Hr, Hcol, Ha in Hgenes'.
  assert (m_active_nodes e' = m_active_nodes e) as Hnodes.
  { apply StronglySorted_lt_ext; [done|done|]. intros a.
    rewrite He', He. apply reachable_insert; [lia|done|].
    intros u i Hu. apply Hconn. by apply He. }
  split; [done|]. by rewrite Hgenes', Hgenes, Hnodes.
Qed.

(** The evaluation reads the chromosome at the active genes only. *)
Lemma call_ext e e' (inp : list U) :
  consistent e →
  same_topology e e' →
  m_active_nodes e' = m_active_nodes e →
  (∀ g, g ∈ m_active_genes e → at_index (m_x e') g = at_index (m_x e) g) →
  call e' inp = call e inp.
Proof.
  intros Hc (Hn & Hm & Hr & Hcol & _ & Ha & Hf & _) Hnodes Hsame.
  destruct (active_genes_split e Hc) as (Hgenes & _).
  destruct (active_node_facts e Hc) as (_ & Hrange & _).
  pose proof Hc as [Hwf _ _].
  pose proof (wf_unsigned _ Hwf) as Hu. pose proof (wf_valid _ Hwf) as Hv.
  pose proof (wf_fits _ Hwf) as Hfits.
  pose proof (topology_facts _ _ _ _ _ _ _ Hu Hv Hfits)
    as (?&?&?&?&?&?&?&?&?&?&?&?&?&?&HB&?).
  assert (∀ u j, u ∈ m_active_nodes e → m_n e ≤ u → 0 ≤ j ≤ m_arity e →
    at_index (m_x e') ((u - m_n e) * (m_arity e + 1) + j)
    = at_index (m_x e) ((u - m_n e) * (m_arity e + 1) + j)) as Hblock.
  { intros u j Hu' Hge Hj. apply Hsame. rewrite Hgenes.
    apply elem_of_app. left. apply elem_of_internal_genes. by exists u, j. }
  assert (∀ q, 0 ≤ q < m_m e →
    at_index (m_x e') ((m_arity e + 1) * (m_r e * m_c e) + q)
    = at_index (m_x e) ((m_arity e + 1) * (m_r e * m_c e) + q)) as Hout.
  { intros q Hq. apply Hsame. rewrite Hgenes. apply elem_of_app. right.
    unfold output_genes. apply list_elem_of_fmap. exists q.
    split; [lia|]. apply elem_of_seqZ. lia. }
  unfold call. rewrite Hn, Hm, Ha, Hnodes.
  case_bool_decide; [done|]. cbv zeta.
  assert (∀ st, eval_nodes (X := exn) e' inp (m_active_nodes e) st
                = eval_nodes e inp (m_active_nodes e) st) as ->.
  { intros st. unfold eval_nodes. apply for_each_ext_in.
    intros i [fin node] Hi. unfold eval_node. rewrite Hn, Ha, Hf.
    case_bool_decide as Hin; [done|].
    specialize (Hrange i Hi).
    rewrite (block_index_small _ _ _ _ _ _ _ i Hu Hv Hfits) by lia.
    assert (for_each (X := exn) (seqZ 0 (m_arity e))
              (gather_input (m_x e') ((i - m_n e) * (m_arity e + 1)))
              (fin, node)
            = for_each (seqZ 0 (m_arity e))
                (gather_input (m_x e) ((i - m_n e) * (m_arity e + 1)))
                (fin, node)) as ->.
    { apply for_each_ext_in. intros j [fi nd] Hj%elem_of_seqZ.
      unfold gather_input, subscript.
      pose proof (grid_gene_range (m_arity e + 1) (m_r e * m_c e)
                    (i - m_n e) (j + 1) ltac:(lia) ltac:(lia)).
      pose proof (grid_gene_range (m_arity e + 1) (m_r e * m_c e)
                    (i - m_n e) j ltac:(lia) ltac:(lia)).
      rewrite modulus_eq in *.
      rewrite (uadd_small ((i - m_n e) * (m_arity e + 1)) j)
        by (rewrite modulus_eq; lia).
      rewrite uadd_small by (rewrite modulus_eq; lia).
      replace ((i - m_n e) * (m_arity e + 1) + j + 1)
        with ((i - m_n e) * (m_arity e + 1) + (j + 1)) by lia.
      by rewrite Hblock by (done || lia). }
    destruct (for_each _ _ _) as [[fin' node']| | | |]; simpl; try done.
    unfold subscript.
    specialize (Hblock i 0 Hi ltac:(lia) ltac:(lia)).
    rewrite Z.add_0_r in Hblock. by rewrite Hblock. }
  destruct (eval_nodes e inp (m_active_nodes e) _)
    as [[fin node]| | | |]; simpl; try done.
  assert (for_each (X := exn) (seqZ 0 (m_m e)) (read_output e')
            (value_initialised (m_m e), node)
          = for_each (seqZ 0 (m_m e)) (read_output e)
              (value_initialised (m_m e), node)) as ->; [|done].
  apply for_each_ext_in. intros q [ret nd] Hq%elem_of_seqZ.
  unfold read_output, subscript. rewrite Hr, Hcol, Ha.
  rewrite (output_index_small' _ _ _ _ _ _ _ Hu Hv Hfits) by lia.
  by rewrite Hout by lia.
Qed.

(** X4: a gene outside the active genes is neutral: when [mutate(idx)] on
    a consistent instance returns and [idx] is not an active gene, the
    active nodes and the active genes are the ones before the call, and
    the instance evaluates every input to the same result as before. *)
Theorem inactive_gene_is_neutral (fuel : nat) (idx : Z) e e' :
  consistent e →
  idx ∉ get_active_genes e →
  mutate fuel idx e = Normal e' →
  get_active_nodes e' = get_active_nodes e ∧
  get_active_genes e' = get_active_genes e ∧
  ∀ inp, call e' inp = call e inp.
Proof.
  unfold get_active_genes, get_active_nodes. intros Hc Hidx Hrun.
  destruct (active_genes_split e Hc) as (Hgenes & _).
  destruct (mutate_frame fuel idx e e' Hc Hrun)
    as (Hc' & Htop & Hrange & v & Hx).
  destruct (unread_gene_keeps_active fuel idx e e' Hc Hrun) as [Hnodes Hact].
  - intros q Hq ->. apply Hidx. rewrite Hgenes. apply elem_of_app. right.
    unfold output_genes. apply list_elem_of_fmap. exists q.
    split; [done|]. apply elem_of_seqZ. lia.
  - intros u i Hu Hge Hi ->. apply Hidx. rewrite Hgenes.
    apply elem_of_app. left. apply elem_of_internal_genes.
    exists u, i. split_and!; [done|done|lia|lia|done].
  - split; [done|]. split; [done|]. intros inp.
    apply call_ext; [done|done|done|].
    intros g Hg. rewrite Hx. apply at_index_insert_other; [lia|].
    intros ->. done.
Qed.
End Neutral.

(** ** The mutations of one kind of active gene *)

Section KindMutations.
Context {E : Type} `{!RandomEngine E} {U : Type} `{!Inhabited U}.
Implicit Type e : @expression E U.

(** The gene [mutate_active_fgene] hands to [mutate]. *)
Lemma fgene_target (fuel : nat) e :
  consistent e →
  m_m e < size (m_active_genes e) →
  ∃ g v, v ∈ m_active_nodes e ∧ m_n e ≤ v < m_n e + m_r e * m_c e ∧
    mutate_active_fgene fuel e
    = mutate fuel ((v - m_n e) * (m_arity e + 1)) (set_e e g).
Proof.
  intros Hc Hsize.
  destruct (active_genes_split e Hc) as (_ & _ & _ & Hsmall).
  pose proof Hc as [Hwf _ _]. pose proof (wf_valid _ Hwf) as Hv.
  unfold valid_topology in Hv.
  assert (wrap (size (m_active_genes e) - 1 - m_m e)
          = size (m_active_genes e) - 1 - m_m e) as Hwrap
    by (apply wrap_small; lia).
  pose proof (uniform_int_range 0 (size (m_active_genes e) - 1 - m_m e)
                (m_e e) ltac:(lia)) as Hk.
  unfold mutate_active_fgene. rewrite bool_decide_eq_true_2 by done.
  unfold draw. rewrite Hwrap, bool_decide_eq_true_2 by lia.
  destruct (uniform_int 0 (size (m_active_genes e) - 1 - m_m e) (m_e e))
    as [k g]. simpl in Hk. simpl.
  destruct (pick_active_gene e k Hc Hk)
    as (a & v & j & Ha & Hv' & Hvn & _ & _ & _ & Hstart & _).
  rewrite (subscript_Normal _ _ _ Ha). simpl. rewrite Hstart.
  by exists g, v.
Qed.

(** The gene [mutate_active_cgene] hands to [mutate]. *)
Lemma cgene_target (fuel : nat) e :
  consistent e →
  m_m e < size (m_active_genes e) →
  ∃ g v j, v ∈ m_active_nodes e ∧ m_n e ≤ v < m_n e + m_r e * m_c e ∧
    1 ≤ j ≤ m_arity e ∧
    mutate_active_cgene fuel e
    = mutate fuel ((v - m_n e) * (m_arity e + 1) + j) (set_e e g).
Proof.
  intros Hc Hsize.
  destruct (active_genes_split e Hc) as (_ & _ & _ & Hsmall).
  pose proof Hc as [Hwf _ _]. pose proof (wf_valid _ Hwf) as Hv.
  unfold valid_topology in Hv.
  assert (wrap (size (m_active_genes e) - 1 - m_m e)
          = size (m_active_genes e) - 1 - m_m e) as Hwrap
    by (apply wrap_small; lia).
  pose proof (uniform_int_range 0 (size (m_active_genes e) - 1 - m_m e)
                (m_e e) ltac:(lia)) as Hk.
  unfold mutate_active_cgene. rewrite bool_decide_eq_true_2 by done.
  unfold draw. rewrite Hwrap, bool_decide_eq_true_2 by lia.
  destruct (uniform_int 0 (size (m_active_genes e) - 1 - m_m e) (m_e e))
    as [k g]. simpl in Hk. simpl.
  destruct (pick_active_gene e k Hc Hk)
    as (a & v & j0 & Ha & Hv' & Hvn & _ & _ & _ & Hstart & Hoff).
  rewrite (subscript_Normal _ _ _ Ha). simpl.
  rewrite bool_decide_eq_true_2 by lia.
  pose proof (uniform_int_range 1 (m_arity e) g ltac:(lia)) as Hj.
  destruct (uniform_int 1 (m_arity e) g) as [j g']. simpl in Hj. simpl.
  rewrite Hstart, Hoff by lia.
  exists g', v, j. split; [done|]. split; [done|]. split; [done|]. done.
Qed.

(** A gene of the block of an internal node is not an output gene, and a
    function gene is no connection gene. *)
Lemma block_gene_facts e (v j : Z) :
  consistent e →
  m_n e ≤ v < m_n e + m_r e * m_c e → 0 ≤ j ≤ m_arity e →
  0 ≤ (v - m_n e) * (m_arity e + 1) + j < (m_arity e + 1) * m_r e * m_c e ∧
  ((v - m_n e) * (m_arity e + 1) + j) mod (m_arity e + 1) = j.
Proof.
  intros [Hwf _ _] Hv Hj.
  pose proof (topology_facts _ _ _ _ _ _ _ (wf_unsigned _ Hwf)
                (wf_valid _ Hwf) (wf_fits _ Hwf))
    as (?&?&?&?&?&?&?&?&?&?&?&?&?&?&HB&?).
  pose proof (grid_gene_range (m_arity e + 1) (m_r e * m_c e) (v - m_n e) j
                ltac:(lia) ltac:(lia)).
  split; [lia|]. apply block_start. lia.
Qed.

(** X5: [mutate_active_fgene()] on a consistent instance never throws; when
    it returns, the instance is consistent with the same topology and
    bounds, every connection gene and every output gene holds the value
    it held before (a function gene at most has changed), and so the active
    nodes and the active genes are the ones before the call. *)
Theorem mutate_active_fgene_keeps_wiring (fuel : nat) e :
  consistent e →
  (Z.to_nat (m_r e * m_c e) < fuel)%nat →
  (mutate_active_fgene fuel e = OutOfFuel ∨
   ∃ e', mutate_active_fgene fuel e = Normal e') ∧
  ∀ e', mutate_active_fgene fuel e = Normal e' →
    consistent e' ∧ same_topology e e' ∧
    get_active_nodes e' = get_active_nodes e ∧
    get_active_genes e' = get_active_genes e ∧
    ∀ j, j mod (m_arity e + 1) ≠ 0 ∨ (m_arity e + 1) * m_r e * m_c e ≤ j →
      at_index (get e') j = at_index (get e) j.
Proof.
  unfold get, get_active_nodes, get_active_genes. intros Hc Hfuel.
  destruct (decide (m_m e < size (m_active_genes e))) as [Hsize|Hsize].
  - destruct (fgene_target fuel e Hc Hsize) as (g & v & Hv & Hvn & ->).
    pose proof (consistent_set_e e g Hc) as Hc1.
    destruct (block_gene_facts e v 0 Hc Hvn) as [Hlt Hmod].
    { destruct Hc as [Hwf _ _]. pose proof (wf_valid _ Hwf) as Hvt.
      unfold valid_topology in Hvt. lia. }
    rewrite Z.add_0_r in Hlt, Hmod.
    pose proof (consistent_within e Hc) as [Hsz _].
    pose proof Hc as [Hwf _ _].
    pose proof (well_formed_bounds e Hwf) as Hb.
    pose proof (bs_size_lb _ _ _ _ _ _ _ _ _ Hb) as Hlb.
    assert (1 ≤ m_m e) as Hm
      by (pose proof (wf_valid _ Hwf) as Hvt; unfold valid_topology in Hvt; lia).
    split.
    + apply mutate_outcome; [done|simpl; lia|done].
    + intros e' Hrun.
      destruct (mutate_frame fuel _ _ e' Hc1 Hrun)
        as (Hc' & Htop & _ & w & Hx).
      destruct (unread_gene_keeps_active fuel _ _ e' Hc1 Hrun)
        as [Hnodes Hgenes].
      * simpl. intros q Hq. lia.
      * simpl. intros u i Hu Hge Hi Heq.
        destruct (active_node_facts e Hc) as (_ & Hrange & _).
        destruct (block_gene_facts e u i Hc) as [_ Hmod']; [|lia|].
        { specialize (Hrange u Hu). lia. }
        rewrite <- Heq, Hmod in Hmod'. lia.
      * split; [done|]. split; [done|]. split; [done|]. split; [done|].
        intros j Hj. rewrite Hx. simpl. apply at_index_insert_other; [lia|].
        intros ->. lia.
  - unfold mutate_active_fgene. rewrite bool_decide_eq_false_2 by done.
    split; [right; by exists e|]. intros e' [= <-].
    split; [done|]. split; [apply same_topology_refl|done].
Qed.

(** X6: [mutate_active_cgene()] on a consistent instance never throws; when
    it returns, the instance is consistent with the same topology and
    bounds, and every function gene and every output gene holds the value
    it held before (a connection gene at most has changed). *)
Theorem mutate_active_cgene_keeps_functions (fuel : nat) e :
  consistent e →
  (Z.to_nat (m_r e * m_c e) < fuel)%nat →
  (mutate_active_cgene fuel e = OutOfFuel ∨
   ∃ e', mutate_active_cgene fuel e = Normal e') ∧
  ∀ e', mutate_active_cgene fuel e = Normal e' →
    consistent e' ∧ same_topology e e' ∧
    ∀ j, j mod (m_arity e + 1) = 0 ∨ (m_arity e + 1) * m_r e * m_c e ≤ j →
      at_index (get e') j = at_index (get e) j.
Proof.
  unfold get. intros Hc Hfuel.
  destruct (decide (m_m e < size (m_active_genes e))) as [Hsize|Hsize].
  - destruct (cgene_target fuel e Hc Hsize) as (g & v & i & Hv & Hvn & Hi & ->).
    pose proof (consistent_set_e e g Hc) as Hc1.
    destruct (block_gene_facts e v i Hc Hvn) as [Hlt Hmod]; [lia|].
    pose proof (consistent_within e Hc) as [Hsz _].
    pose proof Hc as [Hwf _ _].
    pose proof (well_formed_bounds e Hwf) as Hb.
    pose proof (bs_size_lb _ _ _ _ _ _ _ _ _ Hb) as Hlb.
    assert (1 ≤ m_m e) as Hm
      by (pose proof (wf_valid _ Hwf) as Hvt; unfold valid_topology in Hvt; lia).
    split.
    + apply mutate_outcome; [done|simpl; lia|done].
    + intros e' Hrun.
      destruct (mutate_frame fuel _ _ e' Hc1 Hrun)
        as (Hc' & Htop & _ & w & Hx).
      split; [done|]. split; [done|].
      intros j Hj. rewrite Hx. simpl. apply at_index_insert_other; [lia|].
      intros ->. lia.
  - unfold mutate_active_cgene. rewrite bool_decide_eq_false_2 by done.
    split; [right; by exists e|]. intros e' [= <-].
    split; [done|]. split; [apply same_topology_refl|done].
Qed.
End KindMutations.

Section OutputMutation.
Context {E : Type} `{!RandomEngine E} {U : Type} `{!Inhabited U}.
Implicit Type e : @expression E U.

(** The last [m] active genes, position by position. *)
Lemma output_position e (q : Z) :
  consistent e → 0 ≤ q < m_m e →
  at_index (m_active_genes e) (size (m_active_genes e) - m_m e + q)
  = Some ((m_arity e + 1) * m_r e * m_c e + q).
Proof.
  intros Hc Hq.
  destruct (active_genes_split e Hc) as (Hgenes & Hsize & Hint & _).
  rewrite Hsize. rewrite Hgenes at 1.
  rewrite at_index_lookup by lia. unfold size.
  rewrite lookup_app_r by lia. unfold output_genes.
  rewrite list_lookup_fmap.
  replace (Z.to_nat (Z.of_nat (length (internal_genes (m_n e) (m_arity e)
             (m_active_nodes e))) + m_m e - m_m e + q)
           - length (internal_genes (m_n e) (m_arity e) (m_active_nodes e)))%nat
    with (Z.to_nat q) by lia.
  rewrite lookup_seqZ_lt by lia. simpl. do 2 f_equal. lia.
Qed.

(** X7: [mutate_ogene()] on a consistent instance hands an output gene to
    [mutate]: the gene [(arity+1)*r*c + q] for a [q < m], which is [q = 0]
    without any draw when there is one output, and the gene at the drawn
    position among the last [m] active genes otherwise; the call never
    throws, and when it returns the instance is consistent and every gene
    of a node holds the value it held before. *)
Theorem mutate_ogene_spec (fuel : nat) e :
  consistent e →
  (Z.to_nat (m_r e * m_c e) < fuel)%nat →
  (∃ q g, 0 ≤ q < m_m e ∧
     (m_m e = 1 → g = m_e e) ∧
     (1 < m_m e →
        uniform_int (size (get_active_genes e) - m_m e)
          (size (get_active_genes e) - 1) (m_e e)
        = (size (get_active_genes e) - m_m e + q, g)) ∧
     mutate_ogene fuel e
     = mutate fuel ((m_arity e + 1) * m_r e * m_c e + q) (set_e e g)) ∧
  (mutate_ogene fuel e = OutOfFuel ∨ ∃ e', mutate_ogene fuel e = Normal e') ∧
  ∀ e', mutate_ogene fuel e = Normal e' →
    consistent e' ∧ same_topology e e' ∧
    ∀ j, j < (m_arity e + 1) * m_r e * m_c e →
      at_index (get e') j = at_index (get e) j.
Proof.
  unfold get, get_active_genes. intros Hc Hfuel.
  destruct (active_genes_split e Hc) as (Hgenes & Hsize & Hint & Hsmall).
  pose proof Hc as [Hwf _ _]. pose proof (wf_valid _ Hwf) as Hv.
  unfold valid_topology in Hv.
  pose proof (consistent_within e Hc) as [Hsz _].
  pose proof (well_formed_bounds e Hwf) as Hb.
  pose proof (bs_size_lb _ _ _ _ _ _ _ _ _ Hb) as Hlb.
  pose proof (topology_facts _ _ _ _ _ _ _ (wf_unsigned _ Hwf)
                (wf_valid _ Hwf) (wf_fits _ Hwf))
    as (?&?&?&?&?&?&?&?&?&?&?&?&?&?&HB&?).
  assert (∃ q g, 0 ≤ q < m_m e ∧
     (m_m e = 1 → g = m_e e) ∧
     (1 < m_m e →
        uniform_int (size (m_active_genes e) - m_m e)
          (size (m_active_genes e) - 1) (m_e e)
        = (size (m_active_genes e) - m_m e + q, g)) ∧
     mutate_ogene fuel e
     = mutate fuel ((m_arity e + 1) * m_r e * m_c e + q) (set_e e g))
    as (q & g & Hq & Hone & Hmany & Heq).
  { unfold mutate_ogene. case_bool_decide as Hm.
    - rewrite !wrap_small by lia. unfold draw.
      rewrite bool_decide_eq_true_2 by lia.
      pose proof (uniform_int_range (size (m_active_genes e) - m_m e)
                    (size (m_active_genes e) - 1) (m_e e) ltac:(lia)) as Hk.
      destruct (uniform_int (size (m_active_genes e) - m_m e)
                  (size (m_active_genes e) - 1) (m_e e)) as [k g] eqn:Hdraw.
      simpl in Hk. simpl.
      exists (k - (size (m_active_genes e) - m_m e)), g.
      split; [lia|]. split; [lia|]. split.
      + intros _. do 2 f_equal. lia.
      + replace k with (size (m_active_genes e) - m_m e
                        + (k - (size (m_active_genes e) - m_m e))) at 1 by lia.
        rewrite (subscript_Normal _ _ _
                   (output_position e (k - (size (m_active_genes e) - m_m e))
                      Hc ltac:(lia))).
        done.
    - exists 0, (m_e e). split; [lia|]. split; [done|]. split; [lia|].
      rewrite wrap_small by lia.
      replace (size (m_active_genes e) - 1)
        with (size (m_active_genes e) - m_m e + 0) by lia.
      rewrite (subscript_Normal _ _ _ (output_position e 0 Hc ltac:(lia))).
      simpl. by destruct e. }
  split; [by exists q, g|]. rewrite Heq. split.
  - apply mutate_outcome; [by apply consistent_set_e|simpl; lia|done].
  - intros e' Hrun.
    destruct (mutate_frame fuel _ _ e' (consistent_set_e e g Hc) Hrun)
      as (Hc' & Htop & _ & w & Hx).
    split; [done|]. split; [done|].
    intros j Hj. rewrite Hx. simpl. apply at_index_insert_other; lia.
Qed.
End OutputMutation.

(** ** The shape of the active genes *)

Lemma seqZ_sorted (a len : Z) : StronglySorted Z.lt (seqZ a len).
Proof.
  remember (Z.to_nat len) as k eqn:Hk. revert a len Hk.
  induction k as [|k IH]; intros a len Hk.
  - rewrite seqZ_nil by lia. constructor.
  - rewrite seqZ_cons by lia. constructor; [apply IH; lia|].
    apply Forall_forall. intros b Hb%elem_of_seqZ. lia.
Qed.

Lemma gene_block_sorted (n arity v : Z) :
  StronglySorted Z.lt (gene_block n arity v).
Proof.
  unfold gene_block.
  apply (StronglySorted_fmap _ Z.lt); [intros; lia|apply seqZ_sorted].
Qed.

Lemma internal_genes_sorted (n arity : Z) (nodes : list Z) :
  0 ≤ arity →
  StronglySorted Z.lt nodes →
  StronglySorted Z.lt (internal_genes n arity nodes).
Proof.
  intros Ha Hs. induction Hs as [|v nodes Hs IH Hall].
  - constructor.
  - rewrite internal_genes_cons. apply StronglySorted_app_2; [|..|done].
    + intros a b Ha' Hb. case_bool_decide as Hn; [|by apply elem_of_nil in Ha'].
      unfold gene_block in Ha'.
      apply list_elem_of_fmap in Ha' as (j & -> & Hj%elem_of_seqZ).
      apply elem_of_internal_genes in Hb as (u & j' & Hu & Hnu & Hj' & ->).
      rewrite Forall_forall in Hall. specialize (Hall u Hu).
      assert ((v - n + 1) * (arity + 1) ≤ (u - n) * (arity + 1))
        by (apply Z.mul_le_mono_nonneg_r; lia).
      lia.
    + case_bool_decide; [apply gene_block_sorted|constructor].
Qed.

Lemma size_internal_genes (n arity : Z) (nodes : list Z) :
  0 ≤ arity →
  size (internal_genes n arity nodes)
  = (arity + 1) * size (filter (λ v, n ≤ v) nodes).
Proof.
  intros Ha. induction nodes as [|v nodes IH].
  - unfold size. simpl. lia.
  - rewrite internal_genes_cons, size_app, IH, filter_cons.
    case_bool_decide as Hn.
    + rewrite decide_True by done. rewrite size_gene_block by done.
      unfold size. simpl. lia.
    + rewrite decide_False by done. unfold size. simpl. lia.
Qed.

Section ActiveGenesShape.
Context {E : Type} `{!RandomEngine E} {U : Type} `{!Inhabited U}.
Implicit Type e : @expression E U.

(** X8: in a consistent instance the active genes are strictly increasing
    (so free of duplicates), every one of them is an index of the
    chromosome, and their number is [arity + 1] for each active internal
    node plus the [m] output genes. *)
Theorem active_genes_ascending e :
  consistent e →
  StronglySorted Z.lt (get_active_genes e) ∧
  NoDup (get_active_genes e) ∧
  (∀ g, g ∈ get_active_genes e → 0 ≤ g < size (get e)) ∧
  size (get_active_genes e)
  = (m_arity e + 1) * size (filter (λ v, m_n e ≤ v) (get_active_nodes e))
    + m_m e.
Proof.
  unfold get, get_active_genes, get_active_nodes. intros Hc.
  destruct (consistent_active e Hc) as (Hs & _ & Hgenes).
  destruct (active_node_facts e Hc) as (_ & Hrange & _).
  destruct (active_genes_split e Hc) as (_ & Hsize & _).
  pose proof Hc as [Hwf _ _]. pose proof (wf_valid _ Hwf) as Hv.
  unfold valid_topology in Hv.
  pose proof (topology_facts _ _ _ _ _ _ _ (wf_unsigned _ Hwf)
                (wf_valid _ Hwf) (wf_fits _ Hwf))
    as (?&?&?&?&?&?&?&?&?&?&?&?&?&?&HB&?).
  assert (StronglySorted Z.lt (m_active_genes e)) as Hsorted.
  { rewrite Hgenes. apply StronglySorted_app_2.
    - intros a b Ha Hb.
      apply elem_of_internal_genes in Ha as (u & j & Hu & Hn & Hj & ->).
      unfold output_genes in Hb.
      apply list_elem_of_fmap in Hb as (q & -> & Hq%elem_of_seqZ).
      specialize (Hrange u Hu).
      pose proof (grid_gene_range (m_arity e + 1) (m_r e * m_c e)
                    (u - m_n e) j ltac:(lia) ltac:(lia)).
      lia.
    - apply internal_genes_sorted; [lia|done].
    - unfold output_genes.
      apply (StronglySorted_fmap _ Z.lt); [intros; lia|apply seqZ_sorted]. }
  split; [done|]. split; [by apply StronglySorted_lt_NoDup|]. split.
  - intros g Hg. apply elem_of_at_index in Hg as (k & Hk).
    by apply (active_gene_in_range e k g).
  - rewrite Hsize, size_internal_genes by lia. done.
Qed.
End ActiveGenesShape.

(** ** What a chromosome within the bounds encodes *)

Section Wiring.
Context {E : Type} `{!RandomEngine E} {U : Type} `{!Inhabited U}.
Implicit Type e : @expression E U.

(** A gene whose two bounds are known holds a value between them. *)
Lemma bounded_gene e (g lo hi : Z) :
  consistent e →
  at_index (m_lb e) g = Some lo → at_index (m_ub e) g = Some hi →
  ∃ t, at_index (m_x e) g = Some t ∧ lo ≤ t ≤ hi.
Proof.
  intros Hc Hlo Hhi. destruct (consistent_within e Hc) as [Hsz Hall].
  pose proof (at_index_Some_range _ _ _ Hlo) as Hg. rewrite <- Hsz in Hg.
  destruct (at_index_is_Some (m_x e) g Hg) as [t Ht].
  destruct (Hall g t Ht) as (lo' & hi' & ? & ? & ?). simplify_eq.
  by exists t.
Qed.

(** X9: in a consistent instance the chromosome encodes a feed-forward
    graph that respects the levels-back: for the node in row [j] of column
    [i], the function gene is the index of a kernel of the function set,
    and every connection gene holds an id below the ids of column [i]: a
    node of one of the [l] columns before [i] when [i >= l], an input or a
    node of an earlier column otherwise; every output gene holds the id of
    a node of the last [l] columns when [l <= c], of any input or node
    otherwise. *)
Theorem chromosome_wiring e :
  consistent e →
  (∀ i j, 0 ≤ i < m_c e → 0 ≤ j < m_r e →
     ∃ fi k, at_index (get e) ((i * m_r e + j) * (m_arity e + 1)) = Some fi ∧
             at_index (m_f e) fi = Some k) ∧
  (∀ i j k, 0 ≤ i < m_c e → 0 ≤ j < m_r e → 1 ≤ k ≤ m_arity e →
     ∃ t, at_index (get e) ((i * m_r e + j) * (m_arity e + 1) + k) = Some t ∧
          (if bool_decide (m_l e ≤ i) then m_n e + m_r e * (i - m_l e) else 0)
            ≤ t < m_n e + i * m_r e) ∧
  (∀ q, 0 ≤ q < m_m e →
     ∃ t, at_index (get e) ((m_arity e + 1) * m_r e * m_c e + q) = Some t ∧
          (if bool_decide (m_l e ≤ m_c e)
           then m_n e + m_r e * (m_c e - m_l e) else 0)
            ≤ t < m_n e + m_r e * m_c e).
Proof.
  unfold get. intros Hc. pose proof Hc as [Hwf _ _].
  pose proof (wf_unsigned _ Hwf) as Hu. pose proof (wf_valid _ Hwf) as Hv.
  pose proof (wf_fits _ Hwf) as Hf.
  pose proof (well_formed_bounds e Hwf) as Hb.
  pose proof (consistent_within e Hc) as Hwithin.
  split_and!.
  - intros i j Hi Hj.
    pose proof (grid_node_range (m_r e) (m_c e) i j Hi Hj) as Hp.
    destruct (function_gene _ _ _ _ _ _ _ _ _ _ Hu Hv Hf Hb Hwithin
                (m_n e + (i * m_r e + j))) as (fi & Hfi & Hfr); [lia|].
    replace (m_n e + (i * m_r e + j) - m_n e) with (i * m_r e + j) in Hfi
      by lia.
    destruct (at_index_is_Some (m_f e) fi Hfr) as [k Hk]. by exists fi, k.
  - intros i j k Hi Hj Hk.
    destruct (bs_connection _ _ _ _ _ _ _ _ _ Hb i j (k - 1)) as [Hlo Hhi];
      [done|done|lia|].
    replace ((i * m_r e + j) * (m_arity e + 1) + (k - 1) + 1)
      with ((i * m_r e + j) * (m_arity e + 1) + k) in Hlo, Hhi by lia.
    destruct (bounded_gene e _ _ _ Hc Hlo Hhi) as (t & Ht & Hle).
    exists t. split; [done|]. lia.
  - intros q Hq.
    destruct (bs_output _ _ _ _ _ _ _ _ _ Hb q Hq) as [Hlo Hhi].
    destruct (bounded_gene e _ _ _ Hc Hlo Hhi) as (t & Ht & Hle).
    exists t. split; [done|]. lia.
Qed.
End Wiring.

(** ** The constructor *)

Section Constructed.
Context {E : Type} `{!RandomEngine E} {U : Type} `{!Inhabited U}.
Implicit Type e : @expression E U.

(** X10: for a valid topology whose sizes fit the unsigned type the
    constructor returns, for every engine, an instance that stores the
    parameters it was given and is consistent: its random chromosome
    passes [is_valid], its active vectors are those of that chromosome, and
    evaluating it on [n] inputs returns [m] values. *)
Theorem construct_consistent (fuel : nat) (n m r c l arity : Z)
    (f : list (@kernel U)) (seed : E) :
  unsigned_topology n m r c l arity →
  valid_topology n m r c l arity (size f) →
  fits n m r c arity →
  (Z.to_nat (r * c) < fuel)%nat →
  ∃ e, construct fuel n m r c l arity f seed = Normal e ∧
    (m_n e = n ∧ m_m e = m ∧ m_r e = r ∧ m_c e = c ∧ m_l e = l ∧
     m_arity e = arity ∧ m_f e = f) ∧
    consistent e ∧
    is_valid (X := exn) e (get e) = Normal true ∧
    update_active (X := exn) fuel e = Normal e ∧
    ∀ inp : list U, size inp = n →
      ∃ out, call e inp = Normal out ∧ size out = m.
Proof.
  intros Hu Hv Hf Hfuel.
  destruct (construct_spec fuel n m r c l arity f seed Hu Hv Hf Hfuel)
    as (e & Hrun & Hn & Hm & Hr & Hc & Hl & Ha & Hfs & _ & _ & Hcons).
  exists e. split; [done|]. split; [done|]. split; [done|].
  split; [by destruct Hcons|]. split.
  - apply update_active_current; [done|]. by rewrite Hr, Hc.
  - intros inp Hinp.
    destruct (call_spec e inp Hcons) as (out & Hcall & Hsz & _); [congruence|].
    exists out. split; [done|congruence].
Qed.
End Constructed.




(** * Streaming of vectors *)

Lemma append_assoc (s1 s2 s3 : string) :
  (s1 +:+ s2) +:+ s3 = s1 +:+ (s2 +:+ s3).
Proof.
  induction s1 as [|a s1 IH]; [done|].
  change (String a ((s1 +:+ s2) +:+ s3) = String a (s1 +:+ (s2 +:+ s3))).
  by rewrite IH.
Qed.

Lemma append_nil_r (s : string) : s +:+ "" = s.
Proof.
  induction s as [|a s IH]; [done|].
  change (String a (s +:+ "") = String a s). by rewrite IH.
Qed.

Lemma concat_empty_cons (c : string) (k : list string) :
  String.concat "" (c :: k) = c +:+ String.concat "" k.
Proof.
  destruct k as [|d k].
  - change (c = c +:+ ""). by rewrite append_nil_r.
  - reflexivity.
Qed.

Lemma concat_cons_snoc (sep a : string) (l : list string) (x : string) :
  String.concat sep (a :: (l ++ [x]))
  = a +:+ sep +:+ String.concat sep (l ++ [x]).
Proof. by destruct l. Qed.

(** The text of a list with a separator between the elements, from the
    text with a separator after every element. *)
Lemma concat_snoc (sep : string) (l : list string) (x : string) :
  String.concat sep (l ++ [x])
  = String.concat "" ((λ y, y +:+ sep) <$> l) +:+ x.
Proof.
  induction l as [|a l IH]; [reflexivity|].
  rewrite <- app_comm_cons, concat_cons_snoc, IH, fmap_cons,
    concat_empty_cons.
  by rewrite !append_assoc.
Qed.

Lemma concat_trailing_snoc (sep : string) (l : list string) (x : string) :
  String.concat "" ((λ y, y +:+ sep) <$> (l ++ [x]))
  = String.concat "" ((λ y, y +:+ sep) <$> l) +:+ x +:+ sep.
Proof.
  induction l as [|a l IH].
  - change (x +:+ sep = "" +:+ x +:+ sep). reflexivity.
  - rewrite <- app_comm_cons, !fmap_cons, !concat_empty_cons, IH.
    by rewrite !append_assoc.
Qed.

Section StreamVector.
Context {X T : Type}.
Variable text : T → string.
Variable stream : string → T → outcome X string.
Hypothesis stream_appends : ∀ os x, stream os x = Normal (os +:+ text x).

(** X12: a vector of at most five elements is streamed whole and no read
    leaves the vector: an opening bracket, the texts of the elements with
    a comma and a space between two of them and none after the last, and
    a closing bracket; the empty vector gives the two brackets. *)
Theorem stream_vector_short (os : string) (v : list T) :
  size v ≤ PAGMO_MAX_OUTPUT_LENGTH →
  stream_impl_vector stream os v
  = Normal (os +:+ "[" +:+ String.concat ", " (text <$> v) +:+ "]").
Proof.
  intros Hlen. unfold stream_impl_vector. cbv zeta.
  rewrite bool_decide_eq_true_2 by done.
  unfold PAGMO_MAX_OUTPUT_LENGTH in Hlen. pose proof (size_nonneg v) as Hpos.
  destruct (for_range_invariant (X := X)
    (λ i s, s = (os +:+ "[") +:+
       (if bool_decide (i < size v)
        then String.concat "" ((λ y, y +:+ ", ")
                                 <$> (text <$> take (Z.to_nat i) v))
        else String.concat ", " (text <$> v)))
    0 (size v)
    (λ i os0, x ← subscript v i;
              os' ← stream os0 x;
              if bool_decide (i ≠ wrap64 (size v - 1))
              then Normal (os' +:+ ", ") else Normal os')
    (os +:+ "[")) as (s & Hrun & Hs); [done| | |].
  - case_bool_decide.
    + change (os +:+ "[" = (os +:+ "[") +:+ ""). by rewrite append_nil_r.
    + assert (v = []) as -> by (destruct v; [done|unfold size in *; simpl in *; lia]).
      change (os +:+ "[" = (os +:+ "[") +:+ ""). by rewrite append_nil_r.
  - intros i s0 Hi ->. rewrite (bool_decide_eq_true_2 (i < size v)) by lia.
    destruct (at_index_is_Some v i ltac:(lia)) as [x Hx].
    rewrite (subscript_Normal _ _ _ Hx). simpl.
    rewrite stream_appends. simpl.
    assert (wrap64 (size v - 1) = size v - 1) as ->
      by (unfold wrap64; apply Z.mod_small; lia).
    rewrite at_index_lookup in Hx by lia.
    assert (take (Z.to_nat (i + 1)) v = take (Z.to_nat i) v ++ [x]) as Htake.
    { replace (Z.to_nat (i + 1)) with (S (Z.to_nat i)) by lia.
      by apply take_S_r. }
    case_bool_decide as Hlast.
    + eexists. split; [done|].
      rewrite (bool_decide_eq_true_2 (i + 1 < size v)) by lia.
      rewrite Htake, fmap_app. cbn [fmap list_fmap].
      rewrite concat_trailing_snoc. by rewrite !append_assoc.
    + eexists. split; [done|].
      rewrite (bool_decide_eq_false_2 (i + 1 < size v)) by lia.
      assert (v = take (Z.to_nat i) v ++ [x]) as Hv.
      { rewrite <- Htake. symmetry. apply take_ge. unfold size in *. lia. }
      rewrite Hv at 2. rewrite fmap_app. cbn [fmap list_fmap].
      rewrite concat_snoc. by rewrite !append_assoc.
  - rewrite Hrun. simpl. rewrite Hs.
    rewrite bool_decide_eq_false_2 by lia. by rewrite !append_assoc.
Qed.

(** X13: of a vector of more than five elements the first five are
    streamed, each followed by a comma and a space, and then an ellipsis:
    the elements after the fifth are not read, so two long vectors with
    the same first five elements give the same text. *)
Theorem stream_vector_long (os : string) (v : list T) :
  PAGMO_MAX_OUTPUT_LENGTH < size v →
  stream_impl_vector stream os v
  = Normal (os +:+ "[" +:+
            String.concat "" ((λ y, y +:+ ", ") <$> (text <$> take 5 v))
            +:+ "... ]") ∧
  ∀ v', PAGMO_MAX_OUTPUT_LENGTH < size v' → take 5 v' = take 5 v →
    stream_impl_vector stream os v' = stream_impl_vector stream os v.
Proof.
  assert (∀ u, PAGMO_MAX_OUTPUT_LENGTH < size u →
    stream_impl_vector stream os u
    = Normal (os +:+ "[" +:+
              String.concat "" ((λ y, y +:+ ", ") <$> (text <$> take 5 u))
              +:+ "... ]")) as Hlong.
  { intros u Hlen. unfold stream_impl_vector. cbv zeta.
    rewrite bool_decide_eq_false_2 by lia.
    unfold PAGMO_MAX_OUTPUT_LENGTH in *.
    destruct (for_range_invariant (X := X)
      (λ i s, s = (os +:+ "[") +:+
         String.concat "" ((λ y, y +:+ ", ")
                             <$> (text <$> take (Z.to_nat i) u)))
      0 5
      (λ i os0, x ← subscript u i;
                os' ← stream os0 x;
                Normal (os' +:+ ", "))
      (os +:+ "[")) as (s & Hrun & Hs); [done| | |].
    - change (os +:+ "[" = (os +:+ "[") +:+ ""). by rewrite append_nil_r.
    - intros i s0 Hi ->.
      destruct (at_index_is_Some u i ltac:(lia)) as [x Hx].
      rewrite (subscript_Normal _ _ _ Hx). simpl.
      rewrite stream_appends. simpl.
      rewrite at_index_lookup in Hx by lia.
      eexists. split; [done|].
      replace (Z.to_nat (i + 1)) with (S (Z.to_nat i)) by lia.
      rewrite (take_S_r _ _ _ Hx), fmap_app. cbn [fmap list_fmap].
      rewrite concat_trailing_snoc. by rewrite !append_assoc.
    - rewrite Hrun. simpl. rewrite Hs.
      change (Z.to_nat (0 + 5)) with 5%nat. by rewrite !append_assoc. }
  intros Hlen. split; [by apply Hlong|].
  intros v' Hlen' Htake. by rewrite !Hlong, Htake by done.
Qed.
End StreamVector.

(** * The properties above on the documented instances *)

Lemma mutate_many_in_range_witness :
  let e := scenario [0; 0; 1; 2] [0; 1; 2] [0; 1; 2; 3] [1; 1] in
  (mutate_many 2 [1; 2] e = OutOfFuel ∨
   ∃ e', mutate_many 2 [1; 2] e = Normal e') ∧
  (∀ e', mutate_many 2 [1; 2] e = Normal e' →
     consistent e' ∧ same_topology e e' ∧
     ∀ j, j ∉ [1; 2] → at_index (get e') j = at_index (get e) j) ∧
  ((∀ i, i ∈ [1; 2] → at_index (get_lb e) i = at_index (get_ub e) i) →
   mutate_many 2 [1; 2] e = Normal e).
Proof.
  intros e. apply (mutate_many_in_range 2 [1; 2] e).
  - apply scenario_consistent.
  - intros i Hi. unfold get, size. simpl.
    apply elem_of_cons in Hi as [->|Hi]; [lia|].
    apply list_elem_of_singleton in Hi as ->. lia.
  - simpl. lia.
Defined.

Lemma mutate_random_spec_witness :
  let e := scenario [0; 0; 1; 2] [0; 1; 2] [0; 1; 2; 3] [1; 1; 2; 0] in
  (mutate_random 2 2 e = OutOfFuel ∨ ∃ e', mutate_random 2 2 e = Normal e') ∧
  (∀ e', mutate_random 2 2 e = Normal e' →
     consistent e' ∧ same_topology e e' ∧
     ∃ idxs, length idxs = Z.to_nat 2 ∧
       ∀ j, j ∉ idxs → at_index (get e') j = at_index (get e) j).
Proof.
  intros e. apply (mutate_random_spec 2 2 e).
  - apply scenario_consistent.
  - simpl. lia.
Defined.

(** Gene 1 of the instance with [l = 2] and chromosome [0 0 0 0], whose
    only active gene is the output gene. *)
Lemma inactive_gene_is_neutral_witness :
  get_active_nodes (scenario_l2 [0; 1; 0; 0] [0] [3] [])
    = get_active_nodes (scenario_l2 [0; 0; 0; 0] [0] [3] [1]) ∧
  get_active_genes (scenario_l2 [0; 1; 0; 0] [0] [3] [])
    = get_active_genes (scenario_l2 [0; 0; 0; 0] [0] [3] [1]) ∧
  ∀ inp, call (scenario_l2 [0; 1; 0; 0] [0] [3] []) inp
         = call (scenario_l2 [0; 0; 0; 0] [0] [3] [1]) inp.
Proof.
  apply (inactive_gene_is_neutral 2 1
           (scenario_l2 [0; 0; 0; 0] [0] [3] [1])
           (scenario_l2 [0; 1; 0; 0] [0] [3] [])).
  - apply scenario_l2_consistent.
  - simpl. intros Hin. apply list_elem_of_singleton in Hin. lia.
  - reflexivity.
Defined.

Lemma mutate_active_fgene_keeps_wiring_witness :
  let e := scenario [0; 0; 1; 2] [0; 1; 2] [0; 1; 2; 3] [1; 1] in
  (mutate_active_fgene 2 e = OutOfFuel ∨
   ∃ e', mutate_active_fgene 2 e = Normal e') ∧
  ∀ e', mutate_active_fgene 2 e = Normal e' →
    consistent e' ∧ same_topology e e' ∧
    get_active_nodes e' = get_active_nodes e ∧
    get_active_genes e' = get_active_genes e ∧
    ∀ j, j mod (m_arity e + 1) ≠ 0 ∨ (m_arity e + 1) * m_r e * m_c e ≤ j →
      at_index (get e') j = at_index (get e) j.
Proof.
  intros e. apply (mutate_active_fgene_keeps_wiring 2 e).
  - apply scenario_consistent.
  - simpl. lia.
Defined.

Lemma mutate_active_cgene_keeps_functions_witness :
  let e := scenario [0; 0; 1; 2] [0; 1; 2] [0; 1; 2; 3] [1; 0; 1] in
  (mutate_active_cgene 2 e = OutOfFuel ∨
   ∃ e', mutate_active_cgene 2 e = Normal e') ∧
  ∀ e', mutate_active_cgene 2 e = Normal e' →
    consistent e' ∧ same_topology e e' ∧
    ∀ j, j mod (m_arity e + 1) = 0 ∨ (m_arity e + 1) * m_r e * m_c e ≤ j →
      at_index (get e') j = at_index (get e) j.
Proof.
  intros e. apply (mutate_active_cgene_keeps_functions 2 e).
  - apply scenario_consistent.
  - simpl. lia.
Defined.

Lemma mutate_ogene_spec_witness :
  let e := scenario_l2 [0; 0; 0; 0] [0] [3] [2] in
  (∃ q g, 0 ≤ q < m_m e ∧
     (m_m e = 1 → g = m_e e) ∧
     (1 < m_m e →
        uniform_int (size (get_active_genes e) - m_m e)
          (size (get_active_genes e) - 1) (m_e e)
        = (size (get_active_genes e) - m_m e + q, g)) ∧
     mutate_ogene 2 e
     = mutate 2 ((m_arity e + 1) * m_r e * m_c e + q) (set_e e g)) ∧
  (mutate_ogene 2 e = OutOfFuel ∨ ∃ e', mutate_ogene 2 e = Normal e') ∧
  ∀ e', mutate_ogene 2 e = Normal e' →
    consistent e' ∧ same_topology e e' ∧
    ∀ j, j < (m_arity e + 1) * m_r e * m_c e →
      at_index (get e') j = at_index (get e) j.
Proof.
  intros e. apply (mutate_ogene_spec 2 e).
  - apply scenario_l2_consistent.
  - simpl. lia.
Defined.

Lemma active_genes_ascending_witness :
  let e := scenario [0; 0; 1; 2] [0; 1; 2] [0; 1; 2; 3] [] in
  StronglySorted Z.lt (get_active_genes e) ∧
  NoDup (get_active_genes e) ∧
  (∀ g, g ∈ get_active_genes e → 0 ≤ g < size (get e)) ∧
  size (get_active_genes e)
  = (m_arity e + 1) * size (filter (λ v, m_n e ≤ v) (get_active_nodes e))
    + m_m e.
Proof.
  intros e. apply (active_genes_ascending e). apply scenario_consistent.
Defined.

Lemma chromosome_wiring_witness :
  let e := scenario [0; 0; 1; 2] [0; 1; 2] [0; 1; 2; 3] [] in
  (∀ i j, 0 ≤ i < m_c e → 0 ≤ j < m_r e →
     ∃ fi k, at_index (get e) ((i * m_r e + j) * (m_arity e + 1)) = Some fi ∧
             at_index (m_f e) fi = Some k) ∧
  (∀ i j k, 0 ≤ i < m_c e → 0 ≤ j < m_r e → 1 ≤ k ≤ m_arity e →
     ∃ t, at_index (get e) ((i * m_r e + j) * (m_arity e + 1) + k) = Some t ∧
          (if bool_decide (m_l e ≤ i) then m_n e + m_r e * (i - m_l e) else 0)
            ≤ t < m_n e + i * m_r e) ∧
  (∀ q, 0 ≤ q < m_m e →
     ∃ t, at_index (get e) ((m_arity e + 1) * m_r e * m_c e + q) = Some t ∧
          (if bool_decide (m_l e ≤ m_c e)
           then m_n e + m_r e * (m_c e - m_l e) else 0)
            ≤ t < m_n e + m_r e * m_c e).
Proof.
  intros e. apply (chromosome_wiring e). apply scenario_consistent.
Defined.

Lemma construct_consistent_witness :
  ∃ e, construct 2 2 1 1 1 1 2 [add_kernel] ([3; 1; 4] : list Z) = Normal e ∧
    (m_n e = 2 ∧ m_m e = 1 ∧ m_r e = 1 ∧ m_c e = 1 ∧ m_l e = 1 ∧
     m_arity e = 2 ∧ m_f e = [add_kernel]) ∧
    consistent e ∧
    is_valid (X := exn) e (get e) = Normal true ∧
    update_active (X := exn) 2 e = Normal e ∧
    ∀ inp : list float, size inp = 2 →
      ∃ out, call e inp = Normal out ∧ size out = 1.
Proof.
  apply (construct_consistent 2 2 1 1 1 1 2 [add_kernel] ([3; 1; 4] : list Z)).
  - repeat split; rewrite ?modulus_eq; lia.
  - repeat split; unfold size; simpl; lia.
  - split; rewrite ?modulus_eq; lia.
  - simpl. lia.
Defined.

(** Vectors of [bool], whose elements go through the [bool] overload. *)
Lemma stream_vector_short_witness :
  stream_impl_vector (X := exn) (λ os b, Normal (stream_impl_bool os b))
    "v = " [true; false; true]
  = Normal ("v = " +:+ "[" +:+
            String.concat ", "
              ((λ b : bool, if b then "true" else "false")
                 <$> [true; false; true]) +:+ "]").
Proof.
  apply (stream_vector_short (λ b : bool, if b then "true" else "false")
           (λ os b, Normal (stream_impl_bool os b))).
  - intros os b. by destruct b.
  - unfold size, PAGMO_MAX_OUTPUT_LENGTH. simpl. lia.
Defined.

Lemma stream_vector_long_witness :
  stream_impl_vector (X := exn) (λ os b, Normal (stream_impl_bool os b))
    "" [true; false; true; true; false; false; true]
  = Normal ("" +:+ "[" +:+
            String.concat ""
              ((λ y, y +:+ ", ")
                 <$> ((λ b : bool, if b then "true" else "false")
                        <$> take 5 [true; false; true; true; false; false; true]))
            +:+ "... ]") ∧
  ∀ v', PAGMO_MAX_OUTPUT_LENGTH < size v' →
    take 5 v' = take 5 [true; false; true; true; false; false; true] →
    stream_impl_vector (X := exn) (λ os b, Normal (stream_impl_bool os b)) "" v'
    = stream_impl_vector (λ os b, Normal (stream_impl_bool os b)) ""
        [true; false; true; true; false; false; true].
Proof.
  apply (stream_vector_long (λ b : bool, if b then "true" else "false")
           (λ os b, Normal (stream_impl_bool os b))).
  - intros os b. by destruct b.
  - unfold size, PAGMO_MAX_OUTPUT_LENGTH. simpl. lia.
Defined.
